(** * texheaders: a shallow embedding of the texHeaders.bin codec, validator,
    suffix classifier and builder, with the properties proved about them.

    Conventions of the embedding.
    - A byte stream is a [list byte]; a Go [string] is a Rocq [string]
      (both are sequences of 8-bit values, and [[]byte(s)] / [string(b)] are
      [list_byte_of_string] / [string_of_list_byte]).
    - [uint8], [uint16], [uint32] and [int] values are integers in [Z]; every
      narrowing the source performs ([byte(v)], [uint32(v)]) is written out.
    - A [float32] is represented by its IEEE-754 bit pattern: the codec only
      moves it through [math.Float32frombits] and [math.Float32bits].
    - The output stream of [Write] is an append-only buffer
      ([bytes.Buffer]), which never refuses a write; [Stream] is the same
      encoder on a writer that can refuse any call, and the builder's
      [Write] and [WriteFile] run on it.
    - A [*File] argument is an [option File]; [None] is the nil pointer. *)

From Stdlib Require Import ZArith Lia.
From Stdlib Require Import Strings.Byte Strings.Ascii Strings.String.
From stdpp Require Import base tactics option list strings sorting relations gmap.

Local Open Scope Z_scope.

(* ===================================================================== *)
(** * Part I: definitions                                                 *)
(* ===================================================================== *)

(** ** Model (model.go) *)

Definition FileMagic : string := "0DHT".
Definition SupportedVersion : Z := 1.

Definition MaxUint8 : Z := 255.
Definition MaxUint32 : Z := 4294967295.

(** [[4]byte] and [[4]float32] arrays. *)
Definition byte4 : Type := (byte * byte * byte * byte)%type.
Definition float4 : Type := (Z * Z * Z * Z)%type.

Record MipMap := mkMipMap {
  Width : Z;            (* uint16 *)
  Height : Z;           (* uint16 *)
  AlwaysZero : Z;       (* uint16 *)
  MipPaxFormat : Z;     (* uint8, field PaxFormat of MipMap *)
  AlwaysThree : Z;      (* uint8 *)
  DataOffset : Z        (* uint32 *)
}.

Record TextureEntry := mkTextureEntry {
  PAAFile : string;
  MipMaps : list MipMap;
  ColorPaletteCount : Z;
  PalettePtr : Z;
  AverageColorF : float4;
  AverageColor : byte4;
  MaxColor : byte4;
  ClampFlags : Z;
  TransparentColor : Z;
  HasMaxCtagg : bool;
  IsAlpha : bool;
  IsTransparent : bool;
  IsAlphaNonOpaque : bool;
  MipMapCount : Z;
  PaxFormat : Z;
  LittleEndian : bool;
  IsPAA : bool;
  PaxSuffixType : Z;
  MipMapCountCopy : Z;
  PaxFileSize : Z
}.

Record File := mkFile {
  Magic : string;
  Textures : list TextureEntry;
  Version : Z
}.

(** The zero value of [TextureEntry] ([var entry TextureEntry]). *)
Definition zeroByte4 : byte4 := (x00, x00, x00, x00).
Definition zeroEntry : TextureEntry :=
  mkTextureEntry "" [] 0 0 (0, 0, 0, 0) zeroByte4 zeroByte4 0 0
                 false false false false 0 0 false false 0 0 0.

(** ** Errors (errors.go and the wrapping done with [fmt.Errorf]) *)

Inductive error :=
  | ErrInvalidMagic
  | ErrUnsupportedVersion
  | ErrInvalidASCIIZ
  | ErrTooManyTextures
  | ErrUnsupportedInputFormat
  | ErrPACUnsupported
  | ErrEmptyInputPath
  | ErrNilFile                       (* errors.New("file is nil") *)
  | EOF                              (* io.EOF *)
  | ErrUnexpectedEOF                 (* io.ErrUnexpectedEOF *)
  | ErrOutOfU32 (v : Z)              (* "value out of uint32 range: %d" *)
  | ErrUnsupportedPax (t : Z)        (* "unsupported pax format: %d" *)
  | ErrExternal (msg : string)       (* an error of the OS or of the paa package *)
  | Wrap (ctx : string) (e : error)          (* fmt.Errorf("ctx: %w", e) *)
  | WrapAt (ctx : string) (i : Z) (e : error) (* fmt.Errorf("ctx %d: %w", i, e) *)
  | WrapPath (ctx : string) (p : string) (e : error) (* fmt.Errorf("ctx %q: %w", p, e) *)
  | WithStr (e : error) (s : string)         (* fmt.Errorf("%w: ... %q", e, s) *)
  | WithInt (e : error) (v : Z).             (* fmt.Errorf("%w: ... %d", e, v) *)

Inductive result (A : Type) :=
  | Ok (a : A)
  | Err (e : error).
Arguments Ok {A} a.
Arguments Err {A} e.

(** ** Little-endian primitives (encoding/binary) *)

#[global] Instance byte_eq_decision : EqDecision byte := Byte.byte_eq_dec.

Definition byteZ (b : byte) : Z := Z.of_N (Byte.to_N b).

(** The conversion [byte(v)] of an unsigned integer: the low eight bits. *)
Definition toByte (v : Z) : byte :=
  default x00 (Byte.of_N (Z.to_N (v `mod` 256))).

Definition byteAt (b : list byte) (i : nat) : byte := nth i b x00.

(** [binary.LittleEndian.Uint16] and [Uint32] on a slice of 2 and 4 bytes. *)
Definition Uint16 (b : list byte) : Z :=
  Z.lor (byteZ (byteAt b 0)) (Z.shiftl (byteZ (byteAt b 1)) 8).

Definition Uint32 (b : list byte) : Z :=
  Z.lor (Z.lor (Z.lor (byteZ (byteAt b 0)) (Z.shiftl (byteZ (byteAt b 1)) 8))
               (Z.shiftl (byteZ (byteAt b 2)) 16))
        (Z.shiftl (byteZ (byteAt b 3)) 24).

(** [binary.LittleEndian.PutUint16] and [PutUint32]. *)
Definition PutUint16 (v : Z) : list byte :=
  [toByte v; toByte (Z.shiftr v 8)].

Definition PutUint32 (v : Z) : list byte :=
  [toByte v; toByte (Z.shiftr v 8); toByte (Z.shiftr v 16); toByte (Z.shiftr v 24)].

(** ** Decoder (read.go) *)

(** The decoder threads the unread part of the stream. *)
Definition Dec (A : Type) : Type := list byte → result (A * list byte).

Definition dret {A} (a : A) : Dec A := λ s, Ok (a, s).
Definition dfail {A} (e : error) : Dec A := λ _, Err e.
Definition dbind {A B} (m : Dec A) (k : A → Dec B) : Dec B :=
  λ s, match m s with
       | Ok (a, s') => k a s'
       | Err e => Err e
       end.
(** [if err != nil { return fmt.Errorf("ctx: %w", err) }] *)
Definition dwrap {A} (ctx : string) (m : Dec A) : Dec A :=
  λ s, match m s with
       | Ok r => Ok r
       | Err e => Err (Wrap ctx e)
       end.
Definition dwrapAt {A} (ctx : string) (i : Z) (m : Dec A) : Dec A :=
  λ s, match m s with
       | Ok r => Ok r
       | Err e => Err (WrapAt ctx i e)
       end.

Notation "'dlet' x ':=' m 'in' k" := (dbind m (λ x, k))
  (at level 10, x name, m at level 100, k at level 200, only parsing).

(** [io.ReadFull(r, buf[:n])]: all [n] bytes or an error; [io.EOF] when
    nothing at all could be read, [io.ErrUnexpectedEOF] after a partial read. *)
Definition readFull (n : nat) : Dec (list byte) :=
  λ s, if decide (n ≤ length s)%nat then Ok (take n s, drop n s)
       else match s with
            | [] => Err EOF
            | _ :: _ => Err ErrUnexpectedEOF
            end.

Definition readU8 : Dec Z :=
  dlet b := readFull 1 in dret (byteZ (byteAt b 0)).

Definition readBool8 : Dec bool :=
  dlet v := readU8 in dret (negb (v =? 0)).

Definition readU16 : Dec Z :=
  dlet b := readFull 2 in dret (Uint16 b).

Definition readU32 : Dec Z :=
  dlet b := readFull 4 in dret (Uint32 b).

(** [math.Float32frombits] is the identity on the bit pattern. *)
Definition readF32 : Dec Z := readU32.

Definition readByte4 : Dec byte4 :=
  dlet b := readFull 4 in dret (byteAt b 0, byteAt b 1, byteAt b 2, byteAt b 3).

(** [readASCIIZ]: one byte at a time until a zero byte; the loop is
    structural on the unread stream, [buf] is the accumulated prefix. *)
Fixpoint readASCIIZ_loop (buf : list byte) (s : list byte) : result (string * list byte) :=
  match s with
  | [] => Err ErrInvalidASCIIZ
  | b :: s' =>
      if decide (b = x00) then Ok (string_of_list_byte buf, s')
      else readASCIIZ_loop (buf ++ [b]) s'
  end.

Definition readASCIIZ : Dec string := readASCIIZ_loop [].

Definition readMipMap : Dec MipMap :=
  dlet width := dwrap "read width" readU16 in
  dlet height := dwrap "read height" readU16 in
  dlet alwaysZero := dwrap "read always zero" readU16 in
  dlet paxFormat := dwrap "read mip pax format" readU8 in
  dlet alwaysThree := dwrap "read always three" readU8 in
  dlet dataOffset := dwrap "read data offset" readU32 in
  dret (mkMipMap width height alwaysZero paxFormat alwaysThree dataOffset).

(** [for i := uint32(0); i < n; i++ { x, err := item(); ...; append }]:
    [i] is the index of the next item, [k] the number of items still to read. *)
Fixpoint readLoop {A} (ctx : string) (item : Dec A) (i : Z) (k : nat) : Dec (list A) :=
  match k with
  | O => dret []
  | S k' =>
      dlet x := dwrapAt ctx i item in
      dlet xs := readLoop ctx item (i + 1) k' in
      dret (x :: xs)
  end.

Definition readTextureEntry : Dec TextureEntry :=
  dlet count := dwrap "read color palette count" readU32 in
  dlet palettePtr := dwrap "read palette ptr" readU32 in
  dlet f0 := dwrapAt "read average float color" 0 readF32 in
  dlet f1 := dwrapAt "read average float color" 1 readF32 in
  dlet f2 := dwrapAt "read average float color" 2 readF32 in
  dlet f3 := dwrapAt "read average float color" 3 readF32 in
  dlet averageColor := dwrap "read average color bytes" readByte4 in
  dlet maxColor := dwrap "read max color bytes" readByte4 in
  dlet clampFlags := dwrap "read clamp flags" readU32 in
  dlet transparentColor := dwrap "read transparent color" readU32 in
  dlet hasMaxCtagg := dwrap "read has_max_ctagg" readBool8 in
  dlet isAlpha := dwrap "read is_alpha" readBool8 in
  dlet isTransparent := dwrap "read is_transparent" readBool8 in
  dlet isAlphaNonOpaque := dwrap "read is_alpha_non_opaque" readBool8 in
  dlet mipCount := dwrap "read mip count" readU32 in
  dlet paxFormat := dwrap "read pax format" readU32 in
  dlet littleEndian := dwrap "read little_endian" readBool8 in
  dlet isPAA := dwrap "read is_paa" readBool8 in
  dlet paaFile := dwrap "read paa path" readASCIIZ in
  dlet paxSuffixType := dwrap "read pax suffix type" readU32 in
  dlet mipCountCopy := dwrap "read mip count copy" readU32 in
  dlet mips := readLoop "read mipmap" readMipMap 0 (Z.to_nat mipCountCopy) in
  dlet paxFileSize := dwrap "read pax file size" readU32 in
  dret {| PAAFile := paaFile; MipMaps := mips;
          ColorPaletteCount := count; PalettePtr := palettePtr;
          AverageColorF := (f0, f1, f2, f3);
          AverageColor := averageColor; MaxColor := maxColor;
          ClampFlags := clampFlags; TransparentColor := transparentColor;
          HasMaxCtagg := hasMaxCtagg; IsAlpha := isAlpha;
          IsTransparent := isTransparent; IsAlphaNonOpaque := isAlphaNonOpaque;
          MipMapCount := mipCount; PaxFormat := paxFormat;
          LittleEndian := littleEndian; IsPAA := isPAA;
          PaxSuffixType := paxSuffixType;
          MipMapCountCopy := mipCountCopy; PaxFileSize := paxFileSize |}.

Definition Read : Dec File :=
  dlet b := dwrap "read magic" (readFull 4) in
  let magic := string_of_list_byte b in
  if decide (magic ≠ FileMagic) then dfail (WithStr ErrInvalidMagic magic)
  else
    dlet version := dwrap "read version" readU32 in
    if decide (version ≠ SupportedVersion) then dfail (WithInt ErrUnsupportedVersion version)
    else
      dlet textureCount := dwrap "read texture count" readU32 in
      dlet textures := readLoop "read texture entry" readTextureEntry 0 (Z.to_nat textureCount) in
      dret {| Magic := magic; Version := version; Textures := textures |}.

(** ** Encoder (write.go) *)

(** [intToU32Strict] (build.go): a checked narrowing of an [int]. *)
Definition intToU32Strict (v : Z) : result Z :=
  if (v <? 0) || (MaxUint32 <? v) then Err (ErrOutOfU32 v)
  else Ok (v `mod` 4294967296).

(** An encoding step maps the bytes already in the stream to the error it
    returns (if any) and the bytes in the stream afterwards. *)
Definition Enc : Type := list byte → option error * list byte.

(** [e.w.Write(p)] on the buffer. *)
Definition wbytes (p : list byte) : Enc := λ w, (None, w ++ p).
Definition efail (e : error) : Enc := λ w, (Some e, w).
Definition eskip : Enc := λ w, (None, w).
Definition eseq (a b : Enc) : Enc :=
  λ w, match a w with
       | (None, w') => b w'
       | (Some e, w') => (Some e, w')
       end.
(** [if err := step; err != nil { return fmt.Errorf("ctx: %w", err) }] *)
Definition ewrap (ctx : string) (a : Enc) : Enc :=
  λ w, match a w with
       | (None, w') => (None, w')
       | (Some e, w') => (Some (Wrap ctx e), w')
       end.
Definition ewrapAt (ctx : string) (i : Z) (a : Enc) : Enc :=
  λ w, match a w with
       | (None, w') => (None, w')
       | (Some e, w') => (Some (WrapAt ctx i e), w')
       end.
(** A block of steps, each returning early on its error. *)
Definition esteps (l : list Enc) : Enc := foldr eseq eskip l.

Definition writeU8 (v : Z) : Enc := wbytes [toByte v].
Definition writeBool8 (v : bool) : Enc := if v then writeU8 1 else writeU8 0.
Definition writeU16 (v : Z) : Enc := wbytes (PutUint16 v).
Definition writeU32 (v : Z) : Enc := wbytes (PutUint32 v).
(** [math.Float32bits] is the identity on the bit pattern. *)
Definition writeF32 (v : Z) : Enc := writeU32 v.

Definition writeByte4 (c : byte4) : Enc :=
  let '(c0, c1, c2, c3) := c in wbytes [c0; c1; c2; c3].

Definition writeASCIIZ (s : string) : Enc :=
  esteps [wbytes (list_byte_of_string s); writeU8 0].

Definition writeU32FromInt (v : Z) : Enc :=
  match intToU32Strict v with
  | Err _ => efail (WithInt ErrTooManyTextures v)
  | Ok u32 => writeU32 u32
  end.

Definition writeMipMap (m : MipMap) : Enc :=
  esteps [ ewrap "write width" (writeU16 (Width m));
           ewrap "write height" (writeU16 (Height m));
           ewrap "write always zero" (writeU16 (AlwaysZero m));
           ewrap "write mip pax format" (writeU8 (MipPaxFormat m));
           ewrap "write always three" (writeU8 (AlwaysThree m));
           ewrap "write data offset" (writeU32 (DataOffset m)) ].

(** [for i := range xs { if err := item(&xs[i]); err != nil { return wrap } }] *)
Fixpoint writeLoop {A} (ctx : string) (item : A → Enc) (i : Z) (xs : list A) : Enc :=
  match xs with
  | [] => eskip
  | x :: xs' => eseq (ewrapAt ctx i (item x)) (writeLoop ctx item (i + 1) xs')
  end.

Definition writeTextureEntry (entry : TextureEntry) : Enc :=
  let '(f0, f1, f2, f3) := AverageColorF entry in
  esteps [ ewrap "write color palette count" (writeU32 (ColorPaletteCount entry));
           ewrap "write palette ptr" (writeU32 (PalettePtr entry));
           ewrapAt "write average float color" 0 (writeF32 f0);
           ewrapAt "write average float color" 1 (writeF32 f1);
           ewrapAt "write average float color" 2 (writeF32 f2);
           ewrapAt "write average float color" 3 (writeF32 f3);
           ewrap "write average color bytes" (writeByte4 (AverageColor entry));
           ewrap "write max color bytes" (writeByte4 (MaxColor entry));
           ewrap "write clamp flags" (writeU32 (ClampFlags entry));
           ewrap "write transparent color" (writeU32 (TransparentColor entry));
           ewrap "write has_max_ctagg" (writeBool8 (HasMaxCtagg entry));
           ewrap "write is_alpha" (writeBool8 (IsAlpha entry));
           ewrap "write is_transparent" (writeBool8 (IsTransparent entry));
           ewrap "write is_alpha_non_opaque" (writeBool8 (IsAlphaNonOpaque entry));
           ewrap "write mip count" (writeU32 (MipMapCount entry));
           ewrap "write pax format" (writeU32 (PaxFormat entry));
           ewrap "write little_endian" (writeBool8 (LittleEndian entry));
           ewrap "write is_paa" (writeBool8 (IsPAA entry));
           ewrap "write paa path" (writeASCIIZ (PAAFile entry));
           ewrap "write pax suffix type" (writeU32 (PaxSuffixType entry));
           ewrap "write mip count copy" (writeU32 (MipMapCountCopy entry));
           writeLoop "write mipmap" writeMipMap 0 (MipMaps entry);
           ewrap "write pax file size" (writeU32 (PaxFileSize entry)) ].

Definition Write (f : option File) : Enc :=
  match f with
  | None => efail ErrNilFile
  | Some f =>
      let magic := if decide (Magic f = "") then FileMagic else Magic f in
      if decide (String.length magic ≠ 4%nat) then efail (WithStr ErrInvalidMagic magic)
      else
        eseq (ewrap "write magic" (wbytes (list_byte_of_string magic)))
          (let version := if Version f =? 0 then SupportedVersion else Version f in
           if decide (version ≠ SupportedVersion)
           then efail (WithInt ErrUnsupportedVersion version)
           else
             esteps [ ewrap "write version" (writeU32 version);
                      ewrap "write texture count"
                            (writeU32FromInt (Z.of_nat (length (Textures f))));
                      writeLoop "write texture entry" writeTextureEntry 0 (Textures f) ])
  end.

(** ** Validator (validate.go) *)

(** One reported violation: the data of each [fmt.Errorf("%w: ...", ErrValidation, ...)]
    message.  [entry] and [mip] are the indices printed in the message. *)
Inductive issue :=
  | IssueNilFile
  | IssueNilEntry (entry : Z)
  | IssueMagic (magic : string)
  | IssueVersion (version : Z)
  | IssueTextureCount (n : Z)
  | IssuePathEmpty (entry : Z)
  | IssuePaxFormatRange (entry : Z) (format : Z)
  | IssueMipLenRange (entry : Z) (len : Z)
  | IssueMipCountLen (entry : Z) (count mipLen : Z)
  | IssueMipCountCopyLen (entry : Z) (copy mipLen : Z)
  | IssueMipCountCopy (entry : Z) (count copy : Z)
  | IssueZeroDim (entry mip : Z) (width height : Z)
  | IssueAlwaysZero (entry mip : Z) (v : Z)
  | IssueAlwaysThree (entry mip : Z) (v : Z)
  | IssueMipFormat (entry mip : Z) (mipFormat entryFormat : Z)
  | IssueOffset (entry mip : Z) (offset prev : Z).

(** A validation error: one violation, or the aggregate built by
    [errors.Join]. *)
#[warnings="-register-all"]
Inductive verror :=
  | VIssue (i : issue)
  | VJoin (l : list verror).

(** [if cond { issues = append(issues, e) }] *)
Definition when (cond : bool) (e : verror) : list verror :=
  if cond then [e] else [].

(** [if len(issues) == 0 { return nil }; return errors.Join(issues...)] *)
Definition joinIssues (issues : list verror) : option verror :=
  match issues with
  | [] => None
  | _ :: _ => Some (VJoin issues)
  end.

(** The loop over [entry.MipMaps]; [i] is the index of the head of [mips],
    [prevOffset] the loop variable of the same name. *)
Fixpoint validateMips (entryIndex entryFormat : Z) (i prevOffset : Z)
    (mips : list MipMap) : list verror :=
  match mips with
  | [] => []
  | m :: rest =>
      when ((Width m =? 0) || (Height m =? 0))
           (VIssue (IssueZeroDim entryIndex i (Width m) (Height m))) ++
      when (negb (AlwaysZero m =? 0))
           (VIssue (IssueAlwaysZero entryIndex i (AlwaysZero m))) ++
      when (negb (AlwaysThree m =? 3))
           (VIssue (IssueAlwaysThree entryIndex i (AlwaysThree m))) ++
      when ((entryFormat <=? MaxUint8) && negb (MipPaxFormat m =? entryFormat))
           (VIssue (IssueMipFormat entryIndex i (MipPaxFormat m) entryFormat)) ++
      when ((0 <? i) && (DataOffset m <? prevOffset))
           (VIssue (IssueOffset entryIndex i (DataOffset m) prevOffset)) ++
      validateMips entryIndex entryFormat (i + 1) (DataOffset m) rest
  end.

Definition entryIssues (entry : TextureEntry) (entryIndex : Z) : list verror :=
  let len := Z.of_nat (length (MipMaps entry)) in
  let conv := intToU32Strict len in
  let mipLen := match conv with Ok v => v | Err _ => 0 end in
  when (bool_decide (PAAFile entry = "")) (VIssue (IssuePathEmpty entryIndex)) ++
  when (MaxUint8 <? PaxFormat entry)
       (VIssue (IssuePaxFormatRange entryIndex (PaxFormat entry))) ++
  when (match conv with Ok _ => false | Err _ => true end)
       (VIssue (IssueMipLenRange entryIndex len)) ++
  when (negb (MipMapCount entry =? mipLen))
       (VIssue (IssueMipCountLen entryIndex (MipMapCount entry) mipLen)) ++
  when (negb (MipMapCountCopy entry =? mipLen))
       (VIssue (IssueMipCountCopyLen entryIndex (MipMapCountCopy entry) mipLen)) ++
  when (negb (MipMapCount entry =? MipMapCountCopy entry))
       (VIssue (IssueMipCountCopy entryIndex (MipMapCount entry) (MipMapCountCopy entry))) ++
  validateMips entryIndex (PaxFormat entry) 0 0 (MipMaps entry).

Definition ValidateEntry (entry : option TextureEntry) (entryIndex : Z) : option verror :=
  match entry with
  | None => Some (VIssue (IssueNilEntry entryIndex))
  | Some entry => joinIssues (entryIssues entry entryIndex)
  end.

(** The loop over [f.Textures]: one (aggregate) error per failing entry. *)
Fixpoint validateEntries (i : Z) (textures : list TextureEntry) : list verror :=
  match textures with
  | [] => []
  | entry :: rest =>
      match ValidateEntry (Some entry) i with
      | Some err => [err]
      | None => []
      end ++ validateEntries (i + 1) rest
  end.

Definition fileIssues (f : File) : list verror :=
  when (negb (bool_decide (Magic f = "")) && negb (bool_decide (Magic f = FileMagic)))
       (VIssue (IssueMagic (Magic f))) ++
  when (negb (Version f =? 0) && negb (Version f =? SupportedVersion))
       (VIssue (IssueVersion (Version f))) ++
  when (MaxUint32 <? Z.of_nat (length (Textures f)))
       (VIssue (IssueTextureCount (Z.of_nat (length (Textures f))))) ++
  validateEntries 0 (Textures f).

Definition ValidateFile (f : option File) : option verror :=
  match f with
  | None => Some (VIssue IssueNilFile)
  | Some f => joinIssues (fileIssues f)
  end.

(** ** The host: Go library and operating-system functions the package calls

    These are not part of the repository.  The development is parametric in
    them; each field names the call it stands for. *)
Class Host := {
  ToLower : string → string;                 (* strings.ToLower *)
  TrimSpace : string → string;               (* strings.TrimSpace *)
  EqualFold : string → string → bool;        (* strings.EqualFold *)
  Ext : string → string;                     (* filepath.Ext *)
  Clean : string → string;                   (* filepath.Clean *)
  Rel : string → string → result string;     (* filepath.Rel *)
  IsAbs : string → bool;                     (* filepath.IsAbs *)
  Getwd : result string;                     (* os.Getwd *)
  GOMAXPROCS : Z;                            (* runtime.GOMAXPROCS(0) *)
  float32Div255 : byte → Z                   (* float32(c) / 255.0, as bits *)
}.

(** ** Suffix classifier (suffix.go) *)

Definition SuffixDiffuseSRGB : Z := 0.
Definition SuffixDiffuseLinear : Z := 1.
Definition SuffixDetailLinear : Z := 2.
Definition SuffixNormalMap : Z := 3.
Definition SuffixIrradianceMap : Z := 4.
Definition SuffixRandom05To1 : Z := 5.
Definition SuffixTreeCrownCalc : Z := 6.
Definition SuffixMacroObjectSRGB : Z := 7.
Definition SuffixAmbientShadow : Z := 8.
Definition SuffixSpecularAmount : Z := 9.
Definition SuffixDitherTexture : Z := 10.
Definition SuffixDetailSpecularAmount : Z := 11.
Definition SuffixMultiShaderMask : Z := 12.
Definition SuffixThermalImageTextureCA : Z := 13.

Record suffixGuessRule := mkRule { token : string; value : Z }.

Definition suffixGuessRules : list suffixGuessRule :=
  [ mkRule "_nohq_alpha" SuffixDiffuseSRGB;
    mkRule "_dtsmdi" SuffixDetailSpecularAmount;
    mkRule "_ti_ca" SuffixThermalImageTextureCA;
    mkRule "_smdi" SuffixSpecularAmount;
    mkRule "_detail" SuffixDetailLinear;
    mkRule "_normalmap" SuffixNormalMap;
    mkRule "_nohq" SuffixNormalMap;
    mkRule "_novhq" SuffixNormalMap;
    mkRule "_nofhq" SuffixNormalMap;
    mkRule "_nofex" SuffixNormalMap;
    mkRule "_noex" SuffixNormalMap;
    mkRule "_nsex" SuffixNormalMap;
    mkRule "_nshq" SuffixNormalMap;
    mkRule "_nopx" SuffixNormalMap;
    mkRule "_non" SuffixNormalMap;
    mkRule "_nof" SuffixNormalMap;
    mkRule "_nse" SuffixNormalMap;
    mkRule "_ns" SuffixNormalMap;
    mkRule "_no" SuffixNormalMap;
    mkRule "_mask" SuffixMultiShaderMask;
    mkRule "_sky" SuffixDiffuseLinear;
    mkRule "_lco" SuffixDiffuseLinear;
    mkRule "_dxt5" SuffixDiffuseLinear;
    mkRule "_mco" SuffixDetailLinear;
    mkRule "_cdt" SuffixDetailLinear;
    mkRule "_dt" SuffixDetailLinear;
    mkRule "_mc" SuffixMacroObjectSRGB;
    mkRule "_as" SuffixAmbientShadow;
    mkRule "_sm" SuffixSpecularAmount;
    mkRule "_ca" SuffixDiffuseSRGB;
    mkRule "_co" SuffixDiffuseSRGB ].

(** Go string operations used by the classifier and the path normalizer,
    on byte strings.  Indices are naturals; [None] is the result [-1]. *)

(** [strings.HasPrefix(s, p)] *)
Fixpoint HasPrefix (s p : string) {struct p} : bool :=
  match p, s with
  | EmptyString, _ => true
  | String _ _, EmptyString => false
  | String c p', String d s' => bool_decide (c = d) && HasPrefix s' p'
  end.

(** [s[n:]] and [s[:n]] *)
Fixpoint sliceFrom (n : nat) (s : string) : string :=
  match n, s with
  | O, _ => s
  | S _, EmptyString => EmptyString
  | S n', String _ s' => sliceFrom n' s'
  end.

Fixpoint sliceTo (n : nat) (s : string) : string :=
  match n, s with
  | O, _ => EmptyString
  | S _, EmptyString => EmptyString
  | S n', String c s' => String c (sliceTo n' s')
  end.

(** [strings.Index(s, sub)]: the first position where [sub] occurs. *)
Fixpoint Index (s sub : string) : option nat :=
  if HasPrefix s sub then Some O
  else match s with
       | EmptyString => None
       | String _ s' => S <$> Index s' sub
       end.

(** [strings.LastIndexByte(s, c)] *)
Fixpoint LastIndexByte (s : string) (c : ascii) : option nat :=
  match s with
  | EmptyString => None
  | String d s' =>
      match LastIndexByte s' c with
      | Some i => Some (S i)
      | None => if bool_decide (d = c) then Some O else None
      end
  end.

(** [strings.TrimPrefix(s, p)] *)
Definition TrimPrefix (s p : string) : string :=
  if HasPrefix s p then sliceFrom (String.length p) s else s.

(** [strings.ReplaceAll(s, old, new)] for one-byte [old] and [new]. *)
Fixpoint ReplaceAllByte (s : string) (old new : ascii) : string :=
  match s with
  | EmptyString => EmptyString
  | String c s' =>
      String (if bool_decide (c = old) then new else c) (ReplaceAllByte s' old new)
  end.

(** The path separators: slash (47) and backslash (92). *)
Definition slash : ascii := Eval cbv in ascii_of_nat 47.
Definition backslash : ascii := Eval cbv in ascii_of_nat 92.

Definition isSeparator (ch : ascii) : bool :=
  bool_decide (ch = "_"%char) || bool_decide (ch = "-"%char) || bool_decide (ch = "."%char).

(** The [for] loop of [containsTokenBoundary]; [from] is its loop variable.
    Every iteration that does not return moves [from] forward and keeps it
    below [len(s)], so [S (length s)] iterations are always enough. *)
Fixpoint containsTokenBoundary_loop (fuel : nat) (s token : string) (from : nat) : option bool :=
  match fuel with
  | O => None
  | S fuel' =>
      match Index (sliceFrom from s) token with
      | None => Some false
      | Some idx =>
          let pos := (from + idx)%nat in
          let next := (pos + String.length token)%nat in
          if decide (String.length s ≤ next)%nat then Some true
          else
            match String.get next s with
            | Some ch =>
                if isSeparator ch then Some true
                else containsTokenBoundary_loop fuel' s token (pos + 1)%nat
            | None => None          (* index out of range: unreachable *)
            end
      end
  end.

Definition containsTokenBoundary (s token : string) : bool :=
  match containsTokenBoundary_loop (S (String.length s)) s token 0 with
  | Some r => r
  | None => false                     (* never taken: the loop has returned *)
  end.

(** The loop over the rule table: the first rule that matches wins. *)
Fixpoint guessRules (s : string) (rules : list suffixGuessRule) : Z * bool :=
  match rules with
  | [] => (SuffixDiffuseSRGB, false)
  | rule :: rest =>
      if containsTokenBoundary s (token rule) then (value rule, true)
      else guessRules s rest
  end.

(** The extension-stripping prelude of [GuessSuffixTypeFromPath]. *)
Definition stripExt (s : string) : string :=
  match LastIndexByte s "."%char with
  | Some dot => if decide (0 < dot)%nat then sliceTo dot s else s
  | None => s
  end.

Definition GuessSuffixTypeFromPath `{Host} (path : string) : Z * bool :=
  guessRules (stripExt (ToLower path)) suffixGuessRules.

(** ** Builder (build.go) *)

Definition WorkersAuto : Z := -1.

Record BuildOptions := mkBuildOptions {
  SuffixOverrides : option (gmap string Z);   (* a nil map is [None] *)
  BaseDir : string;
  SkipInvalid : bool;
  LowercasePaths : bool;
  BackslashPaths : bool;
  Workers : Z
}.

Record BuildIssue := mkBuildIssue {
  Path : string;
  Error : error            (* the error whose [Error()] text is stored *)
}.

Record Builder := mkBuilder {
  inputs : list string;
  issues : list BuildIssue;
  opts : BuildOptions;
  inputsSorted : bool
}.

(** What the paa package reports about one source file
    ([paa.MetadataHeaders], [paa.MipHeader]) and its [paa.PaxType] constants. *)
Record MipHeader := mkMipHeader {
  MipWidth : Z;
  MipHeight : Z;
  MipOffset : Z
}.

Record MetadataHeaders := mkMetadataHeaders {
  Type_ : Z;                      (* field Type, a paa.PaxType *)
  HasAverageColor : bool;
  MetaAverageColor : byte4;
  HasMaxColor : bool;
  MetaMaxColor : byte4;
  HasGALF : bool;
  GALF : Z;
  MipHeaders : list MipHeader
}.

(** The paa package and the source files on disk: the [paa.PaxType]
    constants, and what opening, sizing and scanning the file at a path
    gives.  The file system does not change while a build runs, so each is a
    function of the path. *)
Class Paa := {
  PaxGRAYA : Z; PaxARGBA5 : Z; PaxARGB4 : Z; PaxARGB8 : Z; PaxDXT1 : Z;
  PaxDXT2 : Z; PaxDXT3 : Z; PaxDXT4 : Z; PaxDXT5 : Z;
  osOpen : string → option error;                        (* os.Open *)
  statSize : string → result Z;                          (* fh.Stat(), info.Size() *)
  DecodeMetadataHeaders : string → result MetadataHeaders (* on the opened file *)
}.

Definition NewBuilder (opts : BuildOptions) : Builder :=
  let opts :=
    if negb (LowercasePaths opts)
    then mkBuildOptions (SuffixOverrides opts) (BaseDir opts) (SkipInvalid opts)
                        true (BackslashPaths opts) (Workers opts)
    else opts in
  let opts :=
    if negb (BackslashPaths opts)
    then mkBuildOptions (SuffixOverrides opts) (BaseDir opts) (SkipInvalid opts)
                        (LowercasePaths opts) true (Workers opts)
    else opts in
  {| opts := opts; inputs := []; inputsSorted := true; issues := [] |}.

(** Go's [a > b] on strings: byte-wise lexicographic order. *)
Definition strGt (a b : string) : bool := negb (String.leb a b).

Definition Append `{Host} (b : Builder) (path : string) : Builder * option error :=
  if decide (TrimSpace path = "") then (b, Some ErrEmptyInputPath)
  else
    let sorted :=
      if inputsSorted b &&
         match last (inputs b) with
         | Some l => strGt l path
         | None => false                 (* len(b.inputs) == 0 *)
         end
      then false else inputsSorted b in
    ({| inputs := inputs b ++ [path]; issues := issues b; opts := opts b;
        inputsSorted := sorted |}, None).

Fixpoint AppendMany `{Host} (b : Builder) (paths : list string) : Builder * option error :=
  match paths with
  | [] => (b, None)
  | path :: rest =>
      match Append b path with
      | (b', None) => AppendMany b' rest
      | (b', Some err) => (b', Some err)
      end
  end.

Definition Inputs (b : Builder) : list string := inputs b.
Definition Issues (b : Builder) : list BuildIssue := issues b.

(** [sort.Strings]: the sorted rearrangement of the slice.  The order is
    total and antisymmetric on strings, so that rearrangement is unique and
    any sorting algorithm computes it; merge sort stands for it here. *)
Definition sortStrings (l : list string) : list string := merge_sort String.le l.

Definition int64ToU32Strict (v : Z) : result Z :=
  if (v <? 0) || (MaxUint32 <? v) then Err (ErrOutOfU32 v)
  else Ok (v `mod` 4294967296).

Definition paxTypeToU8 `{Paa} (t : Z) : result Z :=
  if decide (t = PaxGRAYA) then Ok 1
  else if decide (t = PaxARGBA5) then Ok 3
  else if decide (t = PaxARGB4) then Ok 4
  else if decide (t = PaxARGB8) then Ok 5
  else if decide (t = PaxDXT1) then Ok 6
  else if decide (t = PaxDXT2) then Ok 7
  else if decide (t = PaxDXT3) then Ok 8
  else if decide (t = PaxDXT4) then Ok 9
  else if decide (t = PaxDXT5) then Ok 10
  else Err (ErrUnsupportedPax t).

Definition normalizePath `{Host} (b : Builder) (in_ : string) : string :=
  let cleanIn := Clean in_ in
  let baseDir := TrimSpace (BaseDir (opts b)) in
  let rel :=
    if decide (baseDir ≠ "") then
      match Rel baseDir cleanIn with
      | Ok r => r
      | Err _ => cleanIn
      end
    else if IsAbs cleanIn then
      match Getwd with
      | Ok cwd => match Rel cwd cleanIn with
                  | Ok r => r
                  | Err _ => cleanIn
                  end
      | Err _ => cleanIn
      end
    else cleanIn in
  let rel := if BackslashPaths (opts b) then ReplaceAllByte rel slash backslash else rel in
  let rel := TrimPrefix rel (String "."%char (String backslash EmptyString)) in
  let rel := if LowercasePaths (opts b) then ToLower rel else rel in
  rel.

Definition resolveSuffixType `{Host} (b : Builder) (rel : string) : Z :=
  let key := if LowercasePaths (opts b) then ToLower rel else rel in
  match match SuffixOverrides (opts b) with
        | Some m => m !! key
        | None => None
        end with
  | Some v => v
  | None => fst (GuessSuffixTypeFromPath rel)
  end.

(** [assignColorHeaders], [assignFlagHeaders] and [assignMipmaps] update the
    entry under construction in place; here each returns the updated entry. *)
Definition assignColorHeaders `{Host} (entry : TextureEntry) (meta : MetadataHeaders)
    : TextureEntry :=
  let averageColor :=
    if HasAverageColor meta then MetaAverageColor meta else AverageColor entry in
  let maxColor := if HasMaxColor meta then MetaMaxColor meta else (xff, xff, xff, xff) in
  let hasMaxCtagg := if HasMaxColor meta then true else false in
  let '(c0, c1, c2, c3) := averageColor in
  {| PAAFile := PAAFile entry; MipMaps := MipMaps entry;
     ColorPaletteCount := ColorPaletteCount entry; PalettePtr := PalettePtr entry;
     AverageColorF := (float32Div255 c2, float32Div255 c1, float32Div255 c0, float32Div255 c3);
     AverageColor := averageColor; MaxColor := maxColor;
     ClampFlags := ClampFlags entry; TransparentColor := TransparentColor entry;
     HasMaxCtagg := hasMaxCtagg; IsAlpha := IsAlpha entry;
     IsTransparent := IsTransparent entry; IsAlphaNonOpaque := IsAlphaNonOpaque entry;
     MipMapCount := MipMapCount entry; PaxFormat := PaxFormat entry;
     LittleEndian := LittleEndian entry; IsPAA := IsPAA entry;
     PaxSuffixType := PaxSuffixType entry;
     MipMapCountCopy := MipMapCountCopy entry; PaxFileSize := PaxFileSize entry |}.

Definition assignFlagHeaders (entry : TextureEntry) (meta : MetadataHeaders)
    : TextureEntry :=
  let flags := GALF meta in
  let isAlpha := if HasGALF meta then negb (Z.land flags 1 =? 0) else false in
  let isTransparent := if HasGALF meta then negb (Z.land flags 2 =? 0) else false in
  let isAlphaNonOpaque :=
    if HasGALF meta
    then isAlpha && (byteZ (AverageColor entry).2 <? 128)
    else false in
  {| PAAFile := PAAFile entry; MipMaps := MipMaps entry;
     ColorPaletteCount := ColorPaletteCount entry; PalettePtr := PalettePtr entry;
     AverageColorF := AverageColorF entry;
     AverageColor := AverageColor entry; MaxColor := MaxColor entry;
     ClampFlags := ClampFlags entry; TransparentColor := TransparentColor entry;
     HasMaxCtagg := HasMaxCtagg entry; IsAlpha := isAlpha;
     IsTransparent := isTransparent; IsAlphaNonOpaque := isAlphaNonOpaque;
     MipMapCount := MipMapCount entry; PaxFormat := PaxFormat entry;
     LittleEndian := LittleEndian entry; IsPAA := IsPAA entry;
     PaxSuffixType := PaxSuffixType entry;
     MipMapCountCopy := MipMapCountCopy entry; PaxFileSize := PaxFileSize entry |}.

Definition assignMipmaps (entry : TextureEntry) (mips : list MipHeader) (paxFormat : Z)
    : result TextureEntry :=
  let mipMaps :=
    (λ mip, mkMipMap (MipWidth mip) (MipHeight mip) 0 paxFormat 3 (MipOffset mip)) <$> mips in
  match intToU32Strict (Z.of_nat (length mipMaps)) with
  | Err err => Err err
  | Ok mipCount =>
      Ok {| PAAFile := PAAFile entry; MipMaps := mipMaps;
            ColorPaletteCount := ColorPaletteCount entry; PalettePtr := PalettePtr entry;
            AverageColorF := AverageColorF entry;
            AverageColor := AverageColor entry; MaxColor := MaxColor entry;
            ClampFlags := ClampFlags entry; TransparentColor := TransparentColor entry;
            HasMaxCtagg := HasMaxCtagg entry; IsAlpha := IsAlpha entry;
            IsTransparent := IsTransparent entry;
            IsAlphaNonOpaque := IsAlphaNonOpaque entry;
            MipMapCount := mipCount; PaxFormat := PaxFormat entry;
            LittleEndian := LittleEndian entry; IsPAA := IsPAA entry;
            PaxSuffixType := PaxSuffixType entry;
            MipMapCountCopy := mipCount; PaxFileSize := PaxFileSize entry |}
  end.

Definition buildEntry `{Host} `{Paa} (b : Builder) (path : string) : result TextureEntry :=
  let ext := ToLower (Ext path) in
  if decide (ext = ".pac") then Err (WithStr ErrPACUnsupported path)
  else if decide (ext ≠ ".paa") then Err (WithStr ErrUnsupportedInputFormat path)
  else
    match osOpen path with
    | Some err => Err (Wrap "open source" err)
    | None =>
        match statSize path with
        | Err err => Err (Wrap "stat source" err)
        | Ok size =>
            match DecodeMetadataHeaders path with
            | Err err => Err (Wrap "scan paa metadata" err)
            | Ok meta =>
                match paxTypeToU8 (Type_ meta) with
                | Err err => Err err
                | Ok paxFormat =>
                    let rel := normalizePath b path in
                    match int64ToU32Strict size with
                    | Err err => Err err
                    | Ok paxFileSize =>
                        let entry :=
                          {| PAAFile := rel; MipMaps := [];
                             ColorPaletteCount := 1; PalettePtr := 0;
                             AverageColorF := (0, 0, 0, 0);
                             AverageColor := zeroByte4; MaxColor := zeroByte4;
                             ClampFlags := 0; TransparentColor := 4294967295;
                             HasMaxCtagg := false; IsAlpha := false;
                             IsTransparent := false; IsAlphaNonOpaque := false;
                             MipMapCount := 0;
                             PaxFormat := Type_ meta `mod` 4294967296;
                             LittleEndian := true; IsPAA := EqualFold ext ".paa";
                             PaxSuffixType := resolveSuffixType b rel;
                             MipMapCountCopy := 0; PaxFileSize := paxFileSize |} in
                        let entry := assignColorHeaders entry meta in
                        let entry := assignFlagHeaders entry meta in
                        assignMipmaps entry (MipHeaders meta) paxFormat
                    end
                end
            end
        end
    end.

(** *** Worker-count resolution.  [int] is 64 bits wide. *)

Definition wrapInt (x : Z) : Z := (x + 2 ^ 63) `mod` 2 ^ 64 - 2 ^ 63.

(** The loop [for p<<1 <= v { p <<= 1 }].  From [p = 1] the loop leaves
    within 62 iterations or never; [None] stands for a loop that does not
    leave. *)
Fixpoint floorPow2_loop (fuel : nat) (p v : Z) : option Z :=
  match fuel with
  | O => None
  | S fuel' =>
      if wrapInt (Z.shiftl p 1) <=? v
      then floorPow2_loop fuel' (wrapInt (Z.shiftl p 1)) v
      else Some p
  end.

Definition floorPow2 (v : Z) : option Z :=
  if v <=? 1 then Some 1 else floorPow2_loop 64 1 v.

Definition autoBuildWorkers `{Host} (fileCount : Z) : option Z :=
  let workers := Z.quot GOMAXPROCS 4 in
  let workers := Z.max workers 2 in
  let workers := Z.min workers fileCount in
  floorPow2 workers.

Definition resolveBuildWorkers `{Host} (requested fileCount : Z) : option Z :=
  if fileCount <=? 1 then Some 1
  else if decide (requested = WorkersAuto) then autoBuildWorkers fileCount
  else if requested <=? 1 then Some 1
  else Some (Z.min requested fileCount).

(** *** Build *)

#[global] Instance TextureEntry_inhabited : Inhabited TextureEntry := populate zeroEntry.

Definition newFile (textures : list TextureEntry) : File :=
  {| Magic := FileMagic; Version := SupportedVersion; Textures := textures |}.

(** The prologue of [Build]: sort unless known sorted, reset the issues. *)
Definition prepare (b : Builder) : Builder :=
  {| inputs := if negb (inputsSorted b) then sortStrings (inputs b) else inputs b;
     issues := [];
     opts := opts b;
     inputsSorted := true |}.

Definition withIssues (b : Builder) (iss : list BuildIssue) : Builder :=
  {| inputs := inputs b; issues := iss; opts := opts b; inputsSorted := inputsSorted b |}.

(** The serial loop [for _, in := range b.inputs]; [textures] is
    [file.Textures] and [iss] is [b.issues] on entry to the iteration. *)
Fixpoint buildSerial `{Host} `{Paa} (b : Builder) (ins : list string)
    (textures : list TextureEntry) (iss : list BuildIssue)
    : list BuildIssue * result File :=
  match ins with
  | [] => (iss, Ok (newFile textures))
  | in_ :: rest =>
      match buildEntry b in_ with
      | Err err =>
          if SkipInvalid (opts b)
          then buildSerial b rest textures (iss ++ [mkBuildIssue in_ err])
          else (iss, Err (WrapPath "build" in_ err))
      | Ok entry => buildSerial b rest (textures ++ [entry]) iss
      end
  end.

(** The collection loop [for i, in := range b.inputs] over the result slots;
    [i] is the index of the head of [ins]. *)
Fixpoint collect (skipInvalid : bool) (entries : list TextureEntry)
    (errs : list (option error)) (i : nat) (ins : list string)
    (textures : list TextureEntry) (iss : list BuildIssue)
    : list BuildIssue * result File :=
  match ins with
  | [] => (iss, Ok (newFile textures))
  | in_ :: rest =>
      match errs !!! i with
      | None => collect skipInvalid entries errs (S i) rest (textures ++ [entries !!! i]) iss
      | Some err =>
          if skipInvalid
          then collect skipInvalid entries errs (S i) rest textures
                       (iss ++ [mkBuildIssue in_ err])
          else (iss, Err (WrapPath "build" in_ err))
      end
  end.

(** The worker pool.  The dispatching goroutine sends the indices
    [0 .. n-1] on the buffered channel [jobs] and closes it; each worker
    receives an index, builds that entry and stores the outcome in slot [i]
    of [entries] or [errs], and leaves when the channel is closed and empty.
    A state records what has happened so far; a step is one action of the
    dispatcher or of one worker, so the runs of [pool_step] are the
    interleavings of the goroutines. *)
Inductive worker :=
  | Idle                  (* about to receive from [jobs] *)
  | Busy (i : nat)        (* has received index [i] *)
  | Exited.               (* has called [wg.Done] *)

#[global] Instance worker_eq_decision : EqDecision worker.
Proof. solve_decision. Defined.

Record pool := mkPool {
  sent : nat;                       (* number of indices sent so far *)
  closed : bool;                    (* [close(jobs)] has happened *)
  jobs : list nat;                  (* contents of the channel, oldest first *)
  workers_ : list worker;
  entries : list TextureEntry;
  errs : list (option error)
}.

Definition pool_init (n workers : nat) : pool :=
  {| sent := 0; closed := false; jobs := [];
     workers_ := replicate workers Idle;
     entries := replicate n zeroEntry;
     errs := replicate n None |}.

Inductive pool_step `{Host} `{Paa} (b : Builder) : pool → pool → Prop :=
  | step_send p :
      (sent p < length (inputs b))%nat →
      closed p = false →
      pool_step b p (mkPool (S (sent p)) false (jobs p ++ [sent p])
                            (workers_ p) (entries p) (errs p))
  | step_close p :
      sent p = length (inputs b) →
      closed p = false →
      pool_step b p (mkPool (sent p) true (jobs p) (workers_ p) (entries p) (errs p))
  | step_receive p w i q :
      workers_ p !! w = Some Idle →
      jobs p = i :: q →
      pool_step b p (mkPool (sent p) (closed p) q (<[w := Busy i]> (workers_ p))
                            (entries p) (errs p))
  | step_built p w i entry :
      workers_ p !! w = Some (Busy i) →
      buildEntry b (inputs b !!! i) = Ok entry →
      pool_step b p (mkPool (sent p) (closed p) (jobs p) (<[w := Idle]> (workers_ p))
                            (<[i := entry]> (entries p)) (errs p))
  | step_failed p w i err :
      workers_ p !! w = Some (Busy i) →
      buildEntry b (inputs b !!! i) = Err err →
      pool_step b p (mkPool (sent p) (closed p) (jobs p) (<[w := Idle]> (workers_ p))
                            (entries p) (<[i := Some err]> (errs p)))
  | step_exit p w :
      workers_ p !! w = Some Idle →
      jobs p = [] →
      closed p = true →
      pool_step b p (mkPool (sent p) true [] (<[w := Exited]> (workers_ p))
                            (entries p) (errs p)).

(** [wg.Wait()] has returned: the channel is closed and every worker is gone. *)
Definition pool_done (p : pool) : Prop :=
  closed p = true ∧ Forall (λ w, w = Exited) (workers_ p).

(** [Build b (b', r)]: a call of [Build] on builder state [b] can leave the
    builder in state [b'] and return [r]. *)
Inductive Build `{Host} `{Paa} (b : Builder) : Builder * result File → Prop :=
  | Build_empty :
      inputs (prepare b) = [] →
      Build b (prepare b, Ok (newFile []))
  | Build_serial workers :
      inputs (prepare b) ≠ [] →
      resolveBuildWorkers (Workers (opts b)) (Z.of_nat (length (inputs (prepare b))))
        = Some workers →
      workers <= 1 →
      Build b (let r := buildSerial (prepare b) (inputs (prepare b)) [] [] in
               (withIssues (prepare b) r.1, r.2))
  | Build_parallel workers p :
      inputs (prepare b) ≠ [] →
      resolveBuildWorkers (Workers (opts b)) (Z.of_nat (length (inputs (prepare b))))
        = Some workers →
      1 < workers →
      rtc (pool_step (prepare b))
          (pool_init (length (inputs (prepare b)))
                     (Z.to_nat (if Z.of_nat (length (inputs (prepare b))) <? workers
                                then Z.of_nat (length (inputs (prepare b)))
                                else workers)))
          p →
      pool_done p →
      Build b (let r := collect (SkipInvalid (opts b)) (entries p) (errs p) 0
                                (inputs (prepare b)) [] [] in
               (withIssues (prepare b) r.1, r.2)).

(** The fully serial build: what [Build] does when the pool is not used. *)
Definition BuildSerial `{Host} `{Paa} (b : Builder) : Builder * result File :=
  let r := buildSerial (prepare b) (inputs (prepare b)) [] [] in
  (withIssues (prepare b) r.1, r.2).

(** ** File helpers ([ReadFile] in read.go, [WriteFile] in write.go) and the
    builder's [Write] and [WriteFile] (build.go)

    The files on disk are a finite map from paths to contents.  [os.Open]
    succeeds on the paths of that map; [os.Create] leaves an empty file at
    the path, or refuses the path (a missing directory, no permission).
    For [WriteFile] below, writes to the open file append to its contents
    and do not fail, as for the buffer of [Write]; closing changes
    nothing.  [WriteFileOn] further down is [WriteFile] on files whose
    writes can fail. *)
Class Os := {
  osCreate : string → option error;    (* os.Create: the error for a refused path *)
  osOpenError : string → error         (* os.Open: the error for a path without a file *)
}.

Definition ReadFile `{Os} (disk : gmap string (list byte)) (path : string) : result File :=
  match disk !! path with
  | None => Err (WrapPath "open" path (osOpenError path))
  | Some content =>
      match Read content with
      | Err err => Err (WrapPath "read" path err)
      | Ok (file, _) => Ok file
      end
  end.

Definition WriteFile `{Os} (disk : gmap string (list byte)) (path : string) (f : option File)
    : gmap string (list byte) * option error :=
  match osCreate path with
  | Some err => (disk, Some (WrapPath "create" path err))
  | None =>
      match Write f [] with
      | (Some err, out) => (<[path := out]> disk, Some (WrapPath "write" path err))
      | (None, out) => (<[path := out]> disk, None)
      end
  end.

(** ** The encoder on a writer that can refuse (write.go)

    [Write] above runs on a buffer, which accepts every write.  An
    [io.Writer] in general can return an error from any call of its [Write]
    method, having stored all, some or none of the bytes; the encoder then
    returns that error, with the context of the field it was writing, and
    what follows is not written.  [Writer] is such a writer: the type of its
    states, and what one call of [w.Write(p)] returns and does to the
    state.  [Stream] is the encoder of write.go on it, function by
    function. *)
Class Writer := {
  Sink : Type;
  sinkWrite : list byte → Sink → option error * Sink     (* w.Write(p) *)
}.

Module Stream.
Section on_writer.
Context `{Writer}.

Definition Enc : Type := Sink → option error * Sink.

Definition wbytes (p : list byte) : Enc := sinkWrite p.
Definition efail (e : error) : Enc := λ k, (Some e, k).
Definition eskip : Enc := λ k, (None, k).
Definition eseq (a b : Enc) : Enc :=
  λ k, match a k with
       | (None, k') => b k'
       | (Some e, k') => (Some e, k')
       end.
Definition ewrap (ctx : string) (a : Enc) : Enc :=
  λ k, match a k with
       | (None, k') => (None, k')
       | (Some e, k') => (Some (Wrap ctx e), k')
       end.
Definition ewrapAt (ctx : string) (i : Z) (a : Enc) : Enc :=
  λ k, match a k with
       | (None, k') => (None, k')
       | (Some e, k') => (Some (WrapAt ctx i e), k')
       end.
Definition esteps (l : list Enc) : Enc := foldr eseq eskip l.

Definition writeU8 (v : Z) : Enc := wbytes [toByte v].
Definition writeBool8 (v : bool) : Enc := if v then writeU8 1 else writeU8 0.
Definition writeU16 (v : Z) : Enc := wbytes (PutUint16 v).
Definition writeU32 (v : Z) : Enc := wbytes (PutUint32 v).
Definition writeF32 (v : Z) : Enc := writeU32 v.

Definition writeByte4 (c : byte4) : Enc :=
  let '(c0, c1, c2, c3) := c in wbytes [c0; c1; c2; c3].

Definition writeASCIIZ (s : string) : Enc :=
  esteps [wbytes (list_byte_of_string s); writeU8 0].

Definition writeU32FromInt (v : Z) : Enc :=
  match intToU32Strict v with
  | Err _ => efail (WithInt ErrTooManyTextures v)
  | Ok u32 => writeU32 u32
  end.

Definition writeMipMap (m : MipMap) : Enc :=
  esteps [ ewrap "write width" (writeU16 (Width m));
           ewrap "write height" (writeU16 (Height m));
           ewrap "write always zero" (writeU16 (AlwaysZero m));
           ewrap "write mip pax format" (writeU8 (MipPaxFormat m));
           ewrap "write always three" (writeU8 (AlwaysThree m));
           ewrap "write data offset" (writeU32 (DataOffset m)) ].

Fixpoint writeLoop {A} (ctx : string) (item : A → Enc) (i : Z) (xs : list A) : Enc :=
  match xs with
  | [] => eskip
  | x :: xs' => eseq (ewrapAt ctx i (item x)) (writeLoop ctx item (i + 1) xs')
  end.

Definition writeTextureEntry (entry : TextureEntry) : Enc :=
  let '(f0, f1, f2, f3) := AverageColorF entry in
  esteps [ ewrap "write color palette count" (writeU32 (ColorPaletteCount entry));
           ewrap "write palette ptr" (writeU32 (PalettePtr entry));
           ewrapAt "write average float color" 0 (writeF32 f0);
           ewrapAt "write average float color" 1 (writeF32 f1);
           ewrapAt "write average float color" 2 (writeF32 f2);
           ewrapAt "write average float color" 3 (writeF32 f3);
           ewrap "write average color bytes" (writeByte4 (AverageColor entry));
           ewrap "write max color bytes" (writeByte4 (MaxColor entry));
           ewrap "write clamp flags" (writeU32 (ClampFlags entry));
           ewrap "write transparent color" (writeU32 (TransparentColor entry));
           ewrap "write has_max_ctagg" (writeBool8 (HasMaxCtagg entry));
           ewrap "write is_alpha" (writeBool8 (IsAlpha entry));
           ewrap "write is_transparent" (writeBool8 (IsTransparent entry));
           ewrap "write is_alpha_non_opaque" (writeBool8 (IsAlphaNonOpaque entry));
           ewrap "write mip count" (writeU32 (MipMapCount entry));
           ewrap "write pax format" (writeU32 (PaxFormat entry));
           ewrap "write little_endian" (writeBool8 (LittleEndian entry));
           ewrap "write is_paa" (writeBool8 (IsPAA entry));
           ewrap "write paa path" (writeASCIIZ (PAAFile entry));
           ewrap "write pax suffix type" (writeU32 (PaxSuffixType entry));
           ewrap "write mip count copy" (writeU32 (MipMapCountCopy entry));
           writeLoop "write mipmap" writeMipMap 0 (MipMaps entry);
           ewrap "write pax file size" (writeU32 (PaxFileSize entry)) ].

Definition Write (f : option File) : Enc :=
  match f with
  | None => efail ErrNilFile
  | Some f =>
      let magic := if decide (Magic f = "") then FileMagic else Magic f in
      if decide (String.length magic ≠ 4%nat) then efail (WithStr ErrInvalidMagic magic)
      else
        eseq (ewrap "write magic" (wbytes (list_byte_of_string magic)))
          (let version := if Version f =? 0 then SupportedVersion else Version f in
           if decide (version ≠ SupportedVersion)
           then efail (WithInt ErrUnsupportedVersion version)
           else
             esteps [ ewrap "write version" (writeU32 version);
                      ewrap "write texture count"
                            (writeU32FromInt (Z.of_nat (length (Textures f))));
                      writeLoop "write texture entry" writeTextureEntry 0 (Textures f) ])
  end.
End on_writer.
End Stream.

(** The buffer as a writer: every write is accepted and appended. *)
Definition bufferWriter : Writer :=
  {| Sink := list byte; sinkWrite := λ p w, (None, w ++ p) |}.

(** Writes to the files on disk: what one [Write] on the open file at a
    path returns and does to the disk (a device can be full or fail). *)
Class FileWrites := {
  fileWrite : string → list byte → gmap string (list byte)
              → option error * gmap string (list byte)
}.

(** The file that [os.Create] opened at [path], as a writer. *)
Definition fileWriter `{FileWrites} (path : string) : Writer :=
  {| Sink := gmap string (list byte); sinkWrite := fileWrite path |}.

(** [WriteFile] when the writes to the file can fail: [os.Create] leaves
    an empty file at the path, the encoder runs on that file, and its error
    comes back as "write <path>". *)
Definition WriteFileOn `{Os} `{FileWrites} (disk : gmap string (list byte)) (path : string)
    (f : option File) : gmap string (list byte) * option error :=
  match osCreate path with
  | Some err => (disk, Some (WrapPath "create" path err))
  | None =>
      match @Stream.Write (fileWriter path) f (<[path := []]> disk) with
      | (Some err, disk') => (disk', Some (WrapPath "write" path err))
      | (None, disk') => (disk', None)
      end
  end.

(** [Builder.Write] and [Builder.WriteFile]: [Build], then the encoder on
    what it returned; an error of either is returned as it is. *)
Inductive BuilderWrite `{Host} `{Paa} `{Writer} (b : Builder) (k : Sink)
    : Builder * (option error * Sink) → Prop :=
  | BuilderWrite_built out :
      Build b out →
      BuilderWrite b k (out.1, match out.2 with
                               | Err err => (Some err, k)
                               | Ok f => Stream.Write (Some f) k
                               end).

Inductive BuilderWriteFile `{Host} `{Paa} `{Os} `{FileWrites} (b : Builder)
    (disk : gmap string (list byte)) (path : string)
    : Builder * (gmap string (list byte) * option error) → Prop :=
  | BuilderWriteFile_built out :
      Build b out →
      BuilderWriteFile b disk path (out.1, match out.2 with
                                           | Err err => (disk, Some err)
                                           | Ok f => WriteFileOn disk path (Some f)
                                           end).

(** ** Specification-side definitions for the validator

    The invariants of a [File] as the specification lists them, stated
    independently of the order in which the validator visits them. *)

(** Every violation inside a validation error. *)
Fixpoint flatten (e : verror) : list issue :=
  match e with
  | VIssue i => [i]
  | VJoin l =>
      (fix go (l : list verror) : list issue :=
         match l with
         | [] => []
         | x :: r => flatten x ++ go r
         end) l
  end.

Definition flattenAll (l : list verror) : list issue := concat (flatten <$> l).

Definition reported (r : option verror) : list issue :=
  match r with
  | None => []
  | Some e => flatten e
  end.

(** The length both count fields are compared with: the length of the mip
    list, or 0 when that length is itself out of range. *)
Definition mipLenOf (entry : TextureEntry) : Z :=
  let n := Z.of_nat (length (MipMaps entry)) in
  if MaxUint32 <? n then 0 else n.

(** Per-mip invariants of mip [j] of entry [i]. *)
Inductive MipViolation (i : Z) (entry : TextureEntry) (j : nat) (m : MipMap) : issue → Prop :=
  | V_zero_dim :
      Width m = 0 ∨ Height m = 0 →
      MipViolation i entry j m (IssueZeroDim i (Z.of_nat j) (Width m) (Height m))
  | V_always_zero :
      AlwaysZero m ≠ 0 →
      MipViolation i entry j m (IssueAlwaysZero i (Z.of_nat j) (AlwaysZero m))
  | V_always_three :
      AlwaysThree m ≠ 3 →
      MipViolation i entry j m (IssueAlwaysThree i (Z.of_nat j) (AlwaysThree m))
  | V_mip_format :
      PaxFormat entry <= MaxUint8 →
      MipPaxFormat m ≠ PaxFormat entry →
      MipViolation i entry j m
        (IssueMipFormat i (Z.of_nat j) (MipPaxFormat m) (PaxFormat entry))
  | V_offset j' m' :
      j = S j' →
      MipMaps entry !! j' = Some m' →
      DataOffset m < DataOffset m' →
      MipViolation i entry j m
        (IssueOffset i (Z.of_nat j) (DataOffset m) (DataOffset m')).

(** Per-entry invariants of entry [i]. *)
Inductive EntryViolation (i : Z) (entry : TextureEntry) : issue → Prop :=
  | V_path_empty :
      PAAFile entry = "" →
      EntryViolation i entry (IssuePathEmpty i)
  | V_format_range :
      MaxUint8 < PaxFormat entry →
      EntryViolation i entry (IssuePaxFormatRange i (PaxFormat entry))
  | V_mip_len_range :
      MaxUint32 < Z.of_nat (length (MipMaps entry)) →
      EntryViolation i entry (IssueMipLenRange i (Z.of_nat (length (MipMaps entry))))
  | V_count_len :
      MipMapCount entry ≠ mipLenOf entry →
      EntryViolation i entry (IssueMipCountLen i (MipMapCount entry) (mipLenOf entry))
  | V_copy_len :
      MipMapCountCopy entry ≠ mipLenOf entry →
      EntryViolation i entry (IssueMipCountCopyLen i (MipMapCountCopy entry) (mipLenOf entry))
  | V_count_copy :
      MipMapCount entry ≠ MipMapCountCopy entry →
      EntryViolation i entry
        (IssueMipCountCopy i (MipMapCount entry) (MipMapCountCopy entry))
  | V_mip j m x :
      MipMaps entry !! j = Some m →
      MipViolation i entry j m x →
      EntryViolation i entry x.

(** Invariants of a file. *)
Inductive FileViolation (f : File) : issue → Prop :=
  | V_magic :
      Magic f ≠ "" → Magic f ≠ FileMagic →
      FileViolation f (IssueMagic (Magic f))
  | V_version :
      Version f ≠ 0 → Version f ≠ SupportedVersion →
      FileViolation f (IssueVersion (Version f))
  | V_texture_count :
      MaxUint32 < Z.of_nat (length (Textures f)) →
      FileViolation f (IssueTextureCount (Z.of_nat (length (Textures f))))
  | V_entry i entry x :
      Textures f !! i = Some entry →
      EntryViolation (Z.of_nat i) entry x →
      FileViolation f x.

(** ** Specification-side definitions for the codec

    The byte layout of the format, field after field, as a function of the
    model. *)

Definition boolByte (v : bool) : byte := if v then x01 else x00.

Definition mipBytes (m : MipMap) : list byte :=
  PutUint16 (Width m) ++ PutUint16 (Height m) ++ PutUint16 (AlwaysZero m) ++
  [toByte (MipPaxFormat m)] ++ [toByte (AlwaysThree m)] ++ PutUint32 (DataOffset m).

Definition byte4Bytes (c : byte4) : list byte :=
  let '(c0, c1, c2, c3) := c in [c0; c1; c2; c3].

Definition float4Bytes (c : float4) : list byte :=
  let '(f0, f1, f2, f3) := c in
  PutUint32 f0 ++ PutUint32 f1 ++ PutUint32 f2 ++ PutUint32 f3.

(** The 44 bytes of an entry that precede its mip_count field. *)
Definition entryHead (e : TextureEntry) : list byte :=
  PutUint32 (ColorPaletteCount e) ++ PutUint32 (PalettePtr e) ++
  float4Bytes (AverageColorF e) ++
  byte4Bytes (AverageColor e) ++ byte4Bytes (MaxColor e) ++
  PutUint32 (ClampFlags e) ++ PutUint32 (TransparentColor e) ++
  [boolByte (HasMaxCtagg e)] ++ [boolByte (IsAlpha e)] ++
  [boolByte (IsTransparent e)] ++ [boolByte (IsAlphaNonOpaque e)].

(** What lies between the mip_count field and the mip_count_copy field. *)
Definition entryMiddle (e : TextureEntry) : list byte :=
  PutUint32 (PaxFormat e) ++
  [boolByte (LittleEndian e)] ++ [boolByte (IsPAA e)] ++
  (list_byte_of_string (PAAFile e) ++ [x00]) ++
  PutUint32 (PaxSuffixType e).

Definition entryBytes (e : TextureEntry) : list byte :=
  entryHead e ++ PutUint32 (MipMapCount e) ++ entryMiddle e ++
  PutUint32 (MipMapCountCopy e) ++
  concat (mipBytes <$> MipMaps e) ++
  PutUint32 (PaxFileSize e).

(** [emits a bs]: the encoding step [a] succeeds and appends exactly [bs]. *)
Definition emits (a : Enc) (bs : list byte) : Prop :=
  ∀ w, a w = (None, w ++ bs).

(** A coarse relation between a byte of the input and the byte written for
    it, used where only the framing of the consumed bytes matters: the same
    byte, or the byte 1 for an input byte other than 0 and 1.  The exact
    relation, which says where such a byte can stand, is [normalizeFlags]
    below. *)
Definition renorm (b o : byte) : Prop :=
  o = b ∨ (o = x01 ∧ b ≠ x00 ∧ b ≠ x01).

(** The bytes of an encoded entry that hold a boolean flag: the four at
    offsets 40 to 43 (has_max_ctagg, is_alpha, is_transparent,
    is_alpha_non_opaque) and the two at offsets 52 and 53 (little_endian,
    is_paa).  A mask has one boolean for each byte of the encoding, [true]
    on a flag byte. *)
Definition entryMask (e : TextureEntry) : list bool :=
  replicate 40 false ++ replicate 4 true ++ replicate 8 false ++ replicate 2 true ++
  replicate (String.length (PAAFile e) + 1 + 8 + 12 * length (MipMaps e) + 4) false.

Definition fileMask (f : File) : list bool :=
  replicate 12 false ++ concat (entryMask <$> Textures f).

(** What comes back for a byte that was read: a flag byte comes back as 0
    when it is 0 and as 1 otherwise, every other byte comes back as it is. *)
Definition normFlag (isFlag : bool) (b : byte) : byte :=
  if isFlag then (if decide (b = x00) then x00 else x01) else b.

Definition normalizeFlags (mask : list bool) (bs : list byte) : list byte :=
  zip_with normFlag mask bs.

(** [masked m c o]: [c] has one byte for each position of the mask [m], and
    [o] is [c] with its flag bytes normalized. *)
Definition masked (m : list bool) (c o : list byte) : Prop :=
  length c = length m ∧ normalizeFlags m c = o.

(** The magic and version [Write] puts on disk for [f]. *)
Definition effectiveMagic (f : File) : string :=
  if decide (Magic f = "") then FileMagic else Magic f.

Definition effectiveVersion (f : File) : Z :=
  if Version f =? 0 then SupportedVersion else Version f.

Definition headerBytes (f : File) : list byte :=
  list_byte_of_string (effectiveMagic f) ++ PutUint32 (effectiveVersion f).

(** The layout of an entry if both count fields were derived from the length
    of the mip list (the reading of the specification's encoder section). *)
Definition entryBytesDerived (e : TextureEntry) : list byte :=
  entryHead e ++ PutUint32 (Z.of_nat (length (MipMaps e))) ++ entryMiddle e ++
  PutUint32 (Z.of_nat (length (MipMaps e))) ++
  concat (mipBytes <$> MipMaps e) ++
  PutUint32 (PaxFileSize e).

(** Sample values used by the examples. *)
Definition sampleMip : MipMap := mkMipMap 4 4 0 6 3 128.

Definition sampleEntry : TextureEntry :=
  {| PAAFile := "a_co.paa"; MipMaps := [sampleMip];
     ColorPaletteCount := 1; PalettePtr := 0;
     AverageColorF := (0, 0, 0, 1065353216);
     AverageColor := (x10, x20, x30, xff); MaxColor := (xff, xff, xff, xff);
     ClampFlags := 0; TransparentColor := 4294967295;
     HasMaxCtagg := true; IsAlpha := false;
     IsTransparent := false; IsAlphaNonOpaque := false;
     MipMapCount := 1; PaxFormat := 6;
     LittleEndian := true; IsPAA := true;
     PaxSuffixType := 0;
     MipMapCountCopy := 1; PaxFileSize := 1000 |}.

(** An entry whose stored count fields (5 and 7) disagree with each other
    and with its (empty) mip list. *)
Definition skewedEntry : TextureEntry :=
  {| PAAFile := "a"; MipMaps := [];
     ColorPaletteCount := 1; PalettePtr := 0;
     AverageColorF := (0, 0, 0, 0);
     AverageColor := zeroByte4; MaxColor := zeroByte4;
     ClampFlags := 0; TransparentColor := 0;
     HasMaxCtagg := false; IsAlpha := false;
     IsTransparent := false; IsAlphaNonOpaque := false;
     MipMapCount := 5; PaxFormat := 6;
     LittleEndian := true; IsPAA := true;
     PaxSuffixType := 0;
     MipMapCountCopy := 7; PaxFileSize := 0 |}.

(** The whole file in the layout of the format. *)
Definition fileBytes (f : File) : list byte :=
  headerBytes f ++ PutUint32 (Z.of_nat (length (Textures f))) ++
  concat (entryBytes <$> Textures f).

(** Two byte buffers the decoder accepts: an empty index followed by one
    extra byte, and a one-entry index whose has_max_color flag byte is 2. *)
Definition trailingByteBuffer : list byte :=
  list_byte_of_string "0DHT" ++ PutUint32 1 ++ PutUint32 0 ++ [xff].

Definition flagTwoBuffer : list byte :=
  list_byte_of_string "0DHT" ++ PutUint32 1 ++ PutUint32 1 ++
  <[40%nat := x02]> (entryBytes sampleEntry).

(** The entry [e] with its [MipMapCount] field set to [c]. *)
Definition withMipMapCount (c : Z) (e : TextureEntry) : TextureEntry :=
  {| PAAFile := PAAFile e; MipMaps := MipMaps e;
     ColorPaletteCount := ColorPaletteCount e; PalettePtr := PalettePtr e;
     AverageColorF := AverageColorF e;
     AverageColor := AverageColor e; MaxColor := MaxColor e;
     ClampFlags := ClampFlags e; TransparentColor := TransparentColor e;
     HasMaxCtagg := HasMaxCtagg e; IsAlpha := IsAlpha e;
     IsTransparent := IsTransparent e; IsAlphaNonOpaque := IsAlphaNonOpaque e;
     MipMapCount := c; PaxFormat := PaxFormat e;
     LittleEndian := LittleEndian e; IsPAA := IsPAA e;
     PaxSuffixType := PaxSuffixType e;
     MipMapCountCopy := MipMapCountCopy e; PaxFileSize := PaxFileSize e |}.

(** ** Specification-side definitions for the suffix classifier *)

(** [token] occurs in [s] at position [pos] and is followed there by the end
    of [s] or by one of the separators '_', '-', '.'. *)
Definition boundaryMatchAt (s token : string) (pos : nat) : Prop :=
  ∃ pre post,
    s = pre +:+ token +:+ post ∧ String.length pre = pos ∧
    (post = EmptyString ∨
     ∃ ch post', post = String ch post' ∧
                 (ch = "_"%char ∨ ch = "-"%char ∨ ch = "."%char)).

Definition tokenBoundaryMatch (s token : string) : Prop :=
  ∃ pos, boundaryMatchAt s token pos.

(** ** Specification-side definitions for the builder *)

(** A sequence of [Append] calls, each on the builder the previous one left
    (a refused path leaves the builder as it was). *)
Definition appendAll `{Host} (b : Builder) (paths : list string) : Builder :=
  foldl (λ b path, (Append b path).1) b paths.

(** The paths [Append] accepts. *)
Definition accepted `{Host} (paths : list string) : list string :=
  filter (λ path, TrimSpace path ≠ EmptyString) paths.

(** The entry built for one input, if any. *)
Definition builtEntry `{Host} `{Paa} (b : Builder) (path : string) : option TextureEntry :=
  match buildEntry b path with
  | Ok entry => Some entry
  | Err _ => None
  end.

(** The builder [b] asked to use [w] workers. *)
Definition withWorkers (w : Z) (b : Builder) : Builder :=
  {| inputs := inputs b; issues := issues b;
     opts := mkBuildOptions (SuffixOverrides (opts b)) (BaseDir (opts b))
                            (SkipInvalid (opts b)) (LowercasePaths (opts b))
                            (BackslashPaths (opts b)) w;
     inputsSorted := inputsSorted b |}.

(** Slot [i] of the pool holds the outcome of building input [i]. *)
Definition filled `{Host} `{Paa} (b : Builder) (p : pool) (i : nat) : Prop :=
  match buildEntry b (inputs b !!! i) with
  | Ok entry => entries p !! i = Some entry ∧ errs p !! i = Some None
  | Err err => errs p !! i = Some (Some err)
  end.

(** Index [i] is still to be sent, in the channel, or held by a worker. *)
Definition pending (p : pool) (i : nat) : Prop :=
  (sent p ≤ i)%nat ∨ i ∈ jobs p ∨ ∃ w, workers_ p !! w = Some (Busy i).

(** What every state of a run of the pool over [b] with [k] workers satisfies. *)
Record pool_inv `{Host} `{Paa} (b : Builder) (k : nat) (p : pool) : Prop := {
  inv_workers_len : length (workers_ p) = k;
  inv_entries_len : length (entries p) = length (inputs b);
  inv_errs_len : length (errs p) = length (inputs b);
  inv_sent : (sent p ≤ length (inputs b))%nat;
  inv_closed : closed p = true → sent p = length (inputs b);
  inv_exited : ∀ w, workers_ p !! w = Some Exited → closed p = true ∧ jobs p = [];
  inv_jobs : ∀ i, i ∈ jobs p → (i < length (inputs b))%nat;
  inv_busy : ∀ w i, workers_ p !! w = Some (Busy i) → (i < length (inputs b))%nat;
  inv_errs : ∀ i, (i < length (inputs b))%nat →
    errs p !! i = Some None ∨
    ∃ err, buildEntry b (inputs b !!! i) = Err err ∧ errs p !! i = Some (Some err);
  inv_slots : ∀ i, (i < length (inputs b))%nat → filled b p i ∨ pending p i
}.

(** The work a pool state still has to do: three units for an index not yet
    sent, two for one in the channel, and per worker two when busy and one
    when idle; one more while the channel is open. *)
Definition workerWeight (w : worker) : nat :=
  match w with
  | Idle => 1
  | Busy _ => 2
  | Exited => 0
  end.

Definition poolMeasure (n : nat) (p : pool) : nat :=
  (3 * (n - sent p) + 2 * length (jobs p) + (if closed p then 0 else 1) +
   sum_list (workerWeight <$> workers_ p))%nat.

(** One action of the dispatcher or of worker [w], as a function: the next
    state, or [None] when the action cannot happen in [p].  A list of
    actions is a schedule. *)
Inductive action :=
  | ActSend
  | ActClose
  | ActReceive (w : nat)
  | ActFinish (w : nat)
  | ActExit (w : nat).

Definition pool_act `{Host} `{Paa} (b : Builder) (a : action) (p : pool) : option pool :=
  match a with
  | ActSend =>
      if decide (sent p < length (inputs b))%nat then
        if closed p then None
        else Some (mkPool (S (sent p)) false (jobs p ++ [sent p])
                          (workers_ p) (entries p) (errs p))
      else None
  | ActClose =>
      if decide (sent p = length (inputs b)) then
        if closed p then None
        else Some (mkPool (sent p) true (jobs p) (workers_ p) (entries p) (errs p))
      else None
  | ActReceive w =>
      match workers_ p !! w, jobs p with
      | Some Idle, i :: q =>
          Some (mkPool (sent p) (closed p) q (<[w := Busy i]> (workers_ p))
                       (entries p) (errs p))
      | _, _ => None
      end
  | ActFinish w =>
      match workers_ p !! w with
      | Some (Busy i) =>
          match buildEntry b (inputs b !!! i) with
          | Ok entry =>
              Some (mkPool (sent p) (closed p) (jobs p) (<[w := Idle]> (workers_ p))
                           (<[i := entry]> (entries p)) (errs p))
          | Err err =>
              Some (mkPool (sent p) (closed p) (jobs p) (<[w := Idle]> (workers_ p))
                           (entries p) (<[i := Some err]> (errs p)))
          end
      | _ => None
      end
  | ActExit w =>
      match workers_ p !! w, jobs p, closed p with
      | Some Idle, [], true =>
          Some (mkPool (sent p) true [] (<[w := Exited]> (workers_ p))
                       (entries p) (errs p))
      | _, _, _ => None
      end
  end.

Fixpoint pool_acts `{Host} `{Paa} (b : Builder) (schedule : list action) (p : pool)
    : option pool :=
  match schedule with
  | [] => Some p
  | a :: rest =>
      match pool_act b a p with
      | Some p' => pool_acts b rest p'
      | None => None
      end
  end.

(** A schedule for three inputs and two workers in which the workers
    overlap and finish out of order. *)
Definition sampleSchedule : list action :=
  [ActSend; ActReceive 1; ActSend; ActReceive 0; ActSend; ActFinish 0;
   ActClose; ActReceive 0; ActFinish 0; ActFinish 1; ActExit 0; ActExit 1].

(** [inputsSorted] tells the truth about [inputs]. *)
Definition sortedFlagOk (b : Builder) : Prop :=
  inputsSorted b = true → Sorted String.le (inputs b).

(** The lifetime of a builder made by [NewBuilder opts]: any sequence of
    [Append], [AppendMany] and [Build] calls. *)
Inductive lifetime `{Host} `{Paa} (o : BuildOptions) : Builder → Prop :=
  | life_new : lifetime o (NewBuilder o)
  | life_append b path : lifetime o b → lifetime o (Append b path).1
  | life_append_many b paths : lifetime o b → lifetime o (AppendMany b paths).1
  | life_build b out : lifetime o b → Build b out → lifetime o out.1.

(** Does the byte [c] occur in [s]? *)
Fixpoint hasByte (c : ascii) (s : string) : bool :=
  match s with
  | EmptyString => false
  | String d s' => bool_decide (d = c) || hasByte c s'
  end.

(** The two-byte prefix that [normalizePath] trims: a dot and a backslash. *)
Definition dotBackslash : string := String "."%char (String backslash EmptyString).

(** ** A concrete host for the examples

    A small stand-in for the Go library on ASCII paths with '/' separators,
    and a fixed set of source files.  It is used only to run the definitions
    on concrete inputs. *)

Definition lowerAscii (c : ascii) : ascii :=
  let n := nat_of_ascii c in
  if (65 <=? n)%nat && (n <=? 90)%nat then ascii_of_nat (n + 32) else c.

Fixpoint lowerString (s : string) : string :=
  match s with
  | EmptyString => EmptyString
  | String c s' => String (lowerAscii c) (lowerString s')
  end.

Fixpoint allSpaces (s : string) : bool :=
  match s with
  | EmptyString => true
  | String c s' => bool_decide (c = " "%char) && allSpaces s'
  end.

Definition sampleExt (path : string) : string :=
  match LastIndexByte path "."%char with
  | Some dot => sliceFrom dot path
  | None => EmptyString
  end.

Definition sampleRel (base path : string) : result string :=
  if HasPrefix path (base +:+ "/")
  then Ok (sliceFrom (String.length base + 1) path)
  else Err (ErrExternal "Rel: can't make path relative").

Definition sampleHost : Host :=
  {| ToLower := lowerString;
     TrimSpace := λ s, if allSpaces s then EmptyString else s;
     EqualFold := λ a b, bool_decide (lowerString a = lowerString b);
     Ext := sampleExt;
     Clean := λ s, s;
     Rel := sampleRel;
     IsAbs := λ s, HasPrefix s "/";
     Getwd := Ok "/work";
     GOMAXPROCS := 20;
     float32Div255 := λ _, 0 |}.

Definition sampleMeta : MetadataHeaders :=
  {| Type_ := 65281; HasAverageColor := true;
     MetaAverageColor := (x10, x20, x30, xff);
     HasMaxColor := false; MetaMaxColor := zeroByte4;
     HasGALF := true; GALF := 1;
     MipHeaders := [mkMipHeader 4 4 128; mkMipHeader 2 2 144] |}.

Definition samplePaa : Paa :=
  {| PaxGRAYA := 32896; PaxARGBA5 := 5461; PaxARGB4 := 17476; PaxARGB8 := 34952;
     PaxDXT1 := 65281; PaxDXT2 := 65282; PaxDXT3 := 65283; PaxDXT4 := 65284;
     PaxDXT5 := 65285;
     osOpen := λ path,
       if HasPrefix path "/missing/" then Some (ErrExternal "no such file") else None;
     statSize := λ _, Ok 1000;
     DecodeMetadataHeaders := λ _, Ok sampleMeta |}.

Definition sampleOptions : BuildOptions :=
  mkBuildOptions None "/Work" true false false 0.

(** Three accepted paths (one of them not a texture), appended out of order. *)
Definition sampleBuilder : Builder :=
  @appendAll sampleHost (NewBuilder sampleOptions)
    ["/Work/Data/B_CO.paa"; "/Work/c.txt"; "/Work/a_nohq.PAA"].

(** ** Specification-side definitions for the second round trip *)

(** The ranges of the Go integer types. *)
Definition isU8 (v : Z) : Prop := 0 <= v < 2 ^ 8.
Definition isU16 (v : Z) : Prop := 0 <= v < 2 ^ 16.
Definition isU32 (v : Z) : Prop := 0 <= v < 2 ^ 32.

(** The field values of a [MipMap], a [TextureEntry] and a [File] are values
    of their Go types. *)
Definition typedMip (m : MipMap) : Prop :=
  isU16 (Width m) ∧ isU16 (Height m) ∧ isU16 (AlwaysZero m) ∧
  isU8 (MipPaxFormat m) ∧ isU8 (AlwaysThree m) ∧ isU32 (DataOffset m).

Definition typedEntry (e : TextureEntry) : Prop :=
  isU32 (ColorPaletteCount e) ∧ isU32 (PalettePtr e) ∧
  (let '(f0, f1, f2, f3) := AverageColorF e in
   isU32 f0 ∧ isU32 f1 ∧ isU32 f2 ∧ isU32 f3) ∧
  isU32 (ClampFlags e) ∧ isU32 (TransparentColor e) ∧
  isU32 (MipMapCount e) ∧ isU32 (PaxFormat e) ∧ isU32 (PaxSuffixType e) ∧
  isU32 (MipMapCountCopy e) ∧ isU32 (PaxFileSize e) ∧
  Forall typedMip (MipMaps e).

(** An entry the decoder can read back: the stored mip_count_copy is the
    number of mips, and the path holds no zero byte. *)
Definition readableEntry (e : TextureEntry) : Prop :=
  MipMapCountCopy e = Z.of_nat (length (MipMaps e)) ∧
  x00 ∉ list_byte_of_string (PAAFile e).

(** The file with the magic and version that [Write] puts on disk. *)
Definition withDefaults (f : File) : File :=
  {| Magic := effectiveMagic f; Textures := Textures f; Version := effectiveVersion f |}.

(** [parses d bs a]: on a stream that starts with [bs] the decoder [d]
    returns [a] and leaves what follows [bs]. *)
Definition parses {A} (d : Dec A) (bs : list byte) (a : A) : Prop :=
  ∀ s, d (bs ++ s) = Ok (a, s).

(** [extends d]: a successful read is not affected by what follows the
    bytes it consumed. *)
Definition extends {A} (d : Dec A) : Prop :=
  ∀ s a r t, d s = Ok (a, r) → d (s ++ t) = Ok (a, r ++ t).

(** The size in bytes of an entry on disk. *)
Definition entrySize (e : TextureEntry) : nat :=
  (67 + String.length (PAAFile e) + 12 * length (MipMaps e))%nat.

(** A one-entry index with default magic and version, used by the examples. *)
Definition sampleFile : File := mkFile "" [sampleEntry] 0.

(** [yields d P]: whatever [d] returns satisfies [P]. *)
Definition yields {A} (d : Dec A) (P : A → Prop) : Prop :=
  ∀ s a r, d s = Ok (a, r) → P a.

(** ** Specification-side definitions: accepted entries

    What an entry the validator accepts looks like, as one statement about
    the whole entry. *)

Definition validMip (entryFormat : Z) (m : MipMap) : Prop :=
  Width m ≠ 0 ∧ Height m ≠ 0 ∧ AlwaysZero m = 0 ∧ AlwaysThree m = 3 ∧
  MipPaxFormat m = entryFormat.

Definition validEntry (e : TextureEntry) : Prop :=
  PAAFile e ≠ "" ∧ PaxFormat e <= MaxUint8 ∧
  Z.of_nat (length (MipMaps e)) <= MaxUint32 ∧
  MipMapCount e = Z.of_nat (length (MipMaps e)) ∧
  MipMapCountCopy e = Z.of_nat (length (MipMaps e)) ∧
  Forall (validMip (PaxFormat e)) (MipMaps e) ∧
  Sorted Z.le (DataOffset <$> MipMaps e).

(** The violations that cannot occur in a file that came out of the
    decoder: those of the header, and those that compare mip_count_copy
    with the number of mips. *)
Definition excludedByDecoder (x : issue) : bool :=
  match x with
  | IssueNilFile | IssueNilEntry _ | IssueMagic _ | IssueVersion _
  | IssueTextureCount _ | IssueMipLenRange _ _ | IssueMipCountCopyLen _ _ _ => true
  | _ => false
  end.

(** ** Specification-side definitions for the classifier's table *)

(** The classes some rule of the table gives. *)
Definition guessedValues : list Z := [0; 1; 2; 3; 7; 8; 9; 11; 12; 13].

(** The stem the classifier looks at when the lowercased path is [s] and
    its last dot stands after the (possibly empty) prefix [a]. *)
Definition stemOf (a ext : string) : string :=
  if decide (a = EmptyString) then String "."%char ext else a.

(** ** Specification-side definitions for built entries *)

(** The format codes [paxTypeToU8] gives. *)
Definition paxCodes : list Z := [1; 3; 4; 5; 6; 7; 8; 9; 10].

(** What every entry that [buildEntry] returns looks like, whatever the
    source file holds. *)
Record builtShape (e : TextureEntry) : Prop := {
  shape_palette : ColorPaletteCount e = 1 ∧ PalettePtr e = 0;
  shape_clamp : ClampFlags e = 0 ∧ TransparentColor e = 4294967295;
  shape_endian : LittleEndian e = true;
  shape_counts : MipMapCount e = Z.of_nat (length (MipMaps e)) ∧
                 MipMapCountCopy e = Z.of_nat (length (MipMaps e)) ∧
                 Z.of_nat (length (MipMaps e)) <= MaxUint32;
  shape_size : isU32 (PaxFileSize e) ∧ isU32 (PaxFormat e);
  shape_mips : ∃ code, code ∈ paxCodes ∧
                 Forall (λ m, AlwaysZero m = 0 ∧ AlwaysThree m = 3 ∧
                              MipPaxFormat m = code) (MipMaps e);
  shape_alpha : IsAlphaNonOpaque e = true → IsAlpha e = true;
  shape_max : HasMaxCtagg e = false → MaxColor e = (xff, xff, xff, xff)
}.

(** The violations the validator can still find in a built entry. *)
Definition possibleAfterBuild (x : issue) : bool :=
  match x with
  | IssuePathEmpty _ | IssuePaxFormatRange _ _ | IssueZeroDim _ _ _ _
  | IssueMipFormat _ _ _ _ | IssueOffset _ _ _ _ => true
  | _ => false
  end.

(** The issue recorded for one input, if it fails. *)
Definition buildIssueOf `{Host} `{Paa} (b : Builder) (path : string) : option BuildIssue :=
  match buildEntry b path with
  | Ok _ => None
  | Err err => Some (mkBuildIssue path err)
  end.

(** The sample builder in strict mode ([SkipInvalid] off). *)
Definition strictOptions : BuildOptions :=
  mkBuildOptions None "/Work" false false false 0.

Definition strictBuilder : Builder :=
  @appendAll sampleHost (NewBuilder strictOptions)
    ["/Work/Data/B_CO.paa"; "/Work/c.txt"; "/Work/a_nohq.PAA"].

(** The builder [b] with the override table [m]. *)
Definition withOverrides (m : gmap string Z) (b : Builder) : Builder :=
  {| inputs := inputs b; issues := issues b;
     opts := mkBuildOptions (Some m) (BaseDir (opts b))
                            (SkipInvalid (opts b)) (LowercasePaths (opts b))
                            (BackslashPaths (opts b)) (Workers (opts b));
     inputsSorted := inputsSorted b |}.

(** An operating system that refuses to create files under "/ro/". *)
Definition sampleOs : Os :=
  {| osCreate := λ path,
       if HasPrefix path "/ro/" then Some (ErrExternal "read-only file system") else None;
     osOpenError := λ _, ErrExternal "no such file or directory" |}.

(** ** Specification-side definitions for the encoder on a writer

    The calls of [w.Write] the encoder makes, in order: each with the bytes
    it passes and the contexts that are put around an error it returns
    (the outermost first). *)
Inductive frame :=
  | InField (ctx : string)            (* fmt.Errorf("ctx: %w", err) *)
  | InItem (ctx : string) (i : Z).    (* fmt.Errorf("ctx %d: %w", i, err) *)

Definition framed (frames : list frame) (e : error) : error :=
  foldr (λ fr e, match fr with
                 | InField ctx => Wrap ctx e
                 | InItem ctx i => WrapAt ctx i e
                 end) e frames.

Definition call : Type := list frame * list byte.

(** Making the calls one after the other on a writer, up to the first one
    it refuses. *)
Fixpoint feed `{Writer} (calls : list call) (k : Sink) : option error * Sink :=
  match calls with
  | [] => (None, k)
  | (frames, p) :: rest =>
      match sinkWrite p k with
      | (None, k') => feed rest k'
      | (Some e, k') => (Some (framed frames e), k')
      end
  end.

(** The calls, and then the error [final] if none was refused. *)
Definition feedThen `{Writer} (plan : list call * option error) (k : Sink)
    : option error * Sink :=
  match feed plan.1 k with
  | (None, k') => (plan.2, k')
  | (Some e, k') => (Some e, k')
  end.

Definition within (fr : frame) (calls : list call) : list call :=
  (λ c : call, (fr :: c.1, c.2)) <$> calls.

Definition field (ctx : string) (p : list byte) : call := ([InField ctx], p).

Fixpoint loopCalls {A} (ctx : string) (item : A → list call) (i : Z) (xs : list A)
    : list call :=
  match xs with
  | [] => []
  | x :: xs' => within (InItem ctx i) (item x) ++ loopCalls ctx item (i + 1) xs'
  end.

Definition mipCalls (m : MipMap) : list call :=
  [ field "write width" (PutUint16 (Width m));
    field "write height" (PutUint16 (Height m));
    field "write always zero" (PutUint16 (AlwaysZero m));
    field "write mip pax format" [toByte (MipPaxFormat m)];
    field "write always three" [toByte (AlwaysThree m)];
    field "write data offset" (PutUint32 (DataOffset m)) ].

Definition entryCalls (e : TextureEntry) : list call :=
  let '(f0, f1, f2, f3) := AverageColorF e in
  [ field "write color palette count" (PutUint32 (ColorPaletteCount e));
    field "write palette ptr" (PutUint32 (PalettePtr e));
    ([InItem "write average float color" 0], PutUint32 f0);
    ([InItem "write average float color" 1], PutUint32 f1);
    ([InItem "write average float color" 2], PutUint32 f2);
    ([InItem "write average float color" 3], PutUint32 f3);
    field "write average color bytes" (byte4Bytes (AverageColor e));
    field "write max color bytes" (byte4Bytes (MaxColor e));
    field "write clamp flags" (PutUint32 (ClampFlags e));
    field "write transparent color" (PutUint32 (TransparentColor e));
    field "write has_max_ctagg" [boolByte (HasMaxCtagg e)];
    field "write is_alpha" [boolByte (IsAlpha e)];
    field "write is_transparent" [boolByte (IsTransparent e)];
    field "write is_alpha_non_opaque" [boolByte (IsAlphaNonOpaque e)];
    field "write mip count" (PutUint32 (MipMapCount e));
    field "write pax format" (PutUint32 (PaxFormat e));
    field "write little_endian" [boolByte (LittleEndian e)];
    field "write is_paa" [boolByte (IsPAA e)];
    field "write paa path" (list_byte_of_string (PAAFile e));
    field "write paa path" [x00];
    field "write pax suffix type" (PutUint32 (PaxSuffixType e));
    field "write mip count copy" (PutUint32 (MipMapCountCopy e)) ] ++
  loopCalls "write mipmap" mipCalls 0 (MipMaps e) ++
  [ field "write pax file size" (PutUint32 (PaxFileSize e)) ].

(** The calls for a whole file whose header passes the checks of [Write]. *)
Definition fileCalls (f : File) : list call :=
  [ field "write magic" (list_byte_of_string (effectiveMagic f));
    field "write version" (PutUint32 (effectiveVersion f));
    field "write texture count" (PutUint32 (Z.of_nat (length (Textures f)))) ] ++
  loopCalls "write texture entry" entryCalls 0 (Textures f).

(** What [Write] sets out to do with a file: the calls it makes, and the
    error it returns after them when a header check fails on the way. *)
Definition writePlan (f : File) : list call * option error :=
  if decide (String.length (effectiveMagic f) ≠ 4%nat)
  then ([], Some (WithStr ErrInvalidMagic (effectiveMagic f)))
  else if decide (effectiveVersion f ≠ SupportedVersion)
  then (take 1 (fileCalls f), Some (WithInt ErrUnsupportedVersion (effectiveVersion f)))
  else if MaxUint32 <? Z.of_nat (length (Textures f))
  then (take 2 (fileCalls f),
        Some (Wrap "write texture count"
                (WithInt ErrTooManyTextures (Z.of_nat (length (Textures f))))))
  else (fileCalls f, None).

(** The bytes passed by a list of calls. *)
Definition callBytes (calls : list call) : list byte := concat (snd <$> calls).

(** Two writers for the examples: a buffer that holds at most [cap] bytes
    (a write that does not fit stores what fits and is refused), and files
    whose writes always append. *)
Definition limitedBuffer (cap : nat) : Writer :=
  {| Sink := list byte;
     sinkWrite := λ p w,
       if decide (length w + length p ≤ cap)%nat then (None, w ++ p)
       else (Some (ErrExternal "short write"), w ++ take (cap - length w) p) |}.

Definition appendFiles : FileWrites :=
  {| fileWrite := λ path p disk,
       (None, <[path := default [] (disk !! path) ++ p]> disk) |}.

(** Files that hold at most [cap] bytes each. *)
Definition limitedFiles (cap : nat) : FileWrites :=
  {| fileWrite := λ path p disk,
       let cur := default [] (disk !! path) in
       if decide (length cur + length p ≤ cap)%nat then (None, <[path := cur ++ p]> disk)
       else (Some (ErrExternal "no space left on device"),
             <[path := cur ++ take (cap - length cur) p]> disk) |}.

(** [feeds a calls]: the encoding step [a] makes exactly the calls [calls]. *)
Definition feeds `{Writer} (a : Stream.Enc) (calls : list call) : Prop :=
  ∀ k, a k = feed calls k.

(** The file the sample builder builds. *)
Definition sampleBuilt : File :=
  newFile (omap (@builtEntry sampleHost samplePaa sampleBuilder)
                (inputs (@BuildSerial sampleHost samplePaa sampleBuilder).1)).

(* ===================================================================== *)
(** * Part II: properties                                                 *)
(* ===================================================================== *)

(** ** Worker-count resolution *)

Section workers.
Context `{Host}.

Lemma wrapInt_small x : - 2 ^ 63 <= x < 2 ^ 63 → wrapInt x = x.
Proof.
  intros Hx. unfold wrapInt.
  rewrite Z.mod_small by lia. lia.
Qed.

Lemma shiftl1_pow2 j : 0 <= j → Z.shiftl (2 ^ j) 1 = 2 ^ (j + 1).
Proof.
  intros Hj. rewrite Z.shiftl_mul_pow2 by lia.
  rewrite Z.pow_add_r by lia. reflexivity.
Qed.

Lemma pow2_lt_exp j k : 0 <= j → 2 ^ j < 2 ^ k → j < k.
Proof.
  intros Hj Hlt. destruct (Z_lt_le_dec j k) as [|Hge]; [done|].
  destruct (Z_lt_le_dec k 0) as [Hneg|Hpos].
  - rewrite (Z.pow_neg_r 2 k) in Hlt by lia.
    pose proof (Z.pow_pos_nonneg 2 j). lia.
  - pose proof (Z.pow_le_mono_r 2 k j). lia.
Qed.

(** The loop started at a power of two stops at the largest power of two
    not above [v], provided the fuel covers the exponents still to visit. *)
Lemma floorPow2_loop_spec v fuel : ∀ j,
  0 <= j → 2 ^ j <= v → v < 2 ^ 62 → 62 <= Z.of_nat fuel + j →
  ∃ k, floorPow2_loop fuel (2 ^ j) v = Some (2 ^ k) ∧
       j <= k ∧ 2 ^ k <= v < 2 ^ (k + 1).
Proof.
  induction fuel as [|fuel IH]; intros j Hj Hle Hv Hfuel.
  - assert (j < 62) by (apply pow2_lt_exp; lia). lia.
  - assert (j < 62) as Hj62 by (apply pow2_lt_exp; lia).
    simpl. rewrite shiftl1_pow2 by done.
    assert (2 ^ (j + 1) <= 2 ^ 62) by (apply Z.pow_le_mono_r; lia).
    rewrite wrapInt_small by (pose proof (Z.pow_pos_nonneg 2 (j + 1)); lia).
    destruct (Z.leb_spec (2 ^ (j + 1)) v) as [Hnext|Hstop].
    + destruct (IH (j + 1)) as (k & Hk & Hjk & Hbounds); [lia..|].
      exists k. split; [done|]. split; [lia|done].
    + exists j. split; [done|]. split; [lia|]. lia.
Qed.

Lemma floorPow2_spec v :
  2 <= v < 2 ^ 62 →
  ∃ k, floorPow2 v = Some (2 ^ k) ∧ 0 <= k ∧ 2 ^ k <= v < 2 ^ (k + 1).
Proof.
  intros [Hlo Hhi]. unfold floorPow2.
  destruct (Z.leb_spec v 1); [lia|].
  destruct (floorPow2_loop_spec v 64 0) as (k & Hk & H0k & Hb); [lia..|].
  exists k. auto.
Qed.

(** From [2 ^ 62] on the loop never leaves, whatever the fuel: [p << 1]
    wraps to the least [int], then to 0, and stays there.  The callers of
    [floorPow2] never pass such a value. *)
Lemma floorPow2_loop_zero v fuel : 0 <= v → floorPow2_loop fuel 0 v = None.
Proof.
  intros Hv. induction fuel as [|fuel IH]; cbn [floorPow2_loop]; [done|].
  change (wrapInt (Z.shiftl 0 1)) with 0. by destruct (Z.leb_spec 0 v); [|lia].
Qed.

Lemma floorPow2_loop_wrapped v fuel : 0 <= v → floorPow2_loop fuel (- 2 ^ 63) v = None.
Proof.
  intros Hv. destruct fuel as [|fuel]; cbn [floorPow2_loop]; [done|].
  change (wrapInt (Z.shiftl (- 2 ^ 63) 1)) with 0.
  destruct (Z.leb_spec 0 v); [|lia]. by apply floorPow2_loop_zero.
Qed.

Lemma floorPow2_loop_diverges v fuel : ∀ j,
  2 ^ 62 <= v < 2 ^ 63 → 0 <= j <= 62 → floorPow2_loop fuel (2 ^ j) v = None.
Proof.
  induction fuel as [|fuel IH]; intros j Hv Hj; cbn [floorPow2_loop]; [done|].
  rewrite shiftl1_pow2 by lia.
  destruct (decide (j = 62)) as [->|Hne].
  - change (wrapInt (2 ^ (62 + 1))) with (- 2 ^ 63).
    destruct (Z.leb_spec (- 2 ^ 63) v); [|lia].
    apply floorPow2_loop_wrapped. lia.
  - assert (2 ^ (j + 1) <= 2 ^ 62) by (apply Z.pow_le_mono_r; lia).
    rewrite wrapInt_small by (pose proof (Z.pow_pos_nonneg 2 (j + 1)); lia).
    destruct (Z.leb_spec (2 ^ (j + 1)) v); [|lia].
    apply IH; [done|lia].
Qed.

(** C6.  Worker-count resolution is a function of the requested count, the
    input count and the host parallelism, by four cases: at most one input
    gives 1; the automatic request gives the largest power of two not
    above min(max(GOMAXPROCS/4, 2), inputs); another request of at most 1
    gives 1; any other request gives min(request, inputs).  In every case
    the resolution returns. *)
Theorem resolveBuildWorkers_policy (requested fileCount : Z) :
  1 <= GOMAXPROCS < 2 ^ 63 →
  ∃ w, resolveBuildWorkers requested fileCount = Some w ∧
    ( (fileCount <= 1 ∧ w = 1)
    ∨ (1 < fileCount ∧ requested = WorkersAuto ∧
       let candidate := Z.min (Z.max (GOMAXPROCS ÷ 4) 2) fileCount in
       ∃ k, 0 <= k ∧ w = 2 ^ k ∧ w <= candidate < 2 * w)
    ∨ (1 < fileCount ∧ requested ≠ WorkersAuto ∧ requested <= 1 ∧ w = 1)
    ∨ (1 < fileCount ∧ requested ≠ WorkersAuto ∧ 1 < requested ∧
       w = Z.min requested fileCount) ).
Proof.
  intros Hprocs. unfold resolveBuildWorkers.
  destruct (Z.leb_spec fileCount 1) as [Hfc|Hfc].
  { exists 1. split; [done|]. left. done. }
  destruct (decide (requested = WorkersAuto)) as [Hauto|Hauto].
  - unfold autoBuildWorkers.
    set (candidate := Z.min (Z.max (GOMAXPROCS ÷ 4) 2) fileCount).
    assert (GOMAXPROCS ÷ 4 < 2 ^ 61) as Hq.
    { rewrite Z.quot_div_nonneg by lia.
      apply Z.div_lt_upper_bound; lia. }
    destruct (floorPow2_spec candidate) as (k & Hk & Hk0 & Hb).
    { unfold candidate. lia. }
    exists (2 ^ k). split; [done|]. right; left.
    split; [done|]. split; [done|].
    exists k. split; [done|]. split; [done|].
    rewrite Z.pow_add_r in Hb by lia. lia.
  - destruct (Z.leb_spec requested 1) as [Hreq|Hreq].
    + exists 1. split; [done|]. right; right; left. done.
    + exists (Z.min requested fileCount). split; [done|].
      right; right; right. done.
Qed.
End workers.

Lemma resolveBuildWorkers_policy_witness :
  1 <= @GOMAXPROCS sampleHost < 2 ^ 63 ∧
  ∃ w, @resolveBuildWorkers sampleHost WorkersAuto 100 = Some w ∧
    ( (100 <= 1 ∧ w = 1)
    ∨ (1 < 100 ∧ WorkersAuto = WorkersAuto ∧
       let candidate := Z.min (Z.max (@GOMAXPROCS sampleHost ÷ 4) 2) 100 in
       ∃ k, 0 <= k ∧ w = 2 ^ k ∧ w <= candidate < 2 * w)
    ∨ (1 < 100 ∧ WorkersAuto ≠ WorkersAuto ∧ WorkersAuto <= 1 ∧ w = 1)
    ∨ (1 < 100 ∧ WorkersAuto ≠ WorkersAuto ∧ 1 < WorkersAuto ∧
       w = Z.min WorkersAuto 100) ).
Proof.
  assert (1 <= @GOMAXPROCS sampleHost < 2 ^ 63) as Hprocs by (simpl; lia).
  split; [exact Hprocs|].
  exact (@resolveBuildWorkers_policy sampleHost WorkersAuto 100 Hprocs).
Defined.

(** The cases of the package's own test of the resolution (20 processors). *)
Example resolveBuildWorkers_cases :
  @resolveBuildWorkers sampleHost 0 100 = Some 1 ∧
  @resolveBuildWorkers sampleHost 1 100 = Some 1 ∧
  @resolveBuildWorkers sampleHost 8 3 = Some 3 ∧
  @resolveBuildWorkers sampleHost WorkersAuto 100 = Some 4 ∧
  @resolveBuildWorkers sampleHost WorkersAuto 3 = Some 2 ∧
  @resolveBuildWorkers sampleHost WorkersAuto 1 = Some 1.
Proof. repeat split; reflexivity. Qed.

(** ** Validator *)

(** Booleans of the source's conditions, as propositions. *)
Ltac unbool :=
  repeat first
    [ rewrite andb_true_iff in * | rewrite orb_true_iff in *
    | rewrite negb_true_iff in * | rewrite negb_false_iff in *
    | rewrite Z.eqb_eq in * | rewrite Z.eqb_neq in *
    | rewrite Z.ltb_lt in * | rewrite Z.ltb_ge in *
    | rewrite Z.leb_le in * | rewrite Z.leb_gt in *
    | rewrite bool_decide_eq_true in * | rewrite bool_decide_eq_false in * ].

Section validator.

Lemma flatten_VJoin l : flatten (VJoin l) = flattenAll l.
Proof.
  unfold flattenAll. induction l as [|x r IH]; [done|].
  simpl in *. by rewrite IH.
Qed.

Lemma flattenAll_app l1 l2 : flattenAll (l1 ++ l2) = flattenAll l1 ++ flattenAll l2.
Proof. unfold flattenAll. by rewrite fmap_app, concat_app. Qed.

Lemma elem_of_when_app c x rest y :
  y ∈ flattenAll (when c (VIssue x) ++ rest) ↔ (c = true ∧ y = x) ∨ y ∈ flattenAll rest.
Proof.
  rewrite flattenAll_app, elem_of_app.
  destruct c; simpl; unfold flattenAll; simpl.
  - rewrite list_elem_of_singleton. intuition congruence.
  - rewrite elem_of_nil. intuition congruence.
Qed.

Lemma reported_joinIssues l : reported (joinIssues l) = flattenAll l.
Proof. destruct l; [done|]. simpl joinIssues. apply flatten_VJoin. Qed.

Lemma joinIssues_None l : joinIssues l = None ↔ l = [].
Proof. destruct l; naive_solver. Qed.

(** The mip loop, started anywhere inside the mip list of [entry], reports
    exactly the violations of the mips it still has to visit. *)
Lemma validateMips_spec ei entry mips : ∀ pre prev,
  MipMaps entry = pre ++ mips →
  (∀ m', last pre = Some m' → prev = DataOffset m') →
  ∀ x, x ∈ flattenAll (validateMips ei (PaxFormat entry)
                         (Z.of_nat (length pre)) prev mips) ↔
       ∃ j m, (length pre ≤ j)%nat ∧ MipMaps entry !! j = Some m ∧
              MipViolation ei entry j m x.
Proof.
  induction mips as [|m rest IH]; intros pre prev Hsplit Hprev x.
  - simpl. unfold flattenAll. simpl. rewrite elem_of_nil.
    split; [done|]. intros (j & m & Hj & Hlook & _).
    apply lookup_lt_Some in Hlook. rewrite Hsplit, app_nil_r in Hlook. lia.
  - simpl validateMips.
    assert (MipMaps entry !! length pre = Some m) as Hm.
    { rewrite Hsplit. apply list_lookup_middle. done. }
    rewrite !elem_of_when_app.
    replace (Z.of_nat (length pre) + 1) with (Z.of_nat (length (pre ++ [m])))
      by (rewrite length_app; simpl; lia).
    rewrite (IH (pre ++ [m]) (DataOffset m)); cycle 1.
    { by rewrite <- app_assoc. }
    { intros m'. rewrite last_snoc. by intros [= <-]. }
    rewrite length_app. simpl length.
    split.
    + intros [[Hc ->]|[[Hc ->]|[[Hc ->]|[[Hc ->]|[[Hc ->]|Hrest]]]]].
      * exists (length pre), m. split; [lia|]. split; [done|].
        apply V_zero_dim. unbool. lia.
      * exists (length pre), m. split; [lia|]. split; [done|].
        apply V_always_zero. unbool. lia.
      * exists (length pre), m. split; [lia|]. split; [done|].
        apply V_always_three. unbool. lia.
      * exists (length pre), m. split; [lia|]. split; [done|].
        unbool. apply V_mip_format; lia.
      * exists (length pre), m. split; [lia|]. split; [done|].
        unbool. destruct Hc as [Hc1 Hc2].
        destruct (last pre) as [m'|] eqn:Hlast.
        2:{ apply last_None in Hlast. subst pre. simpl in Hc1. lia. }
        rewrite (Hprev m' eq_refl) in *.
        assert (length pre ≠ 0%nat) as Hne by (destruct pre; simpl in *; [lia|done]).
        apply (V_offset _ _ _ _ (pred (length pre)) m'); [lia| |lia].
        rewrite Hsplit, lookup_app_l by lia. by rewrite <- last_lookup.
      * destruct Hrest as (j & mj & Hj & Hlook & Hv).
        exists j, mj. split; [lia|]. done.
    + intros (j & mj & Hj & Hlook & Hv).
      destruct (decide (j = length pre)) as [->|Hne].
      2:{ do 5 right. exists j, mj. split; [lia|]. done. }
      rewrite Hm in Hlook. injection Hlook as <-.
      destruct Hv as [Hd|Hz|Ht|Hf1 Hf2|j' m' Hj' Hlook' Hoff].
      * left. split; [|done]. unbool. lia.
      * right; left. split; [|done]. unbool. lia.
      * do 2 right; left. split; [|done]. unbool. lia.
      * do 3 right; left. split; [|done]. unbool. lia.
      * do 4 right; left.
        assert (last pre = Some m') as Hlast.
        { rewrite last_lookup. rewrite Hj'. simpl.
          rewrite Hsplit, lookup_app_l in Hlook' by lia. done. }
        rewrite (Hprev m' Hlast).
        split; [|done]. unbool. lia.
Qed.

Lemma intToU32Strict_length {A} (l : list A) :
  match intToU32Strict (Z.of_nat (length l)) with
  | Ok v => v = Z.of_nat (length l) ∧ Z.of_nat (length l) <= MaxUint32
  | Err _ => MaxUint32 < Z.of_nat (length l)
  end.
Proof.
  unfold intToU32Strict, MaxUint32.
  destruct (Z.ltb_spec (Z.of_nat (length l)) 0); [lia|].
  destruct (Z.ltb_spec 4294967295 (Z.of_nat (length l))); simpl; [done|].
  rewrite Z.mod_small by lia. lia.
Qed.

Lemma entryIssues_spec entry ei x :
  x ∈ flattenAll (entryIssues entry ei) ↔ EntryViolation ei entry x.
Proof.
  unfold entryIssues.
  pose proof (intToU32Strict_length (MipMaps entry)) as Hconv.
  assert (match intToU32Strict (Z.of_nat (length (MipMaps entry))) with
          | Ok v => v
          | Err _ => 0
          end = mipLenOf entry) as HmipLen.
  { unfold mipLenOf. destruct (intToU32Strict _).
    - destruct (Z.ltb_spec MaxUint32 (Z.of_nat (length (MipMaps entry)))); lia.
    - destruct (Z.ltb_spec MaxUint32 (Z.of_nat (length (MipMaps entry)))); lia. }
  cbv zeta. rewrite HmipLen. rewrite !elem_of_when_app.
  rewrite (validateMips_spec ei entry (MipMaps entry) [] 0 eq_refl) by done.
  simpl length.
  split.
  - intros [[Hc ->]|[[Hc ->]|[[Hc ->]|[[Hc ->]|[[Hc ->]|[[Hc ->]|Hrest]]]]]].
    + apply V_path_empty. unbool. done.
    + apply V_format_range. unbool. done.
    + apply V_mip_len_range. destruct (intToU32Strict _); [done|lia].
    + apply V_count_len. unbool. done.
    + apply V_copy_len. unbool. done.
    + apply V_count_copy. unbool. done.
    + destruct Hrest as (j & m & _ & Hlook & Hv). by apply (V_mip _ _ j m).
  - intros [Hp|Hf|Hl|Hc|Hc|Hc|j m y Hlook Hv].
    + left. split; [|done]. unbool. done.
    + right; left. split; [|done]. unbool. done.
    + do 2 right; left. split; [|done].
      destruct (intToU32Strict _); [lia|done].
    + do 3 right; left. split; [|done]. unbool. done.
    + do 4 right; left. split; [|done]. unbool. done.
    + do 5 right; left. split; [|done]. unbool. done.
    + do 6 right. exists j, m. split; [lia|done].
Qed.

Lemma validateEntries_spec f textures : ∀ pre,
  Textures f = pre ++ textures →
  ∀ x, x ∈ flattenAll (validateEntries (Z.of_nat (length pre)) textures) ↔
       ∃ i entry, (length pre ≤ i)%nat ∧ Textures f !! i = Some entry ∧
                  EntryViolation (Z.of_nat i) entry x.
Proof.
  induction textures as [|entry rest IH]; intros pre Hsplit x.
  - simpl. unfold flattenAll. simpl. rewrite elem_of_nil.
    split; [done|]. intros (i & e & Hi & Hlook & _).
    apply lookup_lt_Some in Hlook. rewrite Hsplit, app_nil_r in Hlook. lia.
  - simpl validateEntries.
    assert (Textures f !! length pre = Some entry) as He.
    { rewrite Hsplit. by apply list_lookup_middle. }
    rewrite flattenAll_app, elem_of_app.
    replace (Z.of_nat (length pre) + 1) with (Z.of_nat (length (pre ++ [entry])))
      by (rewrite length_app; simpl; lia).
    rewrite (IH (pre ++ [entry])) by (by rewrite <- app_assoc).
    rewrite length_app. simpl length.
    assert (flattenAll match joinIssues (entryIssues entry (Z.of_nat (length pre))) with
                       | Some err => [err]
                       | None => []
                       end
            = flattenAll (entryIssues entry (Z.of_nat (length pre)))) as ->.
    { destruct (entryIssues entry _) as [|e0 l0]; [done|].
      simpl joinIssues. unfold flattenAll at 1. simpl.
      rewrite app_nil_r. apply (flatten_VJoin (e0 :: l0)). }
    rewrite entryIssues_spec.
    split.
    + intros [Hv|(i & e & Hi & Hlook & Hv)].
      * exists (length pre), entry. split; [lia|done].
      * exists i, e. split; [lia|done].
    + intros (i & e & Hi & Hlook & Hv).
      destruct (decide (i = length pre)) as [->|Hne].
      * left. rewrite He in Hlook. by injection Hlook as <-.
      * right. exists i, e. split; [lia|done].
Qed.

Lemma fileIssues_spec f x :
  x ∈ flattenAll (fileIssues f) ↔ FileViolation f x.
Proof.
  unfold fileIssues. rewrite !elem_of_when_app.
  rewrite (validateEntries_spec f (Textures f) [] eq_refl). simpl length.
  split.
  - intros [[Hc ->]|[[Hc ->]|[[Hc ->]|Hrest]]].
    + unbool. destruct Hc. by apply V_magic.
    + unbool. destruct Hc. by apply V_version.
    + unbool. by apply V_texture_count.
    + destruct Hrest as (i & e & _ & Hlook & Hv). by apply (V_entry _ i e).
  - intros [H1 H2|H1 H2|H1|i e y Hlook Hv].
    + left. split; [|done]. unbool. done.
    + right; left. split; [|done]. unbool. done.
    + do 2 right; left. split; [|done]. unbool. done.
    + do 3 right. exists i, e. split; [lia|done].
Qed.

(** C7.  For every file the validator returns success exactly when no
    invariant is violated; otherwise it returns one aggregate, and the
    violations inside that aggregate are exactly the violated invariants of
    the file, of all its entries and of all their mips (no check is skipped
    after an earlier one failed).  A magic violation is reported only for a
    non-empty magic and a version violation only for a non-zero version. *)
Theorem ValidateFile_reports_every_violation (f : File) :
  (ValidateFile (Some f) = None ↔ ∀ x, ¬ FileViolation f x) ∧
  (∀ e, ValidateFile (Some f) = Some e → ∃ l, e = VJoin l ∧ l ≠ []) ∧
  (∀ x, x ∈ reported (ValidateFile (Some f)) ↔ FileViolation f x) ∧
  (Magic f = "" → ∀ m, IssueMagic m ∉ reported (ValidateFile (Some f))) ∧
  (Version f = 0 → ∀ v, IssueVersion v ∉ reported (ValidateFile (Some f))).
Proof.
  assert (∀ x, x ∈ reported (ValidateFile (Some f)) ↔ FileViolation f x) as Hrep.
  { intros x. simpl. rewrite reported_joinIssues. apply fileIssues_spec. }
  split; [|split; [|split; [done|split]]].
  - split.
    + intros Hnone x Hx. apply Hrep in Hx. rewrite Hnone in Hx.
      simpl in Hx. by apply elem_of_nil in Hx.
    + intros Hno. simpl. apply joinIssues_None.
      destruct (fileIssues f) as [|e l] eqn:Hissues; [done|].
      exfalso.
      assert (∀ x, x ∉ flattenAll (e :: l)) as Hempty.
      { intros x Hx. apply (Hno x). apply fileIssues_spec. by rewrite Hissues. }
      (* every element of [fileIssues] carries at least one violation *)
      assert (∀ y, y ∈ fileIssues f → flatten y ≠ []) as Hnonempty.
      { clear. intros y. unfold fileIssues.
        rewrite !elem_of_app. unfold when.
        intros [Hy|[Hy|[Hy|Hy]]].
        - destruct (_ && _); [|by apply elem_of_nil in Hy].
          apply list_elem_of_singleton in Hy. by subst.
        - destruct (_ && _); [|by apply elem_of_nil in Hy].
          apply list_elem_of_singleton in Hy. by subst.
        - destruct (_ <? _); [|by apply elem_of_nil in Hy].
          apply list_elem_of_singleton in Hy. by subst.
        - revert Hy. generalize 0. induction (Textures f) as [|t ts IH]; intros i.
          + simpl. by intros ?%elem_of_nil.
          + simpl. rewrite elem_of_app. intros [Hy|Hy]; [|by eapply IH].
            destruct (entryIssues t i) as [|e0 l0] eqn:Hei; simpl in Hy;
              [by apply elem_of_nil in Hy|].
            apply list_elem_of_singleton in Hy. subst y.
            rewrite flatten_VJoin.
            assert (∃ z, e0 = VIssue z) as [z ->].
            { assert (e0 ∈ entryIssues t i) as Hin by (rewrite Hei; left).
              revert Hin. clear. unfold entryIssues, when.
              rewrite !elem_of_app.
              assert (∀ mips a b c d, e0 ∈ validateMips a b c d mips → ∃ z, e0 = VIssue z)
                as Hmips.
              { induction mips as [|m ms IHm]; intros a b c d; simpl.
                - by intros ?%elem_of_nil.
                - unfold when. rewrite !elem_of_app.
                  intros [Hy|[Hy|[Hy|[Hy|[Hy|Hy]]]]]; [..|by eapply IHm];
                    (match type of Hy with
                     | _ ∈ (if ?c then _ else _) => destruct c
                     end; [apply list_elem_of_singleton in Hy; eauto
                          |by apply elem_of_nil in Hy]). }
              intros [Hy|[Hy|[Hy|[Hy|[Hy|[Hy|Hy]]]]]]; [..|by eapply Hmips];
                (match type of Hy with
                 | _ ∈ (if ?c then _ else _) => destruct c
                 end; [apply list_elem_of_singleton in Hy; eauto
                      |by apply elem_of_nil in Hy]). }
            unfold flattenAll. simpl. done. }
      specialize (Hnonempty e ltac:(rewrite Hissues; left)).
      destruct (flatten e) as [|x xs] eqn:Hfe; [done|].
      apply (Hempty x). unfold flattenAll. simpl. rewrite Hfe. left.
  - intros e. simpl. destruct (fileIssues f) as [|e0 l]; [done|].
    simpl. intros [= <-]. by exists (e0 :: l).
  - intros Hmagic m Hin. apply Hrep in Hin.
    inversion Hin as [Hne _ Heq| | |i e x Hlook Hv]; subst; [done|].
    inversion Hv as [| | | | | |j mm y Hl Hmv]; subst.
    inversion Hmv.
  - intros Hversion v Hin. apply Hrep in Hin.
    inversion Hin as [|Hne _ Heq| |i e x Hlook Hv]; subst; [done|].
    inversion Hv as [| | | | | |j mm y Hl Hmv]; subst.
    inversion Hmv.
Qed.
End validator.

(** ** Encoder *)

Create HintDb emits.

Section encoder.

Lemma emits_wbytes p : emits (wbytes p) p.
Proof. by intros w. Qed.

Lemma emits_eskip : emits eskip [].
Proof. intros w. unfold eskip. by rewrite app_nil_r. Qed.

Lemma emits_eseq a b x y : emits a x → emits b y → emits (eseq a b) (x ++ y).
Proof.
  intros Ha Hb w. unfold eseq. rewrite Ha, Hb. by rewrite app_assoc.
Qed.

Lemma emits_ewrap ctx a x : emits a x → emits (ewrap ctx a) x.
Proof. intros Ha w. unfold ewrap. by rewrite Ha. Qed.

Lemma emits_ewrapAt ctx i a x : emits a x → emits (ewrapAt ctx i a) x.
Proof. intros Ha w. unfold ewrapAt. by rewrite Ha. Qed.

Lemma emits_esteps_nil : emits (esteps []) [].
Proof. apply emits_eskip. Qed.

Lemma emits_esteps_cons a l x y :
  emits a x → emits (esteps l) y → emits (esteps (a :: l)) (x ++ y).
Proof. apply emits_eseq. Qed.

Lemma emits_eq a x y : emits a x → x = y → emits a y.
Proof. by intros Ha <-. Qed.

Lemma emits_writeU8 v : emits (writeU8 v) [toByte v].
Proof. apply emits_wbytes. Qed.

Lemma emits_writeBool8 v : emits (writeBool8 v) [boolByte v].
Proof. destruct v; apply emits_wbytes. Qed.

Lemma emits_writeU16 v : emits (writeU16 v) (PutUint16 v).
Proof. apply emits_wbytes. Qed.

Lemma emits_writeU32 v : emits (writeU32 v) (PutUint32 v).
Proof. apply emits_wbytes. Qed.

Lemma emits_writeF32 v : emits (writeF32 v) (PutUint32 v).
Proof. apply emits_wbytes. Qed.

Lemma emits_writeByte4 c : emits (writeByte4 c) (byte4Bytes c).
Proof. destruct c as [[[c0 c1] c2] c3]. apply emits_wbytes. Qed.

Hint Resolve emits_wbytes emits_eskip emits_eseq emits_ewrap emits_ewrapAt
  emits_esteps_nil emits_esteps_cons emits_writeU8 emits_writeBool8
  emits_writeU16 emits_writeU32 emits_writeF32 emits_writeByte4 : emits.

Lemma emits_writeASCIIZ s :
  emits (writeASCIIZ s) (list_byte_of_string s ++ [x00]).
Proof.
  unfold writeASCIIZ. eapply emits_eq; [eauto 10 with emits|].
  by rewrite app_nil_r.
Qed.

Lemma emits_writeLoop {A} ctx (item : A → Enc) (g : A → list byte) xs :
  (∀ x, emits (item x) (g x)) →
  ∀ i, emits (writeLoop ctx item i xs) (concat (g <$> xs)).
Proof.
  intros Hitem. induction xs as [|x xs IH]; intros i; simpl.
  - apply emits_eskip.
  - apply emits_eseq; [apply emits_ewrapAt, Hitem|apply IH].
Qed.

Lemma emits_writeMipMap m : emits (writeMipMap m) (mipBytes m).
Proof.
  unfold writeMipMap. eapply emits_eq; [eauto 20 with emits|].
  unfold mipBytes. by rewrite app_nil_r.
Qed.

Hint Resolve emits_writeASCIIZ emits_writeMipMap : emits.

Lemma emits_writeTextureEntry e : emits (writeTextureEntry e) (entryBytes e).
Proof.
  unfold writeTextureEntry, entryBytes, entryHead, entryMiddle, float4Bytes.
  destruct (AverageColorF e) as [[[f0 f1] f2] f3].
  eapply emits_eq.
  - repeat (apply emits_esteps_cons;
            [first [ apply emits_writeLoop, emits_writeMipMap
                   | solve [eauto 5 with emits] ]|]).
    apply emits_esteps_nil.
  - rewrite app_nil_r, <- !app_assoc. reflexivity.
Qed.

(** [Write] in closed form: the error it returns and the bytes it has
    appended to the stream when it returns. *)
Lemma Write_closed_form (f : File) (w : list byte) :
  Write (Some f) w =
    if decide (String.length (effectiveMagic f) ≠ 4%nat)
    then (Some (WithStr ErrInvalidMagic (effectiveMagic f)), w)
    else if decide (effectiveVersion f ≠ SupportedVersion)
    then (Some (WithInt ErrUnsupportedVersion (effectiveVersion f)),
          w ++ list_byte_of_string (effectiveMagic f))
    else if MaxUint32 <? Z.of_nat (length (Textures f))
    then (Some (Wrap "write texture count"
                     (WithInt ErrTooManyTextures (Z.of_nat (length (Textures f))))),
          w ++ headerBytes f)
    else (None, w ++ headerBytes f ++
                PutUint32 (Z.of_nat (length (Textures f))) ++
                concat (entryBytes <$> Textures f)).
Proof.
  unfold Write. fold (effectiveMagic f). fold (effectiveVersion f).
  destruct (decide (String.length (effectiveMagic f) ≠ 4%nat)); [done|].
  unfold eseq at 1, ewrap at 1, wbytes at 1.
  destruct (decide (effectiveVersion f ≠ SupportedVersion)); [done|].
  unfold esteps. simpl foldr. unfold headerBytes.
  unfold eseq at 1. rewrite (emits_ewrap _ _ _ (emits_writeU32 _)).
  unfold eseq at 1, ewrap at 1, writeU32FromInt.
  pose proof (intToU32Strict_length (Textures f)) as Hconv.
  destruct (intToU32Strict _) as [u32|err].
  - destruct Hconv as [-> Hfit].
    destruct (Z.ltb_spec MaxUint32 (Z.of_nat (length (Textures f)))); [lia|].
    rewrite emits_writeU32. unfold eseq.
    rewrite (emits_writeLoop _ _ _ _ emits_writeTextureEntry).
    unfold eskip. by rewrite <- !app_assoc.
  - destruct (Z.ltb_spec MaxUint32 (Z.of_nat (length (Textures f)))); [|lia].
    unfold efail. by rewrite <- !app_assoc.
Qed.

Lemma entryHead_length e : length (entryHead e) = 44%nat.
Proof.
  unfold entryHead, float4Bytes, byte4Bytes.
  destruct (AverageColorF e) as [[[f0 f1] f2] f3].
  destruct (AverageColor e) as [[[a0 a1] a2] a3].
  destruct (MaxColor e) as [[[m0 m1] m2] m3].
  reflexivity.
Qed.

(** C2, refuted as stated: encoding a file whose only entry stores the
    counts 5 and 7 over an empty mip list does not produce the layout in
    which both count fields are the length of the mip list. *)
Lemma Write_mip_counts_not_from_length :
  let f := mkFile "" [skewedEntry] 0 in
  Write (Some f) [] ≠
    (None, headerBytes f ++ PutUint32 (Z.of_nat (length (Textures f))) ++
           concat (entryBytesDerived <$> Textures f)).
Proof. vm_compute. discriminate. Qed.

(** C2, amended.  For a file with an acceptable magic and version, the
    texture count on disk is the length of [Textures], and a length above
    the unsigned 32-bit range makes [Write] return the texture-count bounds
    error after the header, with no count written.  The two mip count
    fields of every entry are the stored [MipMapCount] and
    [MipMapCountCopy], written as they are, 44 bytes into the entry and
    right before the mip descriptors; the descriptors written are those of
    [MipMaps], one after another. *)
Theorem Write_count_fields (f : File) (w : list byte) :
  String.length (effectiveMagic f) = 4%nat →
  effectiveVersion f = SupportedVersion →
  Write (Some f) w =
    (if MaxUint32 <? Z.of_nat (length (Textures f))
     then (Some (Wrap "write texture count"
                      (WithInt ErrTooManyTextures (Z.of_nat (length (Textures f))))),
           w ++ headerBytes f)
     else (None, w ++ headerBytes f ++
                 PutUint32 (Z.of_nat (length (Textures f))) ++
                 concat (entryBytes <$> Textures f))) ∧
  ∀ e, emits (writeTextureEntry e)
             (entryHead e ++ PutUint32 (MipMapCount e) ++ entryMiddle e ++
              PutUint32 (MipMapCountCopy e) ++
              concat (mipBytes <$> MipMaps e) ++
              PutUint32 (PaxFileSize e)) ∧
       length (entryHead e) = 44%nat.
Proof.
  intros Hmagic Hversion. split.
  - rewrite Write_closed_form.
    destruct (decide (String.length (effectiveMagic f) ≠ 4%nat)); [done|].
    destruct (decide (effectiveVersion f ≠ SupportedVersion)); done.
  - intros e. split; [apply emits_writeTextureEntry|apply entryHead_length].
Qed.

Lemma Write_count_fields_witness :
  let f := mkFile "" [skewedEntry] 0 in
  String.length (effectiveMagic f) = 4%nat ∧
  effectiveVersion f = SupportedVersion ∧
  Write (Some f) [] =
    (None, headerBytes f ++ PutUint32 1 ++ concat (entryBytes <$> Textures f)).
Proof.
  intros f. split; [reflexivity|]. split; [reflexivity|].
  exact (proj1 (Write_count_fields f [] eq_refl eq_refl)).
Defined.

(** The part of the magic handling that does hold: an empty magic is
    replaced by the fixed tag, and a magic whose length is not 4 is
    refused before anything is written. *)
Lemma Write_empty_magic_substituted f :
  Magic f = "" → effectiveMagic f = FileMagic.
Proof. intros Hm. unfold effectiveMagic. by rewrite decide_True. Qed.

Lemma Write_magic_length_refused f w :
  Magic f ≠ "" → String.length (Magic f) ≠ 4%nat →
  Write (Some f) w = (Some (WithStr ErrInvalidMagic (Magic f)), w).
Proof.
  intros Hne Hlen. rewrite Write_closed_form. unfold effectiveMagic.
  destruct (decide (Magic f = "")); [done|]. by rewrite decide_True.
Qed.

(** C3, at the failing input: a file whose magic is the four bytes "XXXX"
    (non-empty, not the fixed tag) is encoded without error, and those
    four bytes are written as the signature. *)
Theorem Write_accepts_mismatched_magic :
  let f := mkFile "XXXX" [] 1 in
  Magic f ≠ "" ∧ Magic f ≠ FileMagic ∧
  Write (Some f) [] = (None, list_byte_of_string "XXXX" ++ PutUint32 1 ++ PutUint32 0).
Proof. split; [done|]. split; [done|]. reflexivity. Qed.
End encoder.

(** ** Little-endian primitives *)

Section bytes.

Lemma byteZ_range b : 0 <= byteZ b < 256.
Proof. unfold byteZ. pose proof (Byte.to_N_bounded b). lia. Qed.

Lemma toByte_mod x b : x `mod` 256 = byteZ b → toByte x = b.
Proof.
  intros Hx. unfold toByte. rewrite Hx. unfold byteZ.
  rewrite N2Z.id, Byte.of_to_N. done.
Qed.

Lemma toByte_byteZ b : toByte (byteZ b) = b.
Proof. apply toByte_mod. pose proof (byteZ_range b). by rewrite Z.mod_small. Qed.

Lemma byteZ_toByte v : 0 <= v < 256 → byteZ (toByte v) = v.
Proof.
  intros Hv. unfold toByte, byteZ. rewrite Z.mod_small by done.
  destruct (Byte.of_N (Z.to_N v)) as [b|] eqn:Hb.
  - apply Byte.to_of_N in Hb. simpl. rewrite Hb. lia.
  - apply Byte.of_N_None_iff in Hb. lia.
Qed.

Lemma byteZ_toByte_mod x : byteZ (toByte x) = x `mod` 256.
Proof.
  unfold toByte.
  assert (0 <= x `mod` 256 < 256) as Hm by (apply Z.mod_pos_bound; lia).
  fold (toByte x). unfold toByte.
  destruct (Byte.of_N (Z.to_N (x `mod` 256))) as [b|] eqn:Hb.
  - apply Byte.to_of_N in Hb. simpl. unfold byteZ. rewrite Hb. lia.
  - apply Byte.of_N_None_iff in Hb. lia.
Qed.

Lemma lor_shiftl_add a b n :
  0 <= n → 0 <= a < 2 ^ n → Z.lor a (Z.shiftl b n) = a + b * 2 ^ n.
Proof.
  intros Hn Ha. rewrite <- Z.shiftl_mul_pow2 by done.
  rewrite <- Z.add_lor_land.
  assert (Z.land a (Z.shiftl b n) = 0) as ->; [|lia].
  apply Z.bits_inj'. intros i Hi.
  rewrite Z.land_spec, Z.bits_0.
  destruct (Z.lt_ge_cases i n).
  - rewrite Z.shiftl_spec_low by done. apply andb_false_r.
  - rewrite <- (Z.mod_small a (2 ^ n)) by done.
    rewrite Z.mod_pow2_bits_high by lia. done.
Qed.

Lemma Uint16_sum b0 b1 : Uint16 [b0; b1] = byteZ b0 + byteZ b1 * 2 ^ 8.
Proof.
  unfold Uint16, byteAt. simpl nth.
  pose proof (byteZ_range b0). by rewrite lor_shiftl_add by lia.
Qed.

Lemma Uint32_sum b0 b1 b2 b3 :
  Uint32 [b0; b1; b2; b3] =
    byteZ b0 + byteZ b1 * 2 ^ 8 + byteZ b2 * 2 ^ 16 + byteZ b3 * 2 ^ 24.
Proof.
  unfold Uint32, byteAt. simpl nth.
  pose proof (byteZ_range b0). pose proof (byteZ_range b1).
  pose proof (byteZ_range b2). pose proof (byteZ_range b3).
  rewrite (lor_shiftl_add (byteZ b0)) by lia.
  rewrite (lor_shiftl_add (_ + _)) by lia.
  rewrite (lor_shiftl_add (_ + _)) by lia.
  done.
Qed.

Lemma Uint16_range b : 0 <= Uint16 b < 2 ^ 16.
Proof.
  unfold Uint16.
  pose proof (byteZ_range (byteAt b 0)). pose proof (byteZ_range (byteAt b 1)).
  rewrite lor_shiftl_add by lia. lia.
Qed.

Lemma Uint32_range b : 0 <= Uint32 b < 2 ^ 32.
Proof.
  unfold Uint32.
  pose proof (byteZ_range (byteAt b 0)). pose proof (byteZ_range (byteAt b 1)).
  pose proof (byteZ_range (byteAt b 2)). pose proof (byteZ_range (byteAt b 3)).
  rewrite (lor_shiftl_add (byteZ _)) by lia.
  rewrite (lor_shiftl_add (_ + _)) by lia.
  rewrite (lor_shiftl_add (_ + _)) by lia.
  lia.
Qed.

Lemma PutUint16_Uint16 b0 b1 : PutUint16 (Uint16 [b0; b1]) = [b0; b1].
Proof.
  unfold PutUint16. rewrite Uint16_sum.
  pose proof (byteZ_range b0). pose proof (byteZ_range b1).
  rewrite Z.shiftr_div_pow2 by lia.
  f_equal; [|f_equal]; apply toByte_mod.
  - change (2 ^ 8) with 256. Z.div_mod_to_equations. lia.
  - change (2 ^ 8) with 256. Z.div_mod_to_equations. lia.
Qed.

Lemma PutUint32_Uint32 b0 b1 b2 b3 :
  PutUint32 (Uint32 [b0; b1; b2; b3]) = [b0; b1; b2; b3].
Proof.
  unfold PutUint32. rewrite Uint32_sum.
  pose proof (byteZ_range b0). pose proof (byteZ_range b1).
  pose proof (byteZ_range b2). pose proof (byteZ_range b3).
  rewrite !Z.shiftr_div_pow2 by lia.
  change (2 ^ 8) with 256. change (2 ^ 16) with 65536.
  change (2 ^ 24) with 16777216.
  f_equal; [|f_equal; [|f_equal; [|f_equal]]]; apply toByte_mod;
    Z.div_mod_to_equations; lia.
Qed.

Lemma Uint32_PutUint32 v : 0 <= v < 2 ^ 32 → Uint32 (PutUint32 v) = v.
Proof.
  intros Hv. unfold PutUint32. rewrite Uint32_sum.
  rewrite !byteZ_toByte_mod.
  rewrite !Z.shiftr_div_pow2 by lia.
  change (2 ^ 8) with 256 in *. change (2 ^ 16) with 65536 in *.
  change (2 ^ 24) with 16777216 in *. change (2 ^ 32) with 4294967296 in *.
  Z.div_mod_to_equations. lia.
Qed.
End bytes.

(** ** Decoder: what a successful read says about the stream *)

(** Take apart the hypothesis [H : d s = Ok _] of a decoder written with
    [dlet]: one equation per primitive read, in stream order. *)
Ltac dinvert H :=
  repeat match type of H with
    | context [match ?x with Ok _ => _ | Err _ => _ end] =>
        lazymatch x with
        | context [match _ with Ok _ => _ | Err _ => _ end] => fail
        | _ => destruct x as [[? ?]|?] eqn:?; cbn beta iota in H; [|discriminate H]
        end
    end.

Section decoder.

Lemma readFull_Ok n s b s' :
  readFull n s = Ok (b, s') → s = b ++ s' ∧ length b = n.
Proof.
  unfold readFull. destruct (decide (n ≤ length s)%nat) as [Hn|Hn].
  - intros [= <- <-]. split; [by rewrite take_drop|].
    rewrite length_take. lia.
  - by destruct s.
Qed.

Lemma readFull_app b s : readFull (length b) (b ++ s) = Ok (b, s).
Proof.
  unfold readFull. rewrite decide_True by (rewrite length_app; lia).
  by rewrite take_app_length, drop_app_length.
Qed.

Lemma readU8_Ok s v s' :
  readU8 s = Ok (v, s') → s = [toByte v] ++ s'.
Proof.
  unfold readU8, dbind, dret. intros H. dinvert H.
  match goal with Hr : readFull _ _ = _ |- _ => apply readFull_Ok in Hr as [-> Hlen] end.
  injection H as <- <-.
  destruct l as [|b0 [|? ?]]; try discriminate.
  unfold byteAt. simpl nth. by rewrite toByte_byteZ.
Qed.

Lemma readBool8_Ok s v s' :
  readBool8 s = Ok (v, s') → ∃ x, s = [x] ++ s' ∧ renorm x (boolByte v).
Proof.
  unfold readBool8, readU8, dbind, dret. intros H. dinvert H.
  match goal with Hr : readFull _ _ = _ |- _ => apply readFull_Ok in Hr as [-> Hlen] end.
  injection H as <- <-.
  destruct l as [|b0 [|? ?]]; try discriminate.
  exists b0. split; [done|]. unfold byteAt. simpl nth.
  destruct (Z.eqb_spec (byteZ b0) 0) as [Hz|Hnz]; simpl.
  - left. rewrite <- (toByte_byteZ b0), Hz. reflexivity.
  - destruct (decide (b0 = x01)) as [->|Hne]; [by left|].
    right. split; [done|]. split; [|done]. by intros ->.
Qed.

Lemma readU16_Ok s v s' :
  readU16 s = Ok (v, s') → s = PutUint16 v ++ s'.
Proof.
  unfold readU16, dbind, dret. intros H. dinvert H.
  match goal with Hr : readFull _ _ = _ |- _ => apply readFull_Ok in Hr as [-> Hlen] end.
  injection H as <- <-.
  destruct l as [|b0 [|b1 [|? ?]]]; try discriminate.
  by rewrite PutUint16_Uint16.
Qed.

Lemma readU32_Ok s v s' :
  readU32 s = Ok (v, s') → s = PutUint32 v ++ s'.
Proof.
  unfold readU32, dbind, dret. intros H. dinvert H.
  match goal with Hr : readFull _ _ = _ |- _ => apply readFull_Ok in Hr as [-> Hlen] end.
  injection H as <- <-.
  destruct l as [|b0 [|b1 [|b2 [|b3 [|? ?]]]]]; try discriminate.
  by rewrite PutUint32_Uint32.
Qed.

Lemma readU32_Ok_range s v s' : readU32 s = Ok (v, s') → 0 <= v < 2 ^ 32.
Proof.
  unfold readU32, dbind, dret. intros H. dinvert H.
  injection H as <- <-. apply Uint32_range.
Qed.

Lemma readF32_Ok s v s' :
  readF32 s = Ok (v, s') → s = PutUint32 v ++ s'.
Proof. apply readU32_Ok. Qed.

Lemma readByte4_Ok s c s' :
  readByte4 s = Ok (c, s') → s = byte4Bytes c ++ s'.
Proof.
  unfold readByte4, dbind, dret. intros H. dinvert H.
  match goal with Hr : readFull _ _ = _ |- _ => apply readFull_Ok in Hr as [-> Hlen] end.
  injection H as <- <-.
  destruct l as [|b0 [|b1 [|b2 [|b3 [|? ?]]]]]; try discriminate.
  reflexivity.
Qed.

Lemma readASCIIZ_loop_Ok s : ∀ buf str s',
  readASCIIZ_loop buf s = Ok (str, s') →
  ∃ t, str = string_of_list_byte (buf ++ t) ∧ s = (t ++ [x00]) ++ s' ∧ x00 ∉ t.
Proof.
  induction s as [|b s IH]; intros buf str s'; simpl; [done|].
  destruct (decide (b = x00)) as [->|Hb].
  - intros [= <- <-]. exists []. rewrite app_nil_r. split; [done|].
    split; [done|]. by intros ?%elem_of_nil.
  - intros (t & -> & -> & Ht)%IH. exists (b :: t).
    rewrite <- app_assoc. split; [done|]. split; [done|].
    rewrite elem_of_cons. intros [?|?]; [by subst|done].
Qed.

Lemma readASCIIZ_Ok s str s' :
  readASCIIZ s = Ok (str, s') → s = (list_byte_of_string str ++ [x00]) ++ s'.
Proof.
  intros (t & -> & -> & _)%readASCIIZ_loop_Ok. simpl.
  by rewrite list_byte_of_string_of_list_byte.
Qed.

Lemma dwrap_Ok {A} ctx (m : Dec A) s r : dwrap ctx m s = Ok r → m s = Ok r.
Proof. unfold dwrap. by destruct (m s). Qed.

Lemma dwrapAt_Ok {A} ctx i (m : Dec A) s r : dwrapAt ctx i m s = Ok r → m s = Ok r.
Proof. unfold dwrapAt. by destruct (m s). Qed.

Lemma readMipMap_Ok s m s' :
  readMipMap s = Ok (m, s') → s = mipBytes m ++ s'.
Proof.
  unfold readMipMap, dbind, dwrap, dret. intros H. dinvert H.
  injection H as <- <-.
  repeat match goal with
    | Hr : readU16 _ = Ok _ |- _ => apply readU16_Ok in Hr
    | Hr : readU8 _ = Ok _ |- _ => apply readU8_Ok in Hr
    | Hr : readU32 _ = Ok _ |- _ => apply readU32_Ok in Hr
    end.
  subst. unfold mipBytes. cbn [Width Height AlwaysZero MipPaxFormat AlwaysThree DataOffset].
  by rewrite <- !app_assoc.
Qed.

(** A loop of [k] reads returns [k] items and has consumed their
    encodings, up to [R] on the bytes. *)
Lemma readLoop_Ok {A} (R : byte → byte → Prop) ctx (item : Dec A) (g : A → list byte) :
  (∀ s x s', item s = Ok (x, s') → ∃ c, s = c ++ s' ∧ Forall2 R c (g x)) →
  ∀ k i s xs s', readLoop ctx item i k s = Ok (xs, s') →
    length xs = k ∧ ∃ c, s = c ++ s' ∧ Forall2 R c (concat (g <$> xs)).
Proof.
  intros Hitem. induction k as [|k IH]; intros i s xs s'; simpl.
  - unfold dret. intros [= <- <-]. split; [done|]. exists []. by split.
  - unfold dbind, dwrapAt, dret. intros H. dinvert H. injection H as <- <-.
    match goal with Hi : item _ = Ok _ |- _ => apply Hitem in Hi as (c1 & -> & Hc1) end.
    match goal with Hl : readLoop _ _ _ _ _ = Ok _ |- _ =>
      apply IH in Hl as (Hlen & c2 & -> & Hc2) end.
    split; [simpl; lia|]. exists (c1 ++ c2). rewrite <- app_assoc.
    split; [done|]. simpl. by apply Forall2_app.
Qed.

Lemma Forall2_renorm_refl l : Forall2 renorm l l.
Proof. apply Forall_Forall2_diag, Forall_forall. intros x _. by left. Qed.

Lemma readTextureEntry_Ok s e s' :
  readTextureEntry s = Ok (e, s') →
  length (MipMaps e) = Z.to_nat (MipMapCountCopy e) ∧
  ∃ c, s = c ++ s' ∧ Forall2 renorm c (entryBytes e).
Proof.
  unfold readTextureEntry, dbind, dwrap, dwrapAt, dret. intros H. dinvert H.
  injection H as <- <-.
  match goal with Hl : readLoop _ _ _ _ _ = Ok _ |- _ =>
    apply (readLoop_Ok renorm _ _ mipBytes) in Hl as (Hlen & cm & Hs & Hcm) end.
  2:{ intros sm x sm' Hx. apply readMipMap_Ok in Hx. exists (mipBytes x).
      split; [done|]. apply Forall2_renorm_refl. }
  split; [done|].
  repeat match goal with
    | Hr : readU32 _ = Ok _ |- _ => apply readU32_Ok in Hr
    | Hr : readF32 _ = Ok _ |- _ => apply readF32_Ok in Hr
    | Hr : readByte4 _ = Ok _ |- _ => apply readByte4_Ok in Hr
    | Hr : readASCIIZ _ = Ok _ |- _ => apply readASCIIZ_Ok in Hr
    | Hr : readBool8 _ = Ok _ |- _ => apply readBool8_Ok in Hr as (? & Hr & ?)
    end.
  subst.
  eexists. split; [rewrite !app_assoc; reflexivity|].
  unfold entryBytes, entryHead, entryMiddle, float4Bytes.
  cbn [PAAFile MipMaps ColorPaletteCount PalettePtr AverageColorF AverageColor
       MaxColor ClampFlags TransparentColor HasMaxCtagg IsAlpha IsTransparent
       IsAlphaNonOpaque MipMapCount PaxFormat LittleEndian IsPAA PaxSuffixType
       MipMapCountCopy PaxFileSize].
  rewrite <- !app_assoc.
  repeat (apply Forall2_app;
          [first [ apply Forall2_renorm_refl
                 | assumption
                 | constructor; [assumption|constructor] ]|]).
  apply Forall2_renorm_refl.
Qed.

Lemma Read_Ok B f rest :
  Read B = Ok (f, rest) →
  Magic f = FileMagic ∧ Version f = SupportedVersion ∧
  Z.of_nat (length (Textures f)) < 2 ^ 32 ∧
  ∃ c, B = c ++ rest ∧ Forall2 renorm c (fileBytes f).
Proof.
  unfold Read, dbind, dwrap, dret, dfail. intros H. dinvert H.
  destruct (decide (string_of_list_byte l ≠ FileMagic)) as [|Hmagic]; [done|].
  apply dec_stable in Hmagic.
  dinvert H.
  destruct (decide (z ≠ SupportedVersion)) as [|Hversion]; [done|].
  apply dec_stable in Hversion.
  dinvert H. injection H as <- <-.
  match goal with Hl : readLoop _ _ _ _ _ = Ok _ |- _ =>
    apply (readLoop_Ok renorm _ _ entryBytes) in Hl as (Hlen & ce & Hs & Hce) end.
  2:{ intros se x se' Hx. by apply readTextureEntry_Ok in Hx as [_ Hx]. }
  repeat match goal with
    | Hr : readU32 _ = Ok _ |- _ =>
        pose proof (readU32_Ok_range _ _ _ Hr); apply readU32_Ok in Hr
    | Hr : readFull _ _ = Ok _ |- _ => apply readFull_Ok in Hr as [Hr ?]
    end.
  subst. cbn [Magic Version Textures].
  split; [done|]. split; [done|]. split; [lia|].
  eexists. split; [rewrite !app_assoc; reflexivity|].
  unfold fileBytes, headerBytes, effectiveMagic, effectiveVersion.
  cbn [Magic Version Textures]. rewrite Hmagic, Hlen.
  rewrite <- (list_byte_of_string_of_list_byte l) at 1. rewrite Hmagic.
  rewrite Z2Nat.id by lia. simpl.
  repeat (constructor; [by left|]). done.
Qed.

(** C1, refuted as stated: the decoder accepts a buffer with a byte after
    the last entry and a buffer whose flag byte is 2, and re-encoding the
    decoded file gives back neither. *)
Lemma Read_then_Write_not_identity :
  (∃ f rest, Read trailingByteBuffer = Ok (f, rest) ∧
             Write (Some f) [] ≠ (None, trailingByteBuffer)) ∧
  (∃ f, Read flagTwoBuffer = Ok (f, []) ∧
        Write (Some f) [] ≠ (None, flagTwoBuffer)).
Proof.
  split.
  - eexists _, _. split; [vm_compute; reflexivity|]. vm_compute. discriminate.
  - eexists. split; [vm_compute; reflexivity|]. vm_compute. discriminate.
Qed.

(** Reads of a stream whose first bytes are known. *)
Lemma readU32_cons b0 b1 b2 b3 s :
  readU32 (b0 :: b1 :: b2 :: b3 :: s) = Ok (Uint32 [b0; b1; b2; b3], s).
Proof.
  unfold readU32, dbind.
  pose proof (readFull_app [b0; b1; b2; b3] s) as Hr.
  cbn [length app] in Hr. by rewrite Hr.
Qed.

Lemma readF32_cons b0 b1 b2 b3 s :
  readF32 (b0 :: b1 :: b2 :: b3 :: s) = Ok (Uint32 [b0; b1; b2; b3], s).
Proof. apply readU32_cons. Qed.

Lemma readByte4_cons b0 b1 b2 b3 s :
  readByte4 (b0 :: b1 :: b2 :: b3 :: s) = Ok ((b0, b1, b2, b3), s).
Proof.
  unfold readByte4, dbind.
  pose proof (readFull_app [b0; b1; b2; b3] s) as Hr.
  cbn [length app] in Hr. by rewrite Hr.
Qed.

Lemma readBool8_cons b0 s :
  readBool8 (b0 :: s) = Ok (negb (byteZ b0 =? 0), s).
Proof.
  unfold readBool8, readU8, dbind.
  pose proof (readFull_app [b0] s) as Hr.
  cbn [length app] in Hr. by rewrite Hr.
Qed.

(** The mip_count field does not steer the decoder: with any other value
    in its place the same stream decodes to the same entry, that field
    apart. *)
Lemma readTextureEntry_mip_count_free pre c c' post e r :
  length pre = 44%nat →
  readTextureEntry (pre ++ PutUint32 c ++ post) = Ok (e, r) →
  MipMapCount e = Uint32 (PutUint32 c) ∧
  readTextureEntry (pre ++ PutUint32 c' ++ post)
    = Ok (withMipMapCount (Uint32 (PutUint32 c')) e, r).
Proof.
  intros Hlen.
  do 44 (destruct pre as [|? pre]; [discriminate Hlen|]).
  destruct pre; [clear Hlen|discriminate Hlen].
  change (PutUint32 c ++ post)
    with (toByte c :: toByte (c ≫ 8) :: toByte (c ≫ 16) :: toByte (c ≫ 24) :: post).
  change (PutUint32 c' ++ post)
    with (toByte c' :: toByte (c' ≫ 8) :: toByte (c' ≫ 16) :: toByte (c' ≫ 24) :: post).
  cbn [app].
  unfold readTextureEntry, dbind, dwrap, dwrapAt, dret.
  repeat (first [ rewrite readU32_cons | rewrite readF32_cons
                | rewrite readByte4_cons | rewrite readBool8_cons ];
          cbn beta iota).
  fold (PutUint32 c). fold (PutUint32 c').
  repeat match goal with
    | |- context [match ?x with Ok _ => _ | Err _ => _ end] =>
        lazymatch x with
        | context [match _ with Ok _ => _ | Err _ => _ end] => fail
        | _ => destruct x as [[? ?]|?]; cbn beta iota; [|by intros]
        end
    end.
  intros [= <- <-]. split; reflexivity.
Qed.

(** C9.  The decoder reads exactly mip_count_copy mip descriptors.  The
    mip_count field, the four bytes that follow the first 44 bytes of an
    entry, is stored as read and nothing else depends on it: with any
    other value [c'] in its place the stream still decodes, to the same
    entry with [MipMapCount = c'], and when [c'] differs from
    mip_count_copy it is the validator that reports the mismatch. *)
Theorem readTextureEntry_ignores_mip_count pre c c' post e r :
  length pre = 44%nat →
  0 <= c < 2 ^ 32 →
  0 <= c' < 2 ^ 32 →
  readTextureEntry (pre ++ PutUint32 c ++ post) = Ok (e, r) →
  MipMapCount e = c ∧
  length (MipMaps e) = Z.to_nat (MipMapCountCopy e) ∧
  readTextureEntry (pre ++ PutUint32 c' ++ post) = Ok (withMipMapCount c' e, r) ∧
  ∀ i, c' ≠ MipMapCountCopy e →
    IssueMipCountCopy i c' (MipMapCountCopy e)
      ∈ reported (ValidateEntry (Some (withMipMapCount c' e)) i).
Proof.
  intros Hlen Hc Hc' Hread.
  destruct (readTextureEntry_mip_count_free pre c c' post e r Hlen Hread)
    as [Hcount Hread'].
  rewrite Uint32_PutUint32 in Hcount, Hread' by done.
  split; [done|]. split; [by apply readTextureEntry_Ok in Hread as [? _]|].
  split; [done|].
  intros i Hne. simpl. rewrite reported_joinIssues.
  apply entryIssues_spec.
  apply (V_count_copy i (withMipMapCount c' e)). done.
Qed.

Lemma readTextureEntry_ignores_mip_count_witness :
  let pre := take 44 (entryBytes sampleEntry) in
  let post := drop 48 (entryBytes sampleEntry) in
  readTextureEntry (pre ++ PutUint32 1 ++ post) = Ok (sampleEntry, []) ∧
  readTextureEntry (pre ++ PutUint32 9 ++ post)
    = Ok (withMipMapCount 9 sampleEntry, []) ∧
  IssueMipCountCopy 0 9 1
    ∈ reported (ValidateEntry (Some (withMipMapCount 9 sampleEntry)) 0).
Proof.
  intros pre post.
  assert (readTextureEntry (pre ++ PutUint32 1 ++ post) = Ok (sampleEntry, []))
    as Hread by (vm_compute; reflexivity).
  split; [exact Hread|].
  destruct (readTextureEntry_ignores_mip_count pre 1 9 post sampleEntry []
              eq_refl ltac:(lia) ltac:(lia) Hread) as (_ & _ & Hread' & Hreport).
  split; [exact Hread'|].
  apply (Hreport 0). discriminate.
Defined.
End decoder.


(** ** Suffix classifier *)

Section strings.
Local Open Scope nat_scope.
Local Arguments String.append !_ _ / : simpl nomatch.

Lemma str_app_length a b : String.length (a +:+ b) = String.length a + String.length b.
Proof. induction a as [|c a IH]; simpl; [done|]. by rewrite IH. Qed.

Lemma str_app_assoc a b c : (a +:+ b) +:+ c = a +:+ (b +:+ c).
Proof. induction a as [|x a IH]; simpl; [done|]. by rewrite IH. Qed.

Lemma str_length_zero s : String.length s = 0 → s = EmptyString.
Proof. by destruct s. Qed.

Lemma sliceTo_sliceFrom n : ∀ s, s = sliceTo n s +:+ sliceFrom n s.
Proof.
  induction n as [|n IH]; intros [|c s]; simpl; try done.
  by rewrite <- IH.
Qed.

Lemma sliceTo_length n : ∀ s, String.length (sliceTo n s) = Nat.min n (String.length s).
Proof.
  induction n as [|n IH]; intros [|c s]; simpl; try done.
  by rewrite IH.
Qed.

Lemma sliceFrom_length n : ∀ s, String.length (sliceFrom n s) = String.length s - n.
Proof.
  induction n as [|n IH]; intros [|c s]; simpl; try done.
Qed.

Lemma sliceFrom_app pre t : sliceFrom (String.length pre) (pre +:+ t) = t.
Proof. induction pre as [|c pre IH]; simpl; done. Qed.

Lemma sliceFrom_add a : ∀ b s, sliceFrom (a + b) s = sliceFrom b (sliceFrom a s).
Proof.
  induction a as [|a IH]; intros b s; simpl; [done|].
  destruct s as [|c s]; [|apply IH].
  by destruct b.
Qed.

Lemma HasPrefix_spec p : ∀ s, HasPrefix s p = true ↔ ∃ post, s = p +:+ post.
Proof.
  induction p as [|c p IH]; intros s; simpl.
  - split; [by exists s|done].
  - destruct s as [|d s].
    + split; [done|]. by intros [post ?].
    + rewrite andb_true_iff, bool_decide_eq_true, IH. split.
      * intros [-> [post ->]]. by exists post.
      * intros [post [= -> ->]]. split; [done|]. by exists post.
Qed.

Lemma Index_Some s : ∀ sub i,
  Index s sub = Some i →
  HasPrefix (sliceFrom i s) sub = true ∧ i ≤ String.length s ∧
  ∀ j, j < i → HasPrefix (sliceFrom j s) sub = false.
Proof.
  induction s as [|c s IH]; intros sub i; simpl.
  - destruct (HasPrefix EmptyString sub) eqn:Hp; [|done].
    intros [= <-]. split; [done|]. split; [done|]. lia.
  - destruct (HasPrefix (String c s) sub) eqn:Hp.
    + intros [= <-]. split; [done|]. split; [lia|]. lia.
    + destruct (Index s sub) as [i'|] eqn:Hi; [|done].
      simpl. intros [= <-].
      destruct (IH sub i' Hi) as (Hat & Hle & Hmin).
      split; [done|]. split; [lia|].
      intros [|j] Hj; [done|]. simpl. apply Hmin. lia.
Qed.

Lemma Index_None s : ∀ sub,
  Index s sub = None → ∀ j, HasPrefix (sliceFrom j s) sub = false.
Proof.
  induction s as [|c s IH]; intros sub; simpl.
  - destruct (HasPrefix EmptyString sub) eqn:Hp; [done|].
    intros _ [|j]; done.
  - destruct (HasPrefix (String c s) sub) eqn:Hp; [done|].
    destruct (Index s sub) as [i'|] eqn:Hi; [done|].
    intros _ [|j]; [done|]. simpl. by apply IH.
Qed.

Lemma get_app_length pre post :
  String.get (String.length pre) (pre +:+ post) = String.get 0 post.
Proof. induction pre as [|c pre IH]; simpl; done. Qed.

Lemma get_lt n : ∀ s, n < String.length s → ∃ ch, String.get n s = Some ch.
Proof.
  induction n as [|n IH]; intros [|c s]; simpl; try lia.
  - by exists c.
  - intros Hn. apply IH. lia.
Qed.

Lemma isSeparator_spec ch :
  isSeparator ch = true ↔ (ch = "_"%char ∨ ch = "-"%char ∨ ch = "."%char).
Proof.
  unfold isSeparator. rewrite !orb_true_iff, !bool_decide_eq_true. tauto.
Qed.

(** The boundary match, phrased with the operations the loop uses. *)
Lemma boundaryMatchAt_iff s token pos :
  boundaryMatchAt s token pos ↔
  HasPrefix (sliceFrom pos s) token = true ∧ pos ≤ String.length s ∧
  (String.length s ≤ pos + String.length token ∨
   ∃ ch, String.get (pos + String.length token) s = Some ch ∧ isSeparator ch = true).
Proof.
  split.
  - intros (pre & post & -> & <- & Hpost).
    rewrite sliceFrom_app. split; [apply HasPrefix_spec; by exists post|].
    rewrite !str_app_length. split; [lia|].
    destruct Hpost as [->|(ch & post' & -> & Hch)]; [left; simpl; lia|].
    right. exists ch. rewrite <- str_app_assoc, <- str_app_length.
    rewrite get_app_length. split; [done|]. by apply isSeparator_spec.
  - intros (Hpre & Hpos & Hnext).
    apply HasPrefix_spec in Hpre as [post Hpost].
    pose proof (sliceTo_sliceFrom pos s) as Hs. rewrite Hpost in Hs.
    pose proof (sliceTo_length pos s) as Hlen.
    rewrite Nat.min_l in Hlen by done.
    exists (sliceTo pos s), post. split; [done|]. split; [done|].
    assert (String.length s = pos + String.length token + String.length post) as Hl.
    { rewrite Hs at 1. rewrite !str_app_length. lia. }
    destruct Hnext as [Hend|(ch & Hget & Hsep)].
    + left. apply str_length_zero. lia.
    + right.
      assert (String.get (pos + String.length token) s = String.get 0 post) as Hg.
      { rewrite Hs. generalize dependent (sliceTo pos s). intros pre _ <-.
        by rewrite <- str_app_assoc, <- str_app_length, get_app_length. }
      rewrite Hg in Hget.
      destruct post as [|ch' post']; [done|]. simpl in Hget. injection Hget as ->.
      exists ch, post'. split; [done|]. by apply isSeparator_spec.
Qed.

(** The loop returns, and it returns [true] exactly when there is a boundary
    match at or after [from]. *)
Lemma containsTokenBoundary_loop_spec s token fuel : ∀ from,
  from ≤ String.length s →
  String.length s < fuel + from →
  ∃ r, containsTokenBoundary_loop fuel s token from = Some r ∧
       (r = true ↔ ∃ pos, from ≤ pos ∧ boundaryMatchAt s token pos).
Proof.
  induction fuel as [|fuel IH]; intros from Hfrom Hfuel; [lia|].
  simpl.
  destruct (Index (sliceFrom from s) token) as [idx|] eqn:Hidx.
  - apply Index_Some in Hidx as (Hat & Hidx & Hmin).
    rewrite <- sliceFrom_add in Hat. rewrite sliceFrom_length in Hidx.
    assert (∀ pos, from ≤ pos → pos < from + idx → ¬ boundaryMatchAt s token pos)
      as Hbefore.
    { intros pos H1 H2 (Hp & _)%boundaryMatchAt_iff.
      specialize (Hmin (pos - from) ltac:(lia)).
      rewrite <- sliceFrom_add in Hmin.
      replace (from + (pos - from)) with pos in Hmin by lia. congruence. }
    destruct (decide (String.length s ≤ from + idx + String.length token)) as [Hend|Hmore].
    { exists true. split; [done|]. split; [|done]. intros _.
      exists (from + idx). split; [lia|].
      apply boundaryMatchAt_iff. split; [done|]. split; [lia|]. by left. }
    destruct (get_lt (from + idx + String.length token) s ltac:(lia)) as [ch Hch].
    rewrite Hch.
    destruct (isSeparator ch) eqn:Hsep.
    { exists true. split; [done|]. split; [|done]. intros _.
      exists (from + idx). split; [lia|].
      apply boundaryMatchAt_iff. split; [done|]. split; [lia|].
      right. by exists ch. }
    destruct (IH (from + idx + 1)) as (r & Hr & Hiff); [lia..|].
    exists r. split; [done|]. rewrite Hiff. split.
    + intros (pos & Hpos & Hm). exists pos. split; [lia|done].
    + intros (pos & Hpos & Hm). exists pos. split; [|done].
      destruct (decide (pos < from + idx)) as [Hlt|Hge].
      { by destruct (Hbefore pos Hpos Hlt). }
      destruct (decide (pos = from + idx)) as [->|Hne]; [|lia].
      apply boundaryMatchAt_iff in Hm as (_ & _ & [Hend|(ch' & Hget & Hsep')]).
      * lia.
      * rewrite Hch in Hget. injection Hget as <-. congruence.
  - exists false. split; [done|]. split; [done|].
    intros (pos & Hpos & (Hp & _)%boundaryMatchAt_iff).
    pose proof (Index_None _ _ Hidx (pos - from)) as Hnone.
    rewrite <- sliceFrom_add in Hnone.
    replace (from + (pos - from)) with pos in Hnone by lia. congruence.
Qed.

Lemma containsTokenBoundary_loop_returns s token :
  is_Some (containsTokenBoundary_loop (S (String.length s)) s token 0).
Proof.
  destruct (containsTokenBoundary_loop_spec s token (S (String.length s)) 0)
    as (r & Hr & _); [lia..|].
  by exists r.
Qed.

Lemma containsTokenBoundary_spec s token :
  containsTokenBoundary s token = true ↔ tokenBoundaryMatch s token.
Proof.
  unfold containsTokenBoundary, tokenBoundaryMatch.
  destruct (containsTokenBoundary_loop_spec s token (S (String.length s)) 0)
    as (r & -> & Hiff); [lia..|].
  rewrite Hiff. split.
  - intros (pos & _ & Hm). by exists pos.
  - intros (pos & Hm). exists pos. split; [lia|done].
Qed.

Lemma guessRules_spec s rules :
  (∃ before rule after,
     rules = before ++ rule :: after ∧
     Forall (λ r, ¬ tokenBoundaryMatch s (token r)) before ∧
     tokenBoundaryMatch s (token rule) ∧
     guessRules s rules = (value rule, true))
  ∨ (Forall (λ r, ¬ tokenBoundaryMatch s (token r)) rules ∧
     guessRules s rules = (SuffixDiffuseSRGB, false)).
Proof.
  induction rules as [|rule rest IH]; simpl.
  - right. by split.
  - destruct (containsTokenBoundary s (token rule)) eqn:Hc.
    + left. exists [], rule, rest.
      split; [done|]. split; [done|].
      split; [by apply containsTokenBoundary_spec|done].
    + assert (¬ tokenBoundaryMatch s (token rule)) as Hno.
      { intros Hm%containsTokenBoundary_spec. congruence. }
      destruct IH as [(before & r & after & -> & Hb & Hm & Hg)|[Hall Hg]].
      * left. exists (rule :: before), r, after.
        split; [done|]. split; [by constructor|]. by split.
      * right. split; [by constructor|done].
Qed.
End strings.

Section classifier.
Context `{Host}.

(** C8.  On the lowercased path without its extension, a rule matches only
    where its token is followed by '_', '-', '.' or the end of the string;
    the class returned is that of the first rule of the table that matches
    so, with the recognized flag set; when no rule matches so, the result is
    the default class 0 (diffuse sRGB) with the flag cleared.  The scan of
    the string always returns. *)
Theorem GuessSuffixTypeFromPath_boundary (path : string) :
  let s := stripExt (ToLower path) in
  (∀ tok, is_Some (containsTokenBoundary_loop (S (String.length s)) s tok 0) ∧
          (containsTokenBoundary s tok = true ↔ tokenBoundaryMatch s tok)) ∧
  ( (∃ before rule after,
       suffixGuessRules = before ++ rule :: after ∧
       Forall (λ r, ¬ tokenBoundaryMatch s (token r)) before ∧
       tokenBoundaryMatch s (token rule) ∧
       GuessSuffixTypeFromPath path = (value rule, true))
  ∨ (Forall (λ r, ¬ tokenBoundaryMatch s (token r)) suffixGuessRules ∧
     GuessSuffixTypeFromPath path = (0, false)) ).
Proof.
  intros s. split.
  - intros tok. split.
    + apply containsTokenBoundary_loop_returns.
    + apply containsTokenBoundary_spec.
  - apply (guessRules_spec s suffixGuessRules).
Qed.
End classifier.

(** The cases of the package's own test of the classifier, and a token
    inside a longer word. *)
Example GuessSuffixTypeFromPath_cases :
  @GuessSuffixTypeFromPath sampleHost "models/terminal/ibm_3178_co.paa"
    = (SuffixDiffuseSRGB, true) ∧
  @GuessSuffixTypeFromPath sampleHost "models/terminal/ibm_3178_nohq.paa"
    = (SuffixNormalMap, true) ∧
  @GuessSuffixTypeFromPath sampleHost "models/tickets/ticket_smdi.paa"
    = (SuffixSpecularAmount, true) ∧
  @GuessSuffixTypeFromPath sampleHost "a/b/c/thing_dtsmdi.paa"
    = (SuffixDetailSpecularAmount, true) ∧
  @GuessSuffixTypeFromPath sampleHost "a/b/c/plain_texture.paa"
    = (SuffixDiffuseSRGB, false) ∧
  @GuessSuffixTypeFromPath sampleHost "a/wall_nohq_v2.paa"
    = (SuffixNormalMap, true) ∧
  @GuessSuffixTypeFromPath sampleHost "a/my_cobalt.paa"
    = (SuffixDiffuseSRGB, false).
Proof. repeat split; vm_compute; reflexivity. Qed.


(** ** The worker pool *)

Section pool.
Context `{Host} `{Paa}.
Local Open Scope nat_scope.

Lemma pool_inv_init b k :
  pool_inv b k (pool_init (length (inputs b)) k).
Proof.
  split; simpl.
  - apply length_replicate.
  - apply length_replicate.
  - apply length_replicate.
  - lia.
  - done.
  - intros w Hw. apply lookup_replicate in Hw as [? _]. done.
  - intros i Hi. by apply elem_of_nil in Hi.
  - intros w i Hw. apply lookup_replicate in Hw as [? _]. done.
  - intros i Hi. left. by apply lookup_replicate_2.
  - intros i Hi. right. left. simpl. lia.
Qed.

Lemma filled_other_slot b p p' i :
  entries p' !! i = entries p !! i →
  errs p' !! i = errs p !! i →
  filled b p i → filled b p' i.
Proof. unfold filled. intros -> ->. done. Qed.

(** Every action of the dispatcher or of a worker keeps the invariant. *)
Lemma pool_inv_step b k p p' :
  pool_inv b k p → pool_step b p p' → pool_inv b k p'.
Proof.
  intros [Hwl Hel Hrl Hsent Hclosed Hexited Hjobs Hbusy Herrs Hslots] Hstep.
  destruct Hstep as [p Hlt Hopen|p Hall Hopen|p w i q Hw Hq|p w i entry Hw Hb
                    |p w i err Hw Hb|p w Hw Hq Hcl].
  - (* send *)
    split; simpl; try done.
    + intros w Hw. destruct (Hexited w Hw) as [Hc _]. congruence.
    + intros i [Hi| ->%list_elem_of_singleton]%elem_of_app; [by apply Hjobs|done].
    + intros i Hi. destruct (Hslots i Hi) as [Hf|[Hp|[Hp|Hp]]].
      * by left.
      * right. unfold pending. simpl.
        destruct (decide (i = sent p)) as [->|Hne].
        -- right; left. apply elem_of_app. right. by apply list_elem_of_singleton.
        -- left. lia.
      * right. right; left. simpl. apply elem_of_app. by left.
      * right. right; right. done.
  - (* close *)
    split; simpl; try done.
    intros w Hw. destruct (Hexited w Hw) as [Hc _]. congruence.
  - (* receive *)
    assert (w < length (workers_ p)) as Hwlt by (by eapply lookup_lt_Some).
    split; simpl; try done.
    + by rewrite length_insert.
    + intros w' Hw'. destruct (decide (w = w')) as [<-|Hne].
      * rewrite list_lookup_insert_eq in Hw' by done. done.
      * rewrite list_lookup_insert_ne in Hw' by done.
        destruct (Hexited w' Hw') as [_ Hnil]. congruence.
    + intros i' Hi'. apply Hjobs. rewrite Hq. by right.
    + intros w' i' Hw'. destruct (decide (w = w')) as [<-|Hne].
      * rewrite list_lookup_insert_eq in Hw' by done. injection Hw' as <-.
        apply Hjobs. rewrite Hq. by left.
      * rewrite list_lookup_insert_ne in Hw' by done. by eapply Hbusy.
    + intros i' Hi'. destruct (Hslots i' Hi') as [Hf|[Hp|[Hp|[w' Hp]]]].
      * by left.
      * right. by left.
      * right. rewrite Hq in Hp. apply elem_of_cons in Hp as [->|Hp].
        -- right; right. exists w. simpl. by rewrite list_lookup_insert_eq.
        -- right; left. done.
      * right. right; right. exists w'. simpl.
        rewrite list_lookup_insert_ne; [done|]. intros ->. congruence.
  - (* built *)
    assert (w < length (workers_ p)) as Hwlt by (by eapply lookup_lt_Some).
    pose proof (Hbusy w i Hw) as Hi.
    split; simpl; try done.
    + by rewrite length_insert.
    + by rewrite length_insert.
    + intros w' Hw'. destruct (decide (w = w')) as [<-|Hne].
      * rewrite list_lookup_insert_eq in Hw' by done. done.
      * rewrite list_lookup_insert_ne in Hw' by done. by apply Hexited in Hw'.
    + intros w' i' Hw'. destruct (decide (w = w')) as [<-|Hne].
      * rewrite list_lookup_insert_eq in Hw' by done. done.
      * rewrite list_lookup_insert_ne in Hw' by done. by eapply Hbusy.
    + intros i' Hi'. destruct (decide (i' = i)) as [->|Hne].
      * left. unfold filled. rewrite Hb. simpl.
        rewrite list_lookup_insert_eq by lia. split; [done|].
        destruct (Herrs i Hi) as [Hnone|(err & Herr & _)]; [done|congruence].
      * destruct (Hslots i' Hi') as [Hf|[Hp|[Hp|[w' Hp]]]].
        -- left. revert Hf. apply filled_other_slot; simpl; [|done].
           by rewrite list_lookup_insert_ne.
        -- right. by left.
        -- right. right; left. done.
        -- right. right; right. exists w'. simpl.
           rewrite list_lookup_insert_ne; [done|]. intros ->. congruence.
  - (* failed *)
    assert (w < length (workers_ p)) as Hwlt by (by eapply lookup_lt_Some).
    pose proof (Hbusy w i Hw) as Hi.
    split; simpl; try done.
    + by rewrite length_insert.
    + by rewrite length_insert.
    + intros w' Hw'. destruct (decide (w = w')) as [<-|Hne].
      * rewrite list_lookup_insert_eq in Hw' by done. done.
      * rewrite list_lookup_insert_ne in Hw' by done. by apply Hexited in Hw'.
    + intros w' i' Hw'. destruct (decide (w = w')) as [<-|Hne].
      * rewrite list_lookup_insert_eq in Hw' by done. done.
      * rewrite list_lookup_insert_ne in Hw' by done. by eapply Hbusy.
    + intros i' Hi'. destruct (decide (i' = i)) as [->|Hne].
      * right. exists err. split; [done|]. by rewrite list_lookup_insert_eq by lia.
      * rewrite list_lookup_insert_ne by done. by apply Herrs.
    + intros i' Hi'. destruct (decide (i' = i)) as [->|Hne].
      * left. unfold filled. rewrite Hb. simpl.
        by rewrite list_lookup_insert_eq by lia.
      * destruct (Hslots i' Hi') as [Hf|[Hp|[Hp|[w' Hp]]]].
        -- left. revert Hf. apply filled_other_slot; simpl; [done|].
           by rewrite list_lookup_insert_ne.
        -- right. by left.
        -- right. right; left. done.
        -- right. right; right. exists w'. simpl.
           rewrite list_lookup_insert_ne; [done|]. intros ->. congruence.
  - (* exit *)
    assert (w < length (workers_ p)) as Hwlt by (by eapply lookup_lt_Some).
    split; simpl; try done.
    + by rewrite length_insert.
    + intros _. by apply Hclosed.
    + intros i Hi. by apply elem_of_nil in Hi.
    + intros w' i' Hw'. destruct (decide (w = w')) as [<-|Hne].
      * rewrite list_lookup_insert_eq in Hw' by done. done.
      * rewrite list_lookup_insert_ne in Hw' by done. by eapply Hbusy.
    + intros i' Hi'. destruct (Hslots i' Hi') as [Hf|[Hp|[Hp|[w' Hp]]]].
      * by left.
      * right. by left.
      * rewrite Hq in Hp. by apply elem_of_nil in Hp.
      * right. right; right. exists w'. simpl.
        rewrite list_lookup_insert_ne; [done|]. intros ->. congruence.
Qed.

Lemma pool_inv_run b k p p' :
  pool_inv b k p → rtc (pool_step b) p p' → pool_inv b k p'.
Proof.
  intros Hinv Hrun. induction Hrun as [|p p1 p2 Hstep _ IH]; [done|].
  apply IH. by eapply pool_inv_step.
Qed.

(** When [wg.Wait()] returns, every slot holds the outcome of its input. *)
Lemma pool_done_filled b k p :
  0 < k →
  rtc (pool_step b) (pool_init (length (inputs b)) k) p →
  pool_done p →
  ∀ i, i < length (inputs b) → filled b p i.
Proof.
  intros Hk Hrun [Hcl Hall] i Hi.
  pose proof (pool_inv_run b k _ _ (pool_inv_init b k) Hrun)
    as [Hwl _ _ _ Hclosed Hexited _ _ _ Hslots].
  destruct (Hslots i Hi) as [Hf|[Hp|[Hp|[w Hp]]]]; [done|..].
  - rewrite (Hclosed Hcl) in Hp. lia.
  - destruct (lookup_lt_is_Some_2 (workers_ p) 0 ltac:(lia)) as [w0 Hw0].
    assert (w0 = Exited) as -> by (by eapply Forall_lookup_1 in Hall).
    destruct (Hexited 0 Hw0) as [_ Hnil]. rewrite Hnil in Hp.
    by apply elem_of_nil in Hp.
  - eapply Forall_lookup_1 in Hall; [|done]. done.
Qed.

(** Over filled slots the collection loop is the serial loop. *)
Lemma collect_filled b p ins : ∀ pre textures iss,
  inputs b = pre ++ ins →
  (∀ i, i < length (inputs b) → filled b p i) →
  collect (SkipInvalid (opts b)) (entries p) (errs p) (length pre) ins textures iss
    = buildSerial b ins textures iss.
Proof.
  induction ins as [|in_ rest IH]; intros pre textures iss Hsplit Hfilled; [done|].
  simpl.
  assert (inputs b !! length pre = Some in_) as Hin.
  { rewrite Hsplit. by apply list_lookup_middle. }
  pose proof (Hfilled (length pre) ltac:(by eapply lookup_lt_Some)) as Hslot.
  unfold filled in Hslot.
  rewrite (list_lookup_total_correct _ _ _ Hin) in Hslot.
  assert (S (length pre) = length (pre ++ [in_])) as Hnext
    by (rewrite length_app; simpl; lia).
  destruct (buildEntry b in_) as [entry|err].
  - destruct Hslot as [He Hr].
    rewrite (list_lookup_total_correct _ _ _ Hr), (list_lookup_total_correct _ _ _ He).
    rewrite Hnext. apply IH; [|done]. by rewrite <- app_assoc.
  - rewrite (list_lookup_total_correct _ _ _ Hslot).
    destruct (SkipInvalid (opts b)); [|done].
    rewrite Hnext. apply IH; [|done]. by rewrite <- app_assoc.
Qed.

(** *** A complete run of the pool exists: send everything, close, let the
    first worker take every index in turn, then let the workers leave. *)

Lemma pool_run_send b m : ∀ sent0 q ws en er,
  sent0 + m = length (inputs b) →
  rtc (pool_step b) (mkPool sent0 false q ws en er)
      (mkPool (length (inputs b)) false (q ++ seq sent0 m) ws en er).
Proof.
  induction m as [|m IH]; intros sent0 q ws en er Hm.
  - simpl. rewrite app_nil_r, <- Hm, Nat.add_0_r. done.
  - eapply rtc_l.
    + apply (step_send b (mkPool sent0 false q ws en er)); simpl; [lia|done].
    + simpl.
      replace (q ++ sent0 :: seq (S sent0) m) with ((q ++ [sent0]) ++ seq (S sent0) m)
        by (by rewrite <- app_assoc).
      apply IH. lia.
Qed.

Lemma pool_run_drain b q : ∀ sent0 cl ws en er,
  ws !! 0 = Some Idle →
  ∃ en' er', rtc (pool_step b) (mkPool sent0 cl q ws en er)
                 (mkPool sent0 cl [] ws en' er').
Proof.
  induction q as [|i q IH]; intros sent0 cl ws en er Hw.
  - by exists en, er.
  - assert (<[0:=Idle]> (<[0:=Busy i]> ws) = ws) as Hback.
    { rewrite list_insert_insert_eq. by apply list_insert_id. }
    assert (<[0:=Busy i]> ws !! 0 = Some (Busy i)) as Hbusy.
    { apply list_lookup_insert_eq. by eapply lookup_lt_Some. }
    destruct (buildEntry b (inputs b !!! i)) as [entry|err] eqn:Hb.
    + destruct (IH sent0 cl ws (<[i:=entry]> en) er Hw) as (en' & er' & Hrun).
      exists en', er'.
      eapply rtc_l.
      { by apply (step_receive b (mkPool sent0 cl (i :: q) ws en er) 0 i q). }
      eapply rtc_l.
      { by apply (step_built b (mkPool sent0 cl q (<[0:=Busy i]> ws) en er) 0 i entry). }
      simpl. by rewrite Hback.
    + destruct (IH sent0 cl ws en (<[i:=Some err]> er) Hw) as (en' & er' & Hrun).
      exists en', er'.
      eapply rtc_l.
      { by apply (step_receive b (mkPool sent0 cl (i :: q) ws en er) 0 i q). }
      eapply rtc_l.
      { by apply (step_failed b (mkPool sent0 cl q (<[0:=Busy i]> ws) en er) 0 i err). }
      simpl. by rewrite Hback.
Qed.

Lemma pool_run_exit b m : ∀ j sent0 en er,
  rtc (pool_step b)
      (mkPool sent0 true [] (replicate j Exited ++ replicate m Idle) en er)
      (mkPool sent0 true [] (replicate (j + m) Exited) en er).
Proof.
  induction m as [|m IH]; intros j sent0 en er.
  - simpl. by rewrite app_nil_r, Nat.add_0_r.
  - eapply rtc_l.
    + apply (step_exit b (mkPool sent0 true [] (replicate j Exited ++ replicate (S m) Idle)
                                 en er) j); simpl; [|done..].
      rewrite lookup_app_r by (rewrite length_replicate; lia).
      by rewrite length_replicate, Nat.sub_diag.
    + simpl.
      replace (<[j:=Exited]> (replicate j Exited ++ Idle :: replicate m Idle))
        with (replicate (S j) Exited ++ replicate m Idle).
      * replace (j + S m) with (S j + m) by lia. apply IH.
      * rewrite insert_app_r_alt by (rewrite length_replicate; lia).
        rewrite length_replicate, Nat.sub_diag.
        rewrite replicate_S_end, <- app_assoc. done.
Qed.

Lemma pool_run_exists b k :
  0 < k →
  ∃ p, rtc (pool_step b) (pool_init (length (inputs b)) k) p ∧ pool_done p.
Proof.
  intros Hk. unfold pool_init.
  set (n := length (inputs b)).
  assert (replicate k Idle !! 0 = Some Idle) as Hw0.
  { apply lookup_replicate_2. lia. }
  destruct (pool_run_drain b (seq 0 n) n true (replicate k Idle)
              (replicate n zeroEntry) (replicate n None) Hw0) as (en & er & Hdrain).
  exists (mkPool n true [] (replicate k Exited) en er). split.
  - etrans; [apply (pool_run_send b n 0); lia|].
    eapply rtc_l.
    { by apply (step_close b (mkPool n false ([] ++ seq 0 n) (replicate k Idle)
                                     (replicate n zeroEntry) (replicate n None))). }
    simpl. etrans; [apply Hdrain|].
    apply (pool_run_exit b k 0).
  - split; [done|]. simpl. apply Forall_replicate. done.
Qed.

(** *** Schedules *)

Lemma pool_act_step b a p p' : pool_act b a p = Some p' → pool_step b p p'.
Proof.
  destruct a as [| |w|w|w]; simpl.
  - destruct (decide _) as [Hlt|]; [|done].
    destruct (closed p) eqn:Hcl; [done|]. intros [= <-]. by apply step_send.
  - destruct (decide _) as [Hall|]; [|done].
    destruct (closed p) eqn:Hcl; [done|]. intros [= <-]. by apply step_close.
  - destruct (workers_ p !! w) as [[|i|]|] eqn:Hw; try done.
    destruct (jobs p) as [|i q] eqn:Hq; [done|].
    intros [= <-]. by apply (step_receive b p w i q).
  - destruct (workers_ p !! w) as [[|i|]|] eqn:Hw; try done.
    destruct (buildEntry b (inputs b !!! i)) as [entry|err] eqn:Hb; intros [= <-].
    + by apply (step_built b p w i entry).
    + by apply (step_failed b p w i err).
  - destruct (workers_ p !! w) as [[|i|]|] eqn:Hw; try done.
    destruct (jobs p) as [|i q] eqn:Hq; [|done].
    destruct (closed p) eqn:Hcl; [|done].
    intros [= <-]. by apply (step_exit b p w).
Qed.

Lemma pool_acts_run b schedule : ∀ p p',
  pool_acts b schedule p = Some p' → rtc (pool_step b) p p'.
Proof.
  induction schedule as [|a rest IH]; intros p p'; simpl.
  - by intros [= <-].
  - destruct (pool_act b a p) as [p1|] eqn:Ha; [|done].
    intros Hrest. eapply rtc_l; [by eapply pool_act_step|by apply IH].
Qed.

(** *** The pool neither blocks nor runs forever *)

Lemma sum_list_insert_weight ws : ∀ w x y,
  ws !! w = Some y →
  sum_list (workerWeight <$> <[w:=x]> ws) + workerWeight y
    = sum_list (workerWeight <$> ws) + workerWeight x.
Proof.
  induction ws as [|z ws IH]; intros [|w] x y Hy; csimpl in *; try done.
  - injection Hy as ->. lia.
  - specialize (IH w x y Hy). lia.
Qed.

(** Every action uses up some of the remaining work. *)
Lemma pool_step_decreases b p p' :
  pool_step b p p' →
  poolMeasure (length (inputs b)) p' < poolMeasure (length (inputs b)) p.
Proof.
  unfold poolMeasure.
  intros [p0 Hlt Hopen|p0 Hall Hopen|p0 w i q Hw Hq|p0 w i entry Hw Hb
         |p0 w i err Hw Hb|p0 w Hw Hq Hcl]; simpl.
  - rewrite Hopen, length_app. simpl. lia.
  - rewrite Hopen. lia.
  - rewrite Hq. simpl.
    pose proof (sum_list_insert_weight _ w (Busy i) Idle Hw). simpl in *. lia.
  - pose proof (sum_list_insert_weight _ w Idle (Busy i) Hw). simpl in *. lia.
  - pose proof (sum_list_insert_weight _ w Idle (Busy i) Hw). simpl in *. lia.
  - rewrite Hq, Hcl.
    pose proof (sum_list_insert_weight _ w Exited Idle Hw). simpl in *. lia.
Qed.

(** A state of a run in which [wg.Wait()] has not returned has a next
    action. *)
Lemma pool_progress b k p :
  pool_inv b k p → ¬ pool_done p → ∃ p', pool_step b p p'.
Proof.
  intros Hinv Hnot.
  destruct (closed p) eqn:Hcl.
  - assert (∃ w x, workers_ p !! w = Some x ∧ x ≠ Exited) as (w & x & Hw & Hx).
    { destruct (decide (Forall (λ w, w = Exited) (workers_ p))) as [Hall|Hsome].
      { destruct Hnot. by split. }
      apply not_Forall_Exists in Hsome; [|apply _].
      apply Exists_exists in Hsome as (x & Hin & Hx).
      apply list_elem_of_lookup in Hin as [w Hw]. by exists w, x. }
    destruct x as [|i|]; [|clear Hx|done].
    + destruct (jobs p) as [|i q] eqn:Hq.
      * eexists. by apply (step_exit b p w).
      * eexists. by apply (step_receive b p w i q).
    + destruct (buildEntry b (inputs b !!! i)) as [entry|err] eqn:Hb.
      * eexists. by apply (step_built b p w i entry).
      * eexists. by apply (step_failed b p w i err).
  - destruct (decide (sent p = length (inputs b))) as [Hall|Hmore].
    + eexists. by apply (step_close b p).
    + eexists. apply (step_send b p); [|done].
      pose proof (inv_sent b k p Hinv). lia.
Qed.

(** So every run of the pool can be carried on to the return of
    [wg.Wait()], and none goes on forever. *)
Lemma pool_run_completes b k p :
  pool_inv b k p → ∃ p', rtc (pool_step b) p p' ∧ pool_done p'.
Proof.
  remember (poolMeasure (length (inputs b)) p) as m eqn:Hm.
  revert p Hm. induction (lt_wf m) as [m _ IH]. intros p -> Hinv.
  assert (Decision (pool_done p)) as [Hdone|Hnot].
  { unfold pool_done. apply _. }
  - by exists p.
  - destruct (pool_progress b k p Hinv Hnot) as [p1 Hstep].
    destruct (IH _ (pool_step_decreases b p p1 Hstep) p1 eq_refl
                (pool_inv_step b k p p1 Hinv Hstep)) as (p' & Hrun & Hdone).
    exists p'. split; [by eapply rtc_l|done].
Qed.
End pool.


(** ** Builder *)

Section builder.
Context `{Host} `{Paa}.

Lemma resolveBuildWorkers_returns requested fileCount :
  1 <= GOMAXPROCS < 2 ^ 63 →
  ∃ w, resolveBuildWorkers requested fileCount = Some w ∧
       (1 < w → 1 < fileCount).
Proof.
  intros Hprocs. unfold resolveBuildWorkers.
  destruct (Z.leb_spec fileCount 1) as [Hfc|Hfc]; [exists 1; split; [done|lia]|].
  destruct (decide (requested = WorkersAuto)).
  - unfold autoBuildWorkers.
    assert (GOMAXPROCS ÷ 4 < 2 ^ 61).
    { rewrite Z.quot_div_nonneg by lia. apply Z.div_lt_upper_bound; lia. }
    destruct (floorPow2_spec (Z.min (Z.max (GOMAXPROCS ÷ 4) 2) fileCount))
      as (k & Hk & _); [lia|].
    exists (2 ^ k). split; [done|lia].
  - destruct (requested <=? 1); eexists; (split; [done|lia]).
Qed.

(** [buildEntry] reads only the path-related options of the builder. *)
Lemma buildEntry_ext b b' path :
  SuffixOverrides (opts b) = SuffixOverrides (opts b') →
  BaseDir (opts b) = BaseDir (opts b') →
  LowercasePaths (opts b) = LowercasePaths (opts b') →
  BackslashPaths (opts b) = BackslashPaths (opts b') →
  buildEntry b path = buildEntry b' path.
Proof.
  intros Hs Hd Hl Hb.
  unfold buildEntry, normalizePath, resolveSuffixType.
  by rewrite Hs, Hd, Hl, Hb.
Qed.

Lemma buildSerial_ext b b' ins : ∀ textures iss,
  (∀ path, buildEntry b path = buildEntry b' path) →
  SkipInvalid (opts b) = SkipInvalid (opts b') →
  buildSerial b ins textures iss = buildSerial b' ins textures iss.
Proof.
  intros textures iss Hentry Hskip. revert textures iss.
  induction ins as [|in_ rest IH]; intros textures iss; simpl; [done|].
  rewrite Hentry, Hskip.
  destruct (buildEntry b' in_); [apply IH|].
  destruct (SkipInvalid (opts b')); [apply IH|done].
Qed.

(** Whatever the pool does, [Build] returns what the serial loop returns. *)
Lemma Build_is_serial b out : Build b out → out = BuildSerial b.
Proof.
  intros [Hempty|workers Hne Hres Hw|workers p Hne Hres Hw Hrun Hdone].
  - unfold BuildSerial. rewrite Hempty. done.
  - done.
  - unfold BuildSerial.
    set (n := length (inputs (prepare b))) in *.
    assert (n ≠ 0%nat) as Hn by (intros Hz; apply Hne; by apply nil_length_inv).
    assert (0 < Z.to_nat (if (Z.of_nat n <? workers)%Z then Z.of_nat n else workers))%nat
      as Hk.
    { destruct (Z.of_nat n <? workers)%Z; lia. }
    pose proof (pool_done_filled (prepare b) _ p Hk Hrun Hdone) as Hfilled.
    pose proof (collect_filled (prepare b) p (inputs (prepare b)) [] [] [] eq_refl Hfilled)
      as Hcollect.
    cbn [length] in Hcollect.
    change (SkipInvalid (opts (prepare b))) with (SkipInvalid (opts b)) in Hcollect.
    cbv zeta. by rewrite Hcollect.
Qed.

(** [Build] always returns: the worker count resolves, and the pool, when
    used, has a complete run. *)
Lemma Build_returns b :
  1 <= GOMAXPROCS < 2 ^ 63 → ∃ out, Build b out.
Proof.
  intros Hprocs.
  destruct (inputs (prepare b)) as [|in_ rest] eqn:Hins.
  { eexists. by apply Build_empty. }
  destruct (resolveBuildWorkers_returns (Workers (opts b))
              (Z.of_nat (length (inputs (prepare b)))) Hprocs) as (workers & Hres & Hfc).
  destruct (Z_le_gt_dec workers 1) as [Hserial|Hpar].
  - eexists. eapply Build_serial; [by rewrite Hins|done..].
  - set (k := Z.to_nat (if Z.of_nat (length (inputs (prepare b))) <? workers
                        then Z.of_nat (length (inputs (prepare b)))
                        else workers)).
    assert (0 < k)%nat as Hk.
    { subst k. rewrite Hins. simpl length.
      destruct (Z.of_nat (S (length rest)) <? workers)%Z; lia. }
    destruct (pool_run_exists (prepare b) k Hk) as (p & Hrun & Hdone).
    eexists. eapply (Build_parallel b workers p); [by rewrite Hins|done|lia|done..].
Qed.

(** C4.  For every builder state and every requested worker count [w],
    [Build] returns, and whatever the interleaving of the dispatcher and the
    workers, its result (the file or the error), the recorded issues and the
    sorted inputs are those of the serial build, the one [Workers = 1]
    selects.  This covers [w] = 1, 2, 4, 8, 16 and the automatic setting. *)
Theorem Build_parallel_matches_serial (b : Builder) (w : Z) :
  1 <= GOMAXPROCS < 2 ^ 63 →
  (∃ out, Build (withWorkers w b) out) ∧
  ∀ out, Build (withWorkers w b) out →
    out.2 = (BuildSerial (withWorkers 1 b)).2 ∧
    issues out.1 = issues (BuildSerial (withWorkers 1 b)).1 ∧
    inputs out.1 = inputs (BuildSerial (withWorkers 1 b)).1.
Proof.
  intros Hprocs. split; [by apply Build_returns|].
  intros out ->%Build_is_serial. unfold BuildSerial.
  rewrite (buildSerial_ext (prepare (withWorkers w b)) (prepare (withWorkers 1 b))
             (inputs (prepare (withWorkers w b))) [] []).
  - done.
  - intros path. by apply buildEntry_ext.
  - done.
Qed.

(** *** Appending and sorting *)

Lemma strGt_false a b : strGt a b = false → String.le a b.
Proof.
  unfold strGt, String.le. intros Hgt%negb_false_iff. by rewrite Hgt.
Qed.

Lemma Append_refused b path :
  TrimSpace path = EmptyString → Append b path = (b, Some ErrEmptyInputPath).
Proof. intros Hp. unfold Append. by rewrite decide_True. Qed.

Lemma Append_accepted b path :
  TrimSpace path ≠ EmptyString →
  inputs (Append b path).1 = inputs b ++ [path] ∧
  opts (Append b path).1 = opts b ∧
  issues (Append b path).1 = issues b ∧
  (Append b path).2 = None ∧
  (sortedFlagOk b → sortedFlagOk (Append b path).1).
Proof.
  intros Hp. unfold Append. rewrite decide_False by done. simpl.
  split; [done|]. split; [done|]. split; [done|]. split; [done|].
  unfold sortedFlagOk. simpl. intros Hok.
  destruct (inputsSorted b); [|done]. simpl.
  destruct (last (inputs b)) as [l|] eqn:Hlast.
  - destruct (strGt l path) eqn:Hgt; [done|]. intros _.
    apply last_Some in Hlast as [l' Hl'].
    apply Sorted_snoc; [by apply Hok|].
    rewrite Hl'. constructor. by apply strGt_false.
  - intros _. apply last_None in Hlast. rewrite Hlast. simpl.
    repeat constructor.
Qed.

Lemma appendAll_spec paths : ∀ b,
  inputs (appendAll b paths) = inputs b ++ accepted paths ∧
  opts (appendAll b paths) = opts b ∧
  (sortedFlagOk b → sortedFlagOk (appendAll b paths)).
Proof.
  induction paths as [|path rest IH]; intros b; simpl.
  - unfold accepted. simpl. by rewrite app_nil_r.
  - destruct (IH (Append b path).1) as (Hin & Hopts & Hok).
    unfold appendAll in *. simpl. rewrite Hin, Hopts.
    unfold accepted. rewrite filter_cons.
    destruct (decide (TrimSpace path ≠ EmptyString)) as [Hp|Hp].
    + destruct (Append_accepted b path Hp) as (-> & -> & _ & _ & Hok').
      rewrite <- app_assoc. split; [done|]. split; [done|]. auto.
    + apply dec_stable in Hp. rewrite (Append_refused b path Hp) in *. simpl in *.
      split; [done|]. split; [done|]. done.
Qed.

Lemma sortStrings_sorted l : Sorted String.le (sortStrings l).
Proof. apply (Sorted_merge_sort String.le). Qed.

Lemma sortStrings_Permutation l : sortStrings l ≡ₚ l.
Proof. apply (merge_sort_Permutation String.le). Qed.

(** The sorted rearrangement does not depend on the order of its input. *)
Lemma sortStrings_unique l1 l2 : l1 ≡ₚ l2 → sortStrings l1 = sortStrings l2.
Proof.
  intros Hperm. apply (Sorted_unique String.le); [apply sortStrings_sorted..|].
  by rewrite !sortStrings_Permutation.
Qed.

Lemma prepare_inputs b :
  sortedFlagOk b → inputs (prepare b) = sortStrings (inputs b).
Proof.
  intros Hok. unfold prepare. simpl.
  destruct (inputsSorted b) eqn:Hflag; simpl; [|done].
  apply (Sorted_unique String.le); [by apply Hok|apply sortStrings_sorted|].
  by rewrite sortStrings_Permutation.
Qed.

Lemma buildSerial_textures b ins : ∀ textures iss file,
  (buildSerial b ins textures iss).2 = Ok file →
  Textures file = textures ++ omap (builtEntry b) ins.
Proof.
  induction ins as [|in_ rest IH]; intros textures iss file; simpl.
  - intros [= <-]. simpl. by rewrite app_nil_r.
  - unfold builtEntry at 1. destruct (buildEntry b in_) as [entry|err].
    + intros ->%IH. by rewrite <- app_assoc.
    + destruct (SkipInvalid (opts b)); [|done]. apply IH.
Qed.

(** C5.  [Build] works on the lexicographically sorted inputs whatever the
    order of the [Append] calls: two append sequences with the same paths
    leave the same builder state and the same result (file or error), the
    inputs [Build] leaves are the sorted accepted paths, and the entries of
    the file are the entries built for those inputs, in that order. *)
Theorem Build_independent_of_append_order (o : BuildOptions) (l1 l2 : list string)
    (out1 out2 : Builder * result File) :
  l1 ≡ₚ l2 →
  Build (appendAll (NewBuilder o) l1) out1 →
  Build (appendAll (NewBuilder o) l2) out2 →
  out1 = out2 ∧
  inputs out1.1 = sortStrings (accepted l1) ∧
  Sorted String.le (inputs out1.1) ∧
  ∀ file, out1.2 = Ok file →
    Textures file = omap (builtEntry out1.1) (inputs out1.1).
Proof.
  intros Hperm ->%Build_is_serial ->%Build_is_serial.
  assert (sortedFlagOk (NewBuilder o)) as Hnew.
  { intros _. simpl. constructor. }
  destruct (appendAll_spec l1 (NewBuilder o)) as (Hin1 & Hopts1 & Hok1).
  destruct (appendAll_spec l2 (NewBuilder o)) as (Hin2 & Hopts2 & Hok2).
  simpl in Hin1, Hin2.
  pose proof (prepare_inputs _ (Hok1 Hnew)) as Hp1.
  pose proof (prepare_inputs _ (Hok2 Hnew)) as Hp2.
  rewrite Hin1 in Hp1. rewrite Hin2 in Hp2.
  assert (prepare (appendAll (NewBuilder o) l1) = prepare (appendAll (NewBuilder o) l2))
    as Hsame.
  { assert (sortStrings (accepted l1) = sortStrings (accepted l2)) as Hsort.
    { apply sortStrings_unique. unfold accepted. by rewrite Hperm. }
    rewrite <- Hp1, <- Hp2 in Hsort. revert Hsort.
    unfold prepare. simpl. rewrite Hopts1, Hopts2. by intros ->. }
  split; [unfold BuildSerial; by rewrite Hsame|].
  unfold BuildSerial. cbn [fst snd].
  change (inputs (withIssues ?b ?i)) with (inputs b).
  split; [done|]. split; [rewrite Hp1; apply sortStrings_sorted|].
  intros file Hfile. apply buildSerial_textures in Hfile.
  rewrite Hfile, app_nil_l.
  apply list_omap_ext, Forall_Forall2_diag, Forall_forall. intros path _.
  unfold builtEntry.
  match goal with
  | |- context [buildEntry (withIssues ?b ?i) path] =>
      by rewrite (buildEntry_ext (withIssues b i) b path)
  end.
Qed.

(** *** The two forced options *)

Lemma NewBuilder_flags o :
  LowercasePaths (opts (NewBuilder o)) = true ∧
  BackslashPaths (opts (NewBuilder o)) = true.
Proof.
  unfold NewBuilder. simpl.
  destruct (LowercasePaths o) eqn:Hl, (BackslashPaths o) eqn:Hb; simpl;
    rewrite ?Hl, ?Hb; done.
Qed.

Lemma Append_opts b path : opts (Append b path).1 = opts b.
Proof.
  unfold Append. destruct (decide (TrimSpace path = EmptyString)); done.
Qed.

Lemma AppendMany_opts paths : ∀ b, opts (AppendMany b paths).1 = opts b.
Proof.
  induction paths as [|path rest IH]; intros b; simpl; [done|].
  pose proof (Append_opts b path) as Ho.
  destruct (Append b path) as [b' [err|]]; simpl in *; [done|].
  by rewrite IH.
Qed.

(** No call changes the options the builder was made with. *)
Lemma lifetime_opts o b : lifetime o b → opts b = opts (NewBuilder o).
Proof.
  induction 1 as [|b path _ IH|b paths _ IH|b out _ IH Hbuild].
  - done.
  - by rewrite Append_opts.
  - by rewrite AppendMany_opts.
  - apply Build_is_serial in Hbuild as ->. done.
Qed.

Lemma assignMipmaps_PAAFile entry mips paxFormat entry' :
  assignMipmaps entry mips paxFormat = Ok entry' → PAAFile entry' = PAAFile entry.
Proof.
  unfold assignMipmaps. destruct (intToU32Strict _); [|done]. by intros [= <-].
Qed.

Lemma buildEntry_PAAFile b path entry :
  buildEntry b path = Ok entry → PAAFile entry = normalizePath b path.
Proof.
  unfold buildEntry.
  repeat match goal with
    | |- context [if ?c then _ else _] => destruct c; [done|]
    | |- context [match ?x with _ => _ end] => destruct x; try done
    end.
  intros Hm%assignMipmaps_PAAFile. rewrite Hm.
  unfold assignFlagHeaders, assignColorHeaders. simpl.
  destruct (if HasAverageColor _ then _ else _) as [[[c0 c1] c2] c3]. done.
Qed.

Lemma hasByte_ReplaceAllByte s old new :
  old ≠ new → hasByte old (ReplaceAllByte s old new) = false.
Proof.
  intros Hne. induction s as [|c s IH]; simpl; [done|].
  rewrite IH, orb_false_r. apply bool_decide_eq_false.
  destruct (bool_decide_reflect (c = old)); congruence.
Qed.

Lemma hasByte_sliceFrom c n : ∀ s, hasByte c s = false → hasByte c (sliceFrom n s) = false.
Proof.
  induction n as [|n IH]; intros [|d s]; simpl; try done.
  intros [_ Hs]%orb_false_iff. by apply IH.
Qed.

Lemma hasByte_TrimPrefix c s p : hasByte c s = false → hasByte c (TrimPrefix s p) = false.
Proof.
  intros Hs. unfold TrimPrefix. destruct (HasPrefix s p); [|done].
  by apply hasByte_sliceFrom.
Qed.

(** C10.  Whatever options [NewBuilder] is given, the builder it returns has
    both normalization flags set, and no later call clears them.  So every
    entry of a file that [Build] returns, at any point of the builder's
    lifetime, stores its path as the lowercase form of a path whose slashes
    were replaced by backslashes; with a lowercase mapping that is idempotent
    and introduces no slash, the stored path is a fixed point of lowercasing
    and contains no slash. *)
Theorem Builder_always_normalizes_paths (o : BuildOptions) (b : Builder) :
  (∀ s, ToLower (ToLower s) = ToLower s) →
  (∀ s, hasByte slash s = false → hasByte slash (ToLower s) = false) →
  lifetime o b →
  LowercasePaths (opts b) = true ∧
  BackslashPaths (opts b) = true ∧
  ∀ out file entry,
    Build b out → out.2 = Ok file → entry ∈ Textures file →
    ∃ path r,
      path ∈ inputs b ∧ buildEntry b path = Ok entry ∧
      PAAFile entry = ToLower (TrimPrefix (ReplaceAllByte r slash backslash) dotBackslash) ∧
      ToLower (PAAFile entry) = PAAFile entry ∧
      hasByte slash (PAAFile entry) = false.
Proof.
  intros Hidem Hslash Hlife.
  pose proof (lifetime_opts o b Hlife) as Hopts.
  destruct (NewBuilder_flags o) as [Hlower Hback].
  rewrite <- Hopts in Hlower, Hback.
  split; [done|]. split; [done|].
  intros out file entry ->%Build_is_serial Hfile Hentry.
  unfold BuildSerial in Hfile. cbn [snd] in Hfile.
  apply buildSerial_textures in Hfile. rewrite app_nil_l in Hfile.
  rewrite Hfile in Hentry.
  apply list_elem_of_omap in Hentry as (path & Hpath & Hbuilt).
  unfold builtEntry in Hbuilt.
  rewrite (buildEntry_ext (prepare b) b path) in Hbuilt by done.
  destruct (buildEntry b path) as [entry'|] eqn:Hb; [|done].
  injection Hbuilt as ->.
  assert (path ∈ inputs b) as Hin.
  { revert Hpath. unfold prepare. simpl.
    destruct (inputsSorted b); simpl; [done|].
    by rewrite sortStrings_Permutation. }
  pose proof (buildEntry_PAAFile b path entry Hb) as Hstored.
  unfold normalizePath in Hstored. rewrite Hlower, Hback in Hstored.
  match type of Hstored with
  | _ = ToLower (TrimPrefix (ReplaceAllByte ?r _ _) _) => exists path, r
  end.
  split; [done|]. split; [done|]. split; [done|].
  rewrite Hstored. split; [apply Hidem|].
  apply Hslash, hasByte_TrimPrefix, hasByte_ReplaceAllByte. done.
Qed.
End builder.


(** ** The builder on the concrete host *)

Lemma lowerAscii_idem c : lowerAscii (lowerAscii c) = lowerAscii c.
Proof. destruct c as [[] [] [] [] [] [] [] []]; reflexivity. Qed.

Lemma lowerAscii_slash c : lowerAscii c = slash → c = slash.
Proof. destruct c as [[] [] [] [] [] [] [] []]; vm_compute; congruence. Qed.

Lemma lowerString_idem s : lowerString (lowerString s) = lowerString s.
Proof.
  induction s as [|c s IH]; simpl; [done|].
  by rewrite lowerAscii_idem, IH.
Qed.

Lemma lowerString_no_slash s :
  hasByte slash s = false → hasByte slash (lowerString s) = false.
Proof.
  induction s as [|c s IH]; simpl; [done|].
  intros [Hc Hs]%orb_false_iff. rewrite (IH Hs), orb_false_r.
  apply bool_decide_eq_false. apply bool_decide_eq_false in Hc.
  intros Hl. by apply Hc, lowerAscii_slash.
Qed.

Lemma sampleHost_GOMAXPROCS : 1 <= @GOMAXPROCS sampleHost < 2 ^ 63.
Proof. simpl. lia. Qed.

Lemma Build_parallel_matches_serial_witness :
  1 <= @GOMAXPROCS sampleHost < 2 ^ 63 ∧
  (∃ out, @Build sampleHost samplePaa (withWorkers 4 sampleBuilder) out) ∧
  ∀ out, @Build sampleHost samplePaa (withWorkers 4 sampleBuilder) out →
    out.2 = (@BuildSerial sampleHost samplePaa (withWorkers 1 sampleBuilder)).2 ∧
    issues out.1 = issues (@BuildSerial sampleHost samplePaa (withWorkers 1 sampleBuilder)).1 ∧
    inputs out.1 = inputs (@BuildSerial sampleHost samplePaa (withWorkers 1 sampleBuilder)).1.
Proof.
  split; [exact sampleHost_GOMAXPROCS|].
  exact (@Build_parallel_matches_serial sampleHost samplePaa sampleBuilder 4
           sampleHost_GOMAXPROCS).
Defined.

(** What the serial build of the sample returns: the two textures in the
    order of the sorted inputs, and one issue for the text file. *)
Example BuildSerial_sample :
  let out := @BuildSerial sampleHost samplePaa sampleBuilder in
  inputs out.1 = ["/Work/Data/B_CO.paa"; "/Work/a_nohq.PAA"; "/Work/c.txt"] ∧
  Path <$> issues out.1 = ["/Work/c.txt"] ∧
  ∃ file, out.2 = Ok file ∧
          PAAFile <$> Textures file
            = [String.app "data" (String backslash "b_co.paa"); "a_nohq.paa"] ∧
          PaxSuffixType <$> Textures file = [SuffixDiffuseSRGB; SuffixNormalMap].
Proof.
  vm_compute. split; [done|]. split; [done|]. eexists. split; [reflexivity|]. done.
Qed.

(** A build of the sample with two workers under [sampleSchedule]: the run
    is complete and [Build] returns what the serial build returns. *)
Example Build_sample_two_workers :
  ∃ p, @pool_acts sampleHost samplePaa (prepare (withWorkers 2 sampleBuilder))
         sampleSchedule (pool_init 3 2) = Some p ∧
       pool_done p ∧
       @Build sampleHost samplePaa (withWorkers 2 sampleBuilder)
         (withWorkers 2 (@BuildSerial sampleHost samplePaa sampleBuilder).1,
          (@BuildSerial sampleHost samplePaa sampleBuilder).2).
Proof.
  destruct (@pool_acts sampleHost samplePaa (prepare (withWorkers 2 sampleBuilder))
              sampleSchedule (pool_init 3 2)) as [p|] eqn:Hp;
    [|by vm_compute in Hp].
  exists p. split; [done|].
  pose proof (@pool_acts_run sampleHost samplePaa _ _ _ _ Hp) as Hrun.
  vm_compute in Hp. injection Hp as <-.
  match type of Hrun with
  | rtc _ _ ?q =>
      assert (pool_done q) as Hdone by (split; [reflexivity|repeat constructor])
  end.
  split; [exact Hdone|].
  pose proof (@Build_parallel sampleHost samplePaa (withWorkers 2 sampleBuilder) 2 _
                ltac:(vm_compute; discriminate) ltac:(vm_compute; reflexivity)
                ltac:(lia) Hrun Hdone) as Hbuild.
  vm_compute in Hbuild. vm_compute. exact Hbuild.
Qed.

Lemma Build_independent_of_append_order_witness :
  let l1 := ["/Work/b_co.paa"; "/Work/a_nohq.paa"] in
  let l2 := ["/Work/a_nohq.paa"; "/Work/b_co.paa"] in
  let out1 := @BuildSerial sampleHost samplePaa
                (@appendAll sampleHost (NewBuilder sampleOptions) l1) in
  let out2 := @BuildSerial sampleHost samplePaa
                (@appendAll sampleHost (NewBuilder sampleOptions) l2) in
  l1 ≡ₚ l2 ∧
  @Build sampleHost samplePaa (@appendAll sampleHost (NewBuilder sampleOptions) l1) out1 ∧
  @Build sampleHost samplePaa (@appendAll sampleHost (NewBuilder sampleOptions) l2) out2 ∧
  out1 = out2 ∧
  inputs out1.1 = @sortStrings (@accepted sampleHost l1) ∧
  Sorted String.le (inputs out1.1).
Proof.
  intros l1 l2 out1 out2.
  assert (l1 ≡ₚ l2) as Hperm by apply perm_swap.
  assert (@Build sampleHost samplePaa
            (@appendAll sampleHost (NewBuilder sampleOptions) l1) out1) as Hb1.
  { apply (@Build_serial sampleHost samplePaa _ 1);
      [vm_compute; discriminate|vm_compute; reflexivity|lia]. }
  assert (@Build sampleHost samplePaa
            (@appendAll sampleHost (NewBuilder sampleOptions) l2) out2) as Hb2.
  { apply (@Build_serial sampleHost samplePaa _ 1);
      [vm_compute; discriminate|vm_compute; reflexivity|lia]. }
  destruct (@Build_independent_of_append_order sampleHost samplePaa sampleOptions
              l1 l2 out1 out2 Hperm Hb1 Hb2) as (Heq & Hsorted & Hord & _).
  split; [exact Hperm|]. split; [exact Hb1|]. split; [exact Hb2|].
  split; [exact Heq|]. split; [exact Hsorted|exact Hord].
Defined.

Lemma Builder_always_normalizes_paths_witness :
  let b := (@Append sampleHost
              (@Append sampleHost (NewBuilder sampleOptions) "/Work/Data/B_CO.paa").1
              "/Work/a_nohq.PAA").1 in
  (∀ s, lowerString (lowerString s) = lowerString s) ∧
  (∀ s, hasByte slash s = false → hasByte slash (lowerString s) = false) ∧
  @lifetime sampleHost samplePaa sampleOptions b ∧
  LowercasePaths sampleOptions = false ∧
  BackslashPaths sampleOptions = false ∧
  LowercasePaths (opts b) = true ∧
  BackslashPaths (opts b) = true ∧
  ∀ out file entry,
    @Build sampleHost samplePaa b out → out.2 = Ok file → entry ∈ Textures file →
    @ToLower sampleHost (PAAFile entry) = PAAFile entry ∧
    hasByte slash (PAAFile entry) = false.
Proof.
  intros b.
  assert (@lifetime sampleHost samplePaa sampleOptions b) as Hlife.
  { apply (@life_append sampleHost samplePaa), (@life_append sampleHost samplePaa),
      (@life_new sampleHost samplePaa). }
  destruct (@Builder_always_normalizes_paths sampleHost samplePaa sampleOptions b
              lowerString_idem lowerString_no_slash Hlife) as (Hlower & Hback & Hpaths).
  split; [exact lowerString_idem|]. split; [exact lowerString_no_slash|].
  split; [exact Hlife|]. split; [reflexivity|]. split; [reflexivity|].
  split; [exact Hlower|]. split; [exact Hback|].
  intros out file entry Hbuild Hfile Hentry.
  destruct (Hpaths out file entry Hbuild Hfile Hentry)
    as (path & r & _ & _ & _ & Hfix & Hnoslash).
  split; [exact Hfix|exact Hnoslash].
Defined.


(** ** Decoder: reading what the encoder wrote *)

Section roundtrip.

Lemma parses_dret {A} (a : A) : parses (dret a) [] a.
Proof. by intros s. Qed.

Lemma parses_dbind {A B} (m : Dec A) (k : A → Dec B) x y a b :
  parses m x a → parses (k a) y b → parses (dbind m k) (x ++ y) b.
Proof.
  intros Hm Hk s. unfold dbind. by rewrite <- app_assoc, Hm, Hk.
Qed.

Lemma parses_dwrap {A} ctx (m : Dec A) x a : parses m x a → parses (dwrap ctx m) x a.
Proof. intros Hm s. unfold dwrap. by rewrite Hm. Qed.

Lemma parses_dwrapAt {A} ctx i (m : Dec A) x a :
  parses m x a → parses (dwrapAt ctx i m) x a.
Proof. intros Hm s. unfold dwrapAt. by rewrite Hm. Qed.

Lemma parses_eq {A} (d : Dec A) x y a : parses d x a → x = y → parses d y a.
Proof. by intros Hd <-. Qed.

Lemma Uint16_PutUint16 v : isU16 v → Uint16 (PutUint16 v) = v.
Proof.
  unfold isU16. intros Hv. unfold PutUint16. rewrite Uint16_sum.
  rewrite !byteZ_toByte_mod, Z.shiftr_div_pow2 by lia.
  change (2 ^ 8) with 256 in *. change (2 ^ 16) with 65536 in *.
  Z.div_mod_to_equations. lia.
Qed.

Lemma parses_readU8 v : isU8 v → parses readU8 [toByte v] v.
Proof.
  intros Hv s. unfold readU8, dbind, dret.
  pose proof (readFull_app [toByte v] s) as Hr. cbn [length] in Hr. rewrite Hr.
  unfold byteAt. simpl nth. by rewrite byteZ_toByte.
Qed.

Lemma parses_readBool8 v : parses readBool8 [boolByte v] v.
Proof. intros s. cbn [app]. rewrite readBool8_cons. by destruct v. Qed.

Lemma parses_readU16 v : isU16 v → parses readU16 (PutUint16 v) v.
Proof.
  intros Hv s. unfold readU16, dbind, dret.
  pose proof (readFull_app (PutUint16 v) s) as Hr. cbn [length PutUint16] in Hr.
  rewrite Hr. by rewrite Uint16_PutUint16.
Qed.

Lemma parses_readU32 v : isU32 v → parses readU32 (PutUint32 v) v.
Proof.
  intros Hv s. unfold readU32, dbind, dret.
  pose proof (readFull_app (PutUint32 v) s) as Hr. cbn [length PutUint32] in Hr.
  rewrite Hr. by rewrite Uint32_PutUint32.
Qed.

Lemma parses_readF32 v : isU32 v → parses readF32 (PutUint32 v) v.
Proof. apply parses_readU32. Qed.

Lemma parses_readByte4 c : parses readByte4 (byte4Bytes c) c.
Proof.
  destruct c as [[[c0 c1] c2] c3]. intros s. cbn [byte4Bytes app].
  by rewrite readByte4_cons.
Qed.

Lemma readASCIIZ_loop_app t : ∀ buf s,
  x00 ∉ t →
  readASCIIZ_loop buf (t ++ x00 :: s) = Ok (string_of_list_byte (buf ++ t), s).
Proof.
  induction t as [|b t IH]; intros buf s Ht; simpl.
  - by rewrite app_nil_r.
  - rewrite decide_False by (intros ->; apply Ht; left).
    rewrite IH by (intros Hin; apply Ht; by right).
    by rewrite <- app_assoc.
Qed.

Lemma parses_readASCIIZ str :
  x00 ∉ list_byte_of_string str →
  parses readASCIIZ (list_byte_of_string str ++ [x00]) str.
Proof.
  intros Hz s. unfold readASCIIZ. rewrite <- app_assoc. cbn [app].
  rewrite readASCIIZ_loop_app by done. simpl.
  by rewrite string_of_list_byte_of_string.
Qed.

Lemma parses_readLoop {A} ctx (item : Dec A) (g : A → list byte) xs :
  Forall (λ x, parses item (g x) x) xs →
  ∀ i, parses (readLoop ctx item i (length xs)) (concat (g <$> xs)) xs.
Proof.
  induction 1 as [|x xs Hx _ IH]; intros i; csimpl.
  - apply parses_dret.
  - eapply parses_dbind; [by apply parses_dwrapAt|].
    eapply parses_eq; [eapply parses_dbind; [apply IH|apply parses_dret]|].
    by rewrite app_nil_r.
Qed.

Lemma parses_dbind_last {A B} (m : Dec A) (k : A → Dec B) x a b :
  parses m x a → k a = dret b → parses (dbind m k) x b.
Proof.
  intros Hm Hk s. unfold dbind. by rewrite Hm, Hk.
Qed.

Ltac parse_field :=
  first [ apply parses_dwrap | apply parses_dwrapAt | idtac ];
  first [ apply parses_readU16; assumption
        | apply parses_readU8; assumption
        | apply parses_readU32; assumption
        | apply parses_readF32; assumption
        | apply parses_readBool8
        | apply parses_readByte4
        | apply parses_readASCIIZ; assumption ].

Lemma parses_readMipMap m : typedMip m → parses readMipMap (mipBytes m) m.
Proof.
  intros (Hw & Hh & Hz & Hf & Ht & Ho). unfold readMipMap, mipBytes.
  destruct m as [w h z f t o].
  cbn [Width Height AlwaysZero MipPaxFormat AlwaysThree DataOffset] in *.
  do 5 (eapply parses_dbind; [parse_field|]).
  eapply parses_dbind_last; [parse_field|done].
Qed.

Lemma parses_readTextureEntry e :
  typedEntry e → readableEntry e → parses readTextureEntry (entryBytes e) e.
Proof.
  intros (H1 & H2 & H3 & H4 & H5 & H6 & H7 & H8 & H9 & H10 & Hmips) [Hcount Hpath].
  unfold readTextureEntry, entryBytes, entryHead, entryMiddle, float4Bytes.
  destruct e as [path mips cnt ptr [[[f0 f1] f2] f3] avg mx clamp transp
                 b1 b2 b3 b4 mipCount fmt b5 b6 suffix copy size].
  cbn [PAAFile MipMaps ColorPaletteCount PalettePtr AverageColorF AverageColor
       MaxColor ClampFlags TransparentColor HasMaxCtagg IsAlpha IsTransparent
       IsAlphaNonOpaque MipMapCount PaxFormat LittleEndian IsPAA PaxSuffixType
       MipMapCountCopy PaxFileSize] in *.
  destruct H3 as (Hf0 & Hf1 & Hf2 & Hf3).
  rewrite <- !app_assoc.
  do 18 (eapply parses_dbind; [parse_field|]).
  rewrite (app_assoc (list_byte_of_string path) [x00]).
  do 3 (eapply parses_dbind; [parse_field|]).
  eapply parses_dbind.
  { rewrite Hcount, Nat2Z.id. apply (parses_readLoop _ _ mipBytes).
    eapply Forall_impl; [exact Hmips|apply parses_readMipMap]. }
  eapply parses_dbind_last; [parse_field|done].
Qed.

Lemma parses_readFull b : parses (readFull (length b)) b b.
Proof. intros s. apply readFull_app. Qed.

Lemma parses_Read f :
  effectiveMagic f = FileMagic →
  effectiveVersion f = SupportedVersion →
  Z.of_nat (length (Textures f)) <= MaxUint32 →
  Forall typedEntry (Textures f) →
  Forall readableEntry (Textures f) →
  parses Read (fileBytes f) (withDefaults f).
Proof.
  intros Hmagic Hversion Hlen Htyped Hreadable.
  unfold fileBytes, headerBytes, withDefaults. rewrite Hmagic, Hversion.
  rewrite <- !app_assoc. unfold Read.
  eapply parses_dbind.
  { apply parses_dwrap. apply (parses_readFull (list_byte_of_string FileMagic)). }
  cbv zeta. rewrite string_of_list_byte_of_string.
  rewrite decide_False by (intros Hne; by apply Hne).
  eapply parses_dbind; [apply parses_dwrap, parses_readU32; by vm_compute|].
  rewrite decide_False by (intros Hne; by apply Hne).
  eapply parses_dbind.
  { apply parses_dwrap, parses_readU32. unfold isU32, MaxUint32 in *. lia. }
  rewrite Nat2Z.id.
  eapply parses_dbind_last; [|done].
  apply (parses_readLoop _ _ entryBytes).
  apply Forall_forall. intros e He.
  apply parses_readTextureEntry; by eapply Forall_forall.
Qed.
End roundtrip.

Section roundtrip_properties.

Lemma list_byte_of_string_length s :
  length (list_byte_of_string s) = String.length s.
Proof.
  induction s as [|a s IH]; [done|].
  change (list_byte_of_string (String a s))
    with (byte_of_ascii a :: list_byte_of_string s).
  simpl. by rewrite IH.
Qed.

(** X1. Decoding what the encoder wrote gives the file back.  For a file
    whose fields hold values of their Go types, whose magic is empty or the
    fixed tag, and whose entries each store the length of their mip list in
    mip_count_copy and a path free of zero bytes: if [Write] succeeds, then
    [Read] on its output (followed by any other bytes [t]) returns the same
    file, with the magic and version [Write] put on disk in place of empty
    ones, and leaves exactly [t] unread. *)
Theorem Write_then_Read (f : File) (out t : list byte) :
  Forall typedEntry (Textures f) →
  Forall readableEntry (Textures f) →
  Magic f = "" ∨ Magic f = FileMagic →
  Write (Some f) [] = (None, out) →
  Read (out ++ t) = Ok (withDefaults f, t).
Proof.
  intros Htyped Hreadable Hmagic. rewrite Write_closed_form.
  assert (effectiveMagic f = FileMagic) as Hm.
  { unfold effectiveMagic. destruct (decide (Magic f = "")); [done|]. by destruct Hmagic. }
  destruct (decide (String.length (effectiveMagic f) ≠ 4%nat)); [done|].
  destruct (decide (effectiveVersion f ≠ SupportedVersion)) as [|Hv%dec_stable]; [done|].
  destruct (Z.ltb_spec MaxUint32 (Z.of_nat (length (Textures f)))) as [|Hlen]; [done|].
  intros [= <-]. cbn [app].
  by apply (parses_Read f).
Qed.

Lemma Write_then_Read_witness :
  Read (fileBytes sampleFile ++ [x07]) = Ok (withDefaults sampleFile, [x07]).
Proof.
  apply (Write_then_Read sampleFile).
  - repeat constructor; vm_compute; done.
  - repeat constructor. vm_compute. intros H.
    repeat (apply elem_of_cons in H as [H|H]; [discriminate H|]).
    by apply elem_of_nil in H.
  - by left.
  - reflexivity.
Defined.

Lemma yields_readU8 : yields readU8 isU8.
Proof.
  intros s v r H. unfold readU8, dbind, dret in H. dinvert H.
  injection H as <- <-. apply byteZ_range.
Qed.

Lemma yields_readU16 : yields readU16 isU16.
Proof.
  intros s v r H. unfold readU16, dbind, dret in H. dinvert H.
  injection H as <- <-. apply Uint16_range.
Qed.

Lemma yields_readU32 : yields readU32 isU32.
Proof. intros s v r H. by apply readU32_Ok_range in H. Qed.

Lemma yields_readLoop {A} ctx (item : Dec A) (P : A → Prop) :
  yields item P → ∀ k i, yields (readLoop ctx item i k) (Forall P).
Proof.
  intros Hitem. induction k as [|k IH]; intros i s xs r; simpl.
  - unfold dret. by intros [= <- <-].
  - unfold dbind, dwrapAt, dret. intros H. dinvert H. injection H as <- <-.
    constructor; [by eapply Hitem|by eapply IH].
Qed.

Lemma yields_readMipMap : yields readMipMap typedMip.
Proof.
  intros s m r H. unfold readMipMap, dbind, dwrap, dret in H. dinvert H.
  injection H as <- <-. unfold typedMip. simpl.
  repeat match goal with
    | Hr : readU32 _ = Ok _ |- _ => apply yields_readU32 in Hr
    | Hr : readU16 _ = Ok _ |- _ => apply yields_readU16 in Hr
    | Hr : readU8 _ = Ok _ |- _ => apply yields_readU8 in Hr
    end.
  done.
Qed.

Lemma yields_readTextureEntry :
  yields readTextureEntry (λ e, typedEntry e ∧ readableEntry e).
Proof.
  intros s e r H. pose proof H as [Hlen _]%readTextureEntry_Ok.
  unfold readTextureEntry, dbind, dwrap, dwrapAt, dret in H. dinvert H.
  injection H as <- <-. simpl in Hlen.
  match goal with Hl : readLoop _ _ _ _ _ = Ok _ |- _ =>
    apply (yields_readLoop _ _ _ yields_readMipMap) in Hl end.
  match goal with Hr : readASCIIZ _ = Ok _ |- _ =>
    apply readASCIIZ_loop_Ok in Hr as (t & -> & _ & Ht) end.
  repeat match goal with
    | Hr : readU32 _ = Ok _ |- _ => apply yields_readU32 in Hr
    | Hr : readF32 _ = Ok _ |- _ => apply yields_readU32 in Hr
    end.
  split.
  - unfold typedEntry. simpl. done.
  - unfold readableEntry. simpl. split.
    + match goal with Hc : isU32 ?c |- ?c = _ => unfold isU32 in Hc; lia end.
    + by rewrite list_byte_of_string_of_list_byte.
Qed.

Lemma Read_Ok_typed (s : list byte) (f : File) (rest : list byte) :
  Read s = Ok (f, rest) →
  Magic f = FileMagic ∧ Version f = SupportedVersion ∧
  Z.of_nat (length (Textures f)) <= MaxUint32 ∧
  Forall typedEntry (Textures f) ∧ Forall readableEntry (Textures f).
Proof.
  intros H. pose proof H as (Hm & Hv & Hn & _)%Read_Ok.
  split; [done|]. split; [done|]. split; [unfold MaxUint32; lia|].
  unfold Read, dbind, dwrap, dret, dfail in H. dinvert H.
  destruct (decide (string_of_list_byte l ≠ FileMagic)); [done|].
  dinvert H.
  destruct (decide (z ≠ SupportedVersion)); [done|].
  dinvert H. injection H as <- <-. simpl.
  match goal with Hl : readLoop _ _ _ _ _ = Ok _ |- _ =>
    apply (yields_readLoop _ _ _ yields_readTextureEntry) in Hl end.
  by apply Forall_and.
Qed.

(** X2. What the decoder returns.  Every file [Read] returns carries the
    fixed magic and version 1, fewer than 2^32 entries, field values within
    their Go types, and in every entry as many mips as mip_count_copy says
    and a path without a zero byte.  Hence the conditions of X1 on the
    entries are also necessary: a file that comes back from [Read] meets
    them. *)
Theorem Read_result_well_formed (s : list byte) (f : File) (rest : list byte) :
  Read s = Ok (f, rest) →
  Magic f = FileMagic ∧ Version f = SupportedVersion ∧
  Z.of_nat (length (Textures f)) <= MaxUint32 ∧
  Forall typedEntry (Textures f) ∧ Forall readableEntry (Textures f).
Proof. apply Read_Ok_typed. Qed.

Lemma Read_result_well_formed_witness :
  Forall readableEntry (Textures (withDefaults sampleFile)).
Proof.
  apply (Read_result_well_formed (fileBytes sampleFile) (withDefaults sampleFile) []).
  vm_compute. reflexivity.
Defined.

(** *** No lookahead *)

Lemma extends_dret {A} (a : A) : extends (dret a).
Proof. intros s x r t. unfold dret. by intros [= <- <-]. Qed.

Lemma extends_dfail {A} e : extends (@dfail A e).
Proof. by intros s x r t. Qed.

Lemma extends_dbind {A B} (m : Dec A) (k : A → Dec B) :
  extends m → (∀ a, extends (k a)) → extends (dbind m k).
Proof.
  intros Hm Hk s b r t. unfold dbind.
  destruct (m s) as [[a s1]|] eqn:Hs; [|done].
  intros Hb. rewrite (Hm _ _ _ t Hs). by apply Hk.
Qed.

Lemma extends_dwrap {A} ctx (m : Dec A) : extends m → extends (dwrap ctx m).
Proof.
  intros Hm s a r t Hs%dwrap_Ok. unfold dwrap. by rewrite (Hm _ _ _ t Hs).
Qed.

Lemma extends_dwrapAt {A} ctx i (m : Dec A) : extends m → extends (dwrapAt ctx i m).
Proof.
  intros Hm s a r t Hs%dwrapAt_Ok. unfold dwrapAt. by rewrite (Hm _ _ _ t Hs).
Qed.

Lemma extends_readFull n : extends (readFull n).
Proof.
  intros s b r t (-> & <-)%readFull_Ok. rewrite <- app_assoc. apply readFull_app.
Qed.

Lemma extends_readASCIIZ : extends readASCIIZ.
Proof.
  intros s str r t (u & -> & -> & Hu)%readASCIIZ_loop_Ok.
  unfold readASCIIZ. rewrite <- !app_assoc. cbn [app].
  by rewrite readASCIIZ_loop_app.
Qed.

Lemma extends_readLoop {A} ctx (item : Dec A) :
  extends item → ∀ k i, extends (readLoop ctx item i k).
Proof.
  intros Hitem. induction k as [|k IH]; intros i; simpl.
  - apply extends_dret.
  - apply extends_dbind; [by apply extends_dwrapAt|]. intros x.
    apply extends_dbind; [apply IH|]. intros xs. apply extends_dret.
Qed.

Ltac extends_tac :=
  repeat first
    [ apply extends_dret | apply extends_dfail
    | apply extends_dwrap | apply extends_dwrapAt
    | apply extends_readFull | apply extends_readASCIIZ
    | apply extends_dbind; [|intros ?] ].

Lemma extends_readMipMap : extends readMipMap.
Proof. unfold readMipMap, readU16, readU8, readU32. extends_tac. Qed.

Lemma extends_readTextureEntry : extends readTextureEntry.
Proof.
  unfold readTextureEntry, readF32, readU32, readBool8, readU8, readByte4.
  repeat first
    [ apply extends_readLoop, extends_readMipMap
    | apply extends_dret | apply extends_dwrap | apply extends_dwrapAt
    | apply extends_readFull | apply extends_readASCIIZ
    | apply extends_dbind; [|intros ?] ].
Qed.

Lemma extends_Read : extends Read.
Proof.
  unfold Read.
  apply extends_dbind; [apply extends_dwrap, extends_readFull|]. intros b.
  cbv zeta. destruct (decide _) as [|_]; [apply extends_dfail|].
  apply extends_dbind; [unfold readU32; extends_tac|]. intros v.
  destruct (decide _) as [|_]; [apply extends_dfail|].
  apply extends_dbind; [unfold readU32; extends_tac|]. intros n.
  apply extends_dbind; [apply extends_readLoop, extends_readTextureEntry|].
  intros xs. apply extends_dret.
Qed.

(** X3. The decoder reads no further than the end of the index: if [Read]
    succeeds on [s] and leaves [rest] unread, then on [s] followed by any
    bytes [t] it returns the same file and leaves [rest] followed by [t]. *)
Theorem Read_no_lookahead (s : list byte) (f : File) (rest t : list byte) :
  Read s = Ok (f, rest) → Read (s ++ t) = Ok (f, rest ++ t).
Proof. apply extends_Read. Qed.

Lemma Read_no_lookahead_witness :
  Read (fileBytes sampleFile ++ [x01; x02]) = Ok (withDefaults sampleFile, [] ++ [x01; x02]).
Proof. apply (Read_no_lookahead (fileBytes sampleFile)). vm_compute. reflexivity. Defined.

(** X4. A truncated index is never accepted.  If [Read] succeeds on
    [consumed ++ rest] leaving [rest], then on every proper prefix of
    [consumed] it returns an error. *)
Theorem Read_truncated_fails (consumed rest p : list byte) (f : File) :
  Read (consumed ++ rest) = Ok (f, rest) →
  p `prefix_of` consumed → p ≠ consumed →
  ∃ e, Read p = Err e.
Proof.
  intros Hfull [q ->] Hne.
  destruct (Read p) as [[g r]|e] eqn:Hp; [|by eexists].
  exfalso. pose proof Hp as (_ & _ & _ & c & -> & _)%Read_Ok.
  apply (extends_Read _ _ _ (q ++ rest)) in Hp.
  rewrite <- !app_assoc in Hfull. rewrite <- !app_assoc in Hp.
  rewrite Hp in Hfull. injection Hfull as _ Hlen%(f_equal length).
  rewrite !length_app in Hlen.
  apply Hne. destruct q; [by rewrite app_nil_r|]. simpl in Hlen. lia.
Qed.

Lemma Read_truncated_fails_witness :
  ∃ e, Read (take 40 (fileBytes sampleFile)) = Err e.
Proof.
  apply (Read_truncated_fails (fileBytes sampleFile) [] _ (withDefaults sampleFile)).
  - vm_compute. reflexivity.
  - eexists. symmetry. apply take_drop.
  - vm_compute. discriminate.
Defined.
Lemma Read_Ok_magic_length g : Magic g = FileMagic → length (headerBytes g) = 8%nat.
Proof.
  intros Hm. unfold headerBytes, effectiveMagic. rewrite Hm.
  rewrite decide_False by done. reflexivity.
Qed.

(** *** Errors of the decoder *)

(** X5. The header checks of [Read].  A stream shorter than the magic is
    refused with "read magic" around [io.EOF] when it is empty and around
    [io.ErrUnexpectedEOF] when it holds one to three bytes.  Four bytes
    other than the fixed tag are refused with [ErrInvalidMagic] carrying
    those bytes; after the tag, a version other than 1 is refused with
    [ErrUnsupportedVersion] carrying that version.  Nothing after the
    refused field is looked at. *)
Theorem Read_header_refused (short b : list byte) (v : Z) (s : list byte) :
  (length short < 4)%nat →
  length b = 4%nat → string_of_list_byte b ≠ FileMagic →
  isU32 v → v ≠ SupportedVersion →
  Read short
    = Err (Wrap "read magic" (if decide (short = []) then EOF else ErrUnexpectedEOF)) ∧
  Read (b ++ s) = Err (WithStr ErrInvalidMagic (string_of_list_byte b)) ∧
  Read (list_byte_of_string FileMagic ++ PutUint32 v ++ s) =
    Err (WithInt ErrUnsupportedVersion v).
Proof.
  intros Hshort Hlen Hmagic Hv Hversion. split; [|split].
  - unfold Read, dbind, dwrap, readFull.
    rewrite decide_False by lia. by destruct short.
  - unfold Read, dbind, dwrap. rewrite <- Hlen, readFull_app.
    cbv zeta. by rewrite decide_True.
  - unfold Read. unfold dbind at 1, dwrap at 1.
    pose proof (readFull_app (list_byte_of_string FileMagic)) as Hr.
    cbn [length list_byte_of_string FileMagic] in Hr.
    change (list_byte_of_string FileMagic ++ PutUint32 v ++ s)
      with (list_byte_of_string FileMagic ++ (PutUint32 v ++ s)).
    rewrite Hr. cbv zeta. rewrite string_of_list_byte_of_string.
    rewrite decide_False by (intros Hne; by apply Hne).
    unfold dbind at 1, dwrap at 1. rewrite (parses_readU32 v Hv).
    by rewrite decide_True.
Qed.

Lemma Read_header_refused_witness :
  Read [x30; x44] = Err (Wrap "read magic" ErrUnexpectedEOF) ∧
  Read (list_byte_of_string "XXXX" ++ []) =
    Err (WithStr ErrInvalidMagic (string_of_list_byte (list_byte_of_string "XXXX"))) ∧
  Read (list_byte_of_string FileMagic ++ PutUint32 2 ++ []) =
    Err (WithInt ErrUnsupportedVersion 2).
Proof.
  apply (Read_header_refused [x30; x44] (list_byte_of_string "XXXX") 2 []).
  - simpl. lia.
  - reflexivity.
  - vm_compute. discriminate.
  - vm_compute. split; [discriminate|reflexivity].
  - vm_compute. discriminate.
Defined.

(** X6. [readASCIIZ] returns the bytes before the first zero byte and
    leaves what follows that byte; on a stream without a zero byte it
    returns [ErrInvalidASCIIZ] (the end of the stream is reported as a
    malformed string, not as an end of file). *)
Theorem readASCIIZ_first_zero (t r : list byte) :
  x00 ∉ t →
  readASCIIZ (t ++ x00 :: r) = Ok (string_of_list_byte t, r) ∧
  readASCIIZ t = Err ErrInvalidASCIIZ.
Proof.
  intros Ht. split.
  - unfold readASCIIZ. by rewrite readASCIIZ_loop_app.
  - unfold readASCIIZ. generalize (@nil byte).
    induction t as [|b t IH]; intros buf; simpl; [done|].
    rewrite decide_False by (intros ->; apply Ht; left).
    apply IH. intros Hin. apply Ht. by right.
Qed.

Lemma readASCIIZ_first_zero_witness :
  readASCIIZ ([x61; x62] ++ x00 :: [x63]) = Ok (string_of_list_byte [x61; x62], [x63]) ∧
  readASCIIZ [x61; x62] = Err ErrInvalidASCIIZ.
Proof.
  apply (readASCIIZ_first_zero [x61; x62] [x63]).
  intros H. repeat (apply elem_of_cons in H as [H|H]; [discriminate H|]).
  by apply elem_of_nil in H.
Defined.

(** *** The encoder's output *)

Lemma mipBytes_length m : length (mipBytes m) = 12%nat.
Proof. reflexivity. Qed.

Lemma concat_mipBytes_length ms :
  length (concat (mipBytes <$> ms)) = (12 * length ms)%nat.
Proof.
  induction ms as [|m ms IH]; [done|].
  change (concat (mipBytes <$> m :: ms)) with (mipBytes m ++ concat (mipBytes <$> ms)).
  rewrite length_app, mipBytes_length, IH. simpl length. lia.
Qed.

Lemma entryBytes_length e : length (entryBytes e) = entrySize e.
Proof.
  unfold entryBytes, entryMiddle, entrySize.
  rewrite !length_app, entryHead_length, concat_mipBytes_length,
    list_byte_of_string_length.
  simpl. lia.
Qed.

(** X7. The size of an encoded index: 12 bytes of header and, for every
    entry, 67 bytes, the bytes of its path and 12 bytes for each mip. *)
Theorem Write_output_length (f : File) (w out : list byte) :
  Write (Some f) w = (None, out) →
  length out = (length w + 12 + sum_list (entrySize <$> Textures f))%nat.
Proof.
  rewrite Write_closed_form.
  destruct (decide (String.length (effectiveMagic f) ≠ 4%nat)) as [|Hm%dec_stable]; [done|].
  destruct (decide (effectiveVersion f ≠ SupportedVersion)); [done|].
  destruct (MaxUint32 <? _); [done|].
  intros [= <-]. unfold headerBytes.
  assert (length (concat (entryBytes <$> Textures f))
          = sum_list (entrySize <$> Textures f)) as Hsum.
  { induction (Textures f) as [|e es IH]; [done|]. rewrite !fmap_cons.
    cbn [concat]. rewrite length_app, entryBytes_length, IH. done. }
  rewrite !length_app, list_byte_of_string_length, Hm.
  cbn [length PutUint32]. rewrite Hsum. lia.
Qed.

Lemma Write_output_length_witness :
  length (fileBytes sampleFile) = (length (@nil byte) + 12 + sum_list (entrySize <$> Textures sampleFile))%nat.
Proof. apply (Write_output_length sampleFile). reflexivity. Defined.

(** X8. When [Write] fails.  The only causes are the three header checks:
    a magic that is not four bytes long, a version other than 0 and 1, and
    more than 2^32-1 entries; no content of an entry makes it fail. *)
Theorem Write_fails_only_on_header (f : File) (w : list byte) :
  (∃ out, Write (Some f) w = (None, out)) ↔
    String.length (effectiveMagic f) = 4%nat ∧
    (Version f = 0 ∨ Version f = SupportedVersion) ∧
    Z.of_nat (length (Textures f)) <= MaxUint32.
Proof.
  rewrite Write_closed_form. unfold effectiveVersion.
  destruct (decide (String.length (effectiveMagic f) ≠ 4%nat)) as [Hm|Hm%dec_stable].
  { split; [by intros [out [=]]|]. by intros [? _]. }
  destruct (Z.eqb_spec (Version f) 0) as [Hz|Hz].
  - rewrite decide_False by (intros Hne; by apply Hne).
    destruct (Z.ltb_spec MaxUint32 (Z.of_nat (length (Textures f)))).
    + split; [by intros [out [=]]|]. intros (_ & _ & ?). lia.
    + split; [|by eexists]. intros _. split; [done|]. split; [by left|done].
  - destruct (decide (Version f ≠ SupportedVersion)) as [Hv|Hv%dec_stable].
    + split; [by intros [out [=]]|]. by intros (_ & [?|?] & _).
    + destruct (Z.ltb_spec MaxUint32 (Z.of_nat (length (Textures f)))).
      * split; [by intros [out [=]]|]. intros (_ & _ & ?). lia.
      * split; [|by eexists]. intros _. split; [done|]. split; [by right|done].
Qed.

(** X9. The version is checked after the magic has been written: a file
    with a four-byte magic and a version other than 0 and 1 makes [Write]
    return [ErrUnsupportedVersion], and the stream then holds the four
    magic bytes. *)
Theorem Write_bad_version_after_magic (f : File) (w : list byte) :
  String.length (effectiveMagic f) = 4%nat →
  Version f ≠ 0 → Version f ≠ SupportedVersion →
  Write (Some f) w = (Some (WithInt ErrUnsupportedVersion (Version f)),
                      w ++ list_byte_of_string (effectiveMagic f)).
Proof.
  intros Hm Hz Hv. rewrite Write_closed_form. unfold effectiveVersion.
  rewrite decide_False by (intros Hne; by apply Hne).
  destruct (Z.eqb_spec (Version f) 0); [done|]. by rewrite decide_True.
Qed.

Lemma Write_bad_version_after_magic_witness :
  Write (Some (mkFile "" [] 2)) [] =
    (Some (WithInt ErrUnsupportedVersion 2), [] ++ list_byte_of_string FileMagic).
Proof.
  apply (Write_bad_version_after_magic (mkFile "" [] 2) []);
    [reflexivity|discriminate|discriminate].
Defined.
End roundtrip_properties.


(** ** Decoder then encoder, byte for byte *)

Section reencoding.

Lemma masked_app m1 m2 c1 c2 o1 o2 :
  masked m1 c1 o1 → masked m2 c2 o2 → masked (m1 ++ m2) (c1 ++ c2) (o1 ++ o2).
Proof.
  intros [Hl1 <-] [Hl2 <-]. split; [rewrite !length_app; lia|].
  unfold normalizeFlags. by rewrite zip_with_app.
Qed.

Lemma masked_plain c : masked (replicate (length c) false) c c.
Proof.
  split; [by rewrite length_replicate|].
  unfold normalizeFlags. induction c as [|b c IH]; [done|]. simpl. by rewrite IH.
Qed.

Lemma masked_flag x v : normFlag true x = boolByte v → masked [true] [x] [boolByte v].
Proof. intros <-. by split. Qed.

Lemma masked_nil : masked [] [] [].
Proof. by split. Qed.

Lemma masked_mask_eq m m' c o : masked m c o → m = m' → masked m' c o.
Proof. by intros ? <-. Qed.

Lemma readBool8_flag s v s' :
  readBool8 s = Ok (v, s') → ∃ x, s = [x] ++ s' ∧ normFlag true x = boolByte v.
Proof.
  unfold readBool8, readU8, dbind, dret. intros H. dinvert H.
  match goal with Hr : readFull _ _ = _ |- _ => apply readFull_Ok in Hr as [-> Hlen] end.
  injection H as <- <-.
  destruct l as [|b0 [|? ?]]; try discriminate.
  exists b0. split; [done|]. unfold byteAt, normFlag. simpl nth.
  destruct (Z.eqb_spec (byteZ b0) 0) as [Hz|Hnz]; simpl.
  - rewrite decide_True; [done|]. rewrite <- (toByte_byteZ b0), Hz. reflexivity.
  - rewrite decide_False; [done|]. by intros ->.
Qed.

Lemma Forall2_eq_inv {A} (l k : list A) : Forall2 eq l k → l = k.
Proof. induction 1; by subst. Qed.

Lemma entryMask_segments (path : string) (mips : list MipMap) :
  replicate 40 false ++ replicate 4 true ++ replicate 8 false ++ replicate 2 true ++
  replicate (String.length path + 1 + 8 + 12 * length mips + 4) false
  = replicate 40 false ++ replicate 4 true ++ replicate 8 false ++ replicate 2 true ++
    replicate (String.length path) false ++ replicate 9 false ++
    replicate (12 * length mips) false ++ replicate 4 false.
Proof.
  do 4 f_equal.
  replace (String.length path + 1 + 8 + 12 * length mips + 4)%nat
    with (String.length path + (9 + (12 * length mips + 4)))%nat by lia.
  by rewrite !replicate_add.
Qed.

Lemma readTextureEntry_masked s e s' :
  readTextureEntry s = Ok (e, s') →
  ∃ c, s = c ++ s' ∧ masked (entryMask e) c (entryBytes e).
Proof.
  unfold readTextureEntry, dbind, dwrap, dwrapAt, dret. intros H. dinvert H.
  injection H as <- <-.
  match goal with Hl : readLoop _ _ _ _ _ = Ok _ |- _ =>
    apply (readLoop_Ok eq _ _ mipBytes) in Hl as (Hlen & cm & Hs & Hcm%Forall2_eq_inv) end.
  2:{ intros sm x sm' Hx. apply readMipMap_Ok in Hx. exists (mipBytes x).
      split; [done|]. by apply Forall_Forall2_diag, Forall_forall. }
  repeat match goal with
    | Hr : readU32 _ = Ok _ |- _ => apply readU32_Ok in Hr
    | Hr : readF32 _ = Ok _ |- _ => apply readF32_Ok in Hr
    | Hr : readByte4 _ = Ok _ |- _ => apply readByte4_Ok in Hr
    | Hr : readASCIIZ _ = Ok _ |- _ => apply readASCIIZ_Ok in Hr
    | Hr : readBool8 _ = Ok _ |- _ => apply readBool8_flag in Hr as (? & Hr & ?)
    end.
  subst.
  eexists. split; [rewrite !app_assoc; reflexivity|].
  unfold entryBytes, entryHead, entryMiddle, float4Bytes, entryMask.
  cbn [PAAFile MipMaps ColorPaletteCount PalettePtr AverageColorF AverageColor
       MaxColor ClampFlags TransparentColor HasMaxCtagg IsAlpha IsTransparent
       IsAlphaNonOpaque MipMapCount PaxFormat LittleEndian IsPAA PaxSuffixType
       MipMapCountCopy PaxFileSize].
  rewrite <- !app_assoc.
  eapply masked_mask_eq.
  - repeat (apply masked_app;
            [first [ apply masked_flag; assumption | apply masked_plain ]|]).
    apply masked_plain.
  - rewrite entryMask_segments.
    repeat match goal with c4 : byte4 |- _ => destruct c4 as [[[? ?] ?] ?] end.
    rewrite list_byte_of_string_length, concat_mipBytes_length.
    reflexivity.
Qed.
Lemma readLoop_masked {A} ctx (item : Dec A) (mask : A → list bool) (g : A → list byte) :
  (∀ s x s', item s = Ok (x, s') → ∃ c, s = c ++ s' ∧ masked (mask x) c (g x)) →
  ∀ k i s xs s', readLoop ctx item i k s = Ok (xs, s') →
    ∃ c, s = c ++ s' ∧ masked (concat (mask <$> xs)) c (concat (g <$> xs)).
Proof.
  intros Hitem. induction k as [|k IH]; intros i s xs s'; simpl.
  - unfold dret. intros [= <- <-]. exists []. split; [done|]. apply masked_nil.
  - unfold dbind, dwrapAt, dret. intros H. dinvert H. injection H as <- <-.
    match goal with Hi : item _ = Ok _ |- _ => apply Hitem in Hi as (c1 & -> & Hc1) end.
    match goal with Hl : readLoop _ _ _ _ _ = Ok _ |- _ =>
      apply IH in Hl as (c2 & -> & Hc2) end.
    exists (c1 ++ c2). rewrite <- app_assoc. split; [done|].
    rewrite !fmap_cons. cbn [concat]. by apply masked_app.
Qed.

Lemma Read_masked B f rest :
  Read B = Ok (f, rest) →
  ∃ c, B = c ++ rest ∧ masked (fileMask f) c (fileBytes f).
Proof.
  intros H. pose proof H as (Hm & Hv & Hn & _)%Read_Ok.
  unfold Read, dbind, dwrap, dret, dfail in H. dinvert H.
  destruct (decide (string_of_list_byte l ≠ FileMagic)) as [|Hmagic]; [done|].
  apply dec_stable in Hmagic.
  dinvert H.
  destruct (decide (z ≠ SupportedVersion)) as [|Hversion]; [done|].
  apply dec_stable in Hversion.
  dinvert H. injection H as <- <-.
  match goal with Hl : readLoop _ _ _ _ _ = Ok _ |- _ =>
    pose proof Hl as (Hlen & _)%(readLoop_Ok renorm _ _ entryBytes);
    [apply (readLoop_masked _ _ entryMask entryBytes) in Hl as (ce & Hs & Hce)|] end.
  2:{ intros se x se' Hx. by apply readTextureEntry_masked in Hx. }
  2:{ intros se x se' Hx. by apply readTextureEntry_Ok in Hx as [_ Hx]. }
  repeat match goal with
    | Hr : readU32 _ = Ok _ |- _ =>
        pose proof (readU32_Ok_range _ _ _ Hr); apply readU32_Ok in Hr
    | Hr : readFull _ _ = Ok _ |- _ => apply readFull_Ok in Hr as [Hr ?]
    end.
  subst. cbn [Magic Version Textures] in *.
  eexists. split; [rewrite !app_assoc; reflexivity|].
  unfold fileBytes, headerBytes, effectiveMagic, effectiveVersion, fileMask.
  cbn [Magic Version Textures]. rewrite Hmagic, Hlen.
  rewrite decide_False by done. rewrite Z2Nat.id by lia.
  change (if SupportedVersion =? 0 then SupportedVersion else SupportedVersion)
    with SupportedVersion.
  rewrite <- Hmagic, list_byte_of_string_of_list_byte, <- !app_assoc.
  eapply masked_mask_eq.
  - repeat (apply masked_app; [apply masked_plain|]). exact Hce.
  - match goal with Hl4 : length l = 4%nat |- _ => rewrite Hl4 end. reflexivity.
Qed.

Lemma entryMask_flags e : length (filter (λ m : bool, m = true) (entryMask e)) = 6%nat.
Proof.
  unfold entryMask. rewrite !filter_app, !length_app.
  assert (∀ n, filter (λ m : bool, m = true) (replicate n false) = []) as Hplain.
  { induction n as [|n IH]; [done|]. simpl. by rewrite filter_cons_False. }
  rewrite !Hplain. reflexivity.
Qed.

Lemma fileMask_flags f :
  length (filter (λ m : bool, m = true) (fileMask f)) = (6 * length (Textures f))%nat.
Proof.
  unfold fileMask. rewrite filter_app, length_app.
  change (filter _ (replicate 12 false)) with (@nil bool).
  change (length (@nil bool) + ?n)%nat with n.
  induction (Textures f) as [|e es IH]; [done|].
  rewrite fmap_cons. cbn [concat]. rewrite filter_app, length_app, entryMask_flags, IH.
  cbn [length]. lia.
Qed.

(** C1, amended.  For every buffer [B] that [Read] parses without error,
    [Write] succeeds on the decoded file, and its output is the part of [B]
    that [Read] consumed with every byte as it was, except the flag bytes,
    six in each entry (offsets 40 to 43, 52 and 53 of the entry), where a
    byte other than 0 comes back as 1.  The bytes of [B] that [Read] left
    unread are not part of the output.  The output is a fixed point: [Read]
    on it returns the same file and leaves nothing. *)
Theorem Read_then_Write (B : list byte) (f : File) (rest : list byte) :
  Read B = Ok (f, rest) →
  ∃ consumed,
    B = consumed ++ rest ∧
    length consumed = length (fileMask f) ∧
    Write (Some f) [] = (None, normalizeFlags (fileMask f) consumed) ∧
    length (filter (λ m : bool, m = true) (fileMask f)) = (6 * length (Textures f))%nat ∧
    Read (normalizeFlags (fileMask f) consumed) = Ok (f, []).
Proof.
  intros H.
  pose proof H as (Hmagic & Hversion & Hcount & Htyped & Hreadable)%Read_Ok_typed.
  apply Read_masked in H as (c & -> & Hlen & Hnorm).
  exists c. split; [done|]. split; [done|]. rewrite Hnorm.
  assert (effectiveMagic f = FileMagic) as Hm.
  { unfold effectiveMagic. by rewrite Hmagic. }
  assert (effectiveVersion f = SupportedVersion) as Hv.
  { unfold effectiveVersion. by rewrite Hversion. }
  split; [|split; [apply fileMask_flags|]].
  - rewrite Write_closed_form, Hm, Hv.
    rewrite decide_False by (intros Hne; by apply Hne).
    rewrite decide_False by (intros Hne; by apply Hne).
    destruct (Z.ltb_spec MaxUint32 (Z.of_nat (length (Textures f)))); [lia|].
    unfold fileBytes, headerBytes. by rewrite Hm, Hv.
  - rewrite <- (app_nil_r (fileBytes f)), (parses_Read f) by done.
    do 2 f_equal. unfold withDefaults. rewrite Hm, Hv, <- Hmagic, <- Hversion.
    by destruct f.
Qed.

Lemma Read_then_Write_witness :
  ∃ f rest, Read flagTwoBuffer = Ok (f, rest) ∧
    ∃ consumed,
      flagTwoBuffer = consumed ++ rest ∧
      length consumed = length (fileMask f) ∧
      Write (Some f) [] = (None, normalizeFlags (fileMask f) consumed) ∧
      length (filter (λ m : bool, m = true) (fileMask f)) = (6 * length (Textures f))%nat ∧
      Read (normalizeFlags (fileMask f) consumed) = Ok (f, []).
Proof.
  eexists _, _. split; [vm_compute; reflexivity|].
  eapply Read_then_Write. vm_compute. reflexivity.
Defined.
End reencoding.


(** ** Validator: accepted entries, and the validator next to the codec *)

Section validator_properties.

Lemma when_app_nil c e l : when c e ++ l = [] ↔ c = false ∧ l = [].
Proof.
  destruct c; simpl; [split; [done|by intros [? _]]|].
  split; [by intros ->|by intros [_ ->]].
Qed.

Lemma validateMips_nil ei fmt mips : ∀ i prev,
  0 <= i → fmt <= MaxUint8 →
  validateMips ei fmt i prev mips = [] ↔
    Forall (validMip fmt) mips ∧ Sorted Z.le (DataOffset <$> mips) ∧
    (0 < i → HdRel Z.le prev (DataOffset <$> mips)).
Proof.
  induction mips as [|m rest IH]; intros i prev Hi Hfmt.
  - simpl. split; [|done]. intros _. repeat split; constructor.
  - cbn [validateMips]. rewrite !when_app_nil, (IH (i + 1) (DataOffset m)) by lia.
    rewrite fmap_cons. split.
    + intros (Hdim & Hz & Ht & Hf & Ho & Hall & Hsorted & Hhd).
      apply orb_false_iff in Hdim as [Hw Hh].
      apply andb_false_iff in Hf. apply andb_false_iff in Ho. unbool.
      assert (MipPaxFormat m = fmt) as Hfm.
      { destruct Hf as [?|Hf]; [lia|]. by unbool. }
      assert (0 < i → prev <= DataOffset m) as Hprev.
      { intros ?. destruct Ho as [?|?]; lia. }
      split; [constructor; [|done]; unfold validMip; lia|].
      split; [constructor; [done|apply Hhd; lia]|].
      intros ?. constructor. by apply Hprev.
    + intros (Hall & Hsorted & Hhd).
      apply Forall_cons in Hall as [(Hw & Hh & Hz & Ht & Hf) Hall].
      apply Sorted_inv in Hsorted as [Hsorted Hhd'].
      split; [apply orb_false_iff; unbool; lia|].
      split; [unbool; lia|]. split; [unbool; lia|].
      split; [apply andb_false_iff; right; unbool; done|].
      split.
      { apply andb_false_iff. unbool.
        destruct (decide (0 < i)) as [Hpos|]; [|left; lia].
        right. specialize (Hhd Hpos). apply HdRel_inv in Hhd. lia. }
      split; [done|]. split; [done|]. by intros _.
Qed.

Lemma ValidateEntry_None (e : TextureEntry) (i : Z) :
  ValidateEntry (Some e) i = None ↔ validEntry e.
Proof.
  cbn [ValidateEntry]. rewrite joinIssues_None. unfold entryIssues.
  pose proof (intToU32Strict_length (MipMaps e)) as Hconv. cbv zeta.
  unfold validEntry.
  destruct (Z.ltb_spec MaxUint8 (PaxFormat e)) as [Hbig|Hfmt].
  { split; [|lia]. rewrite !when_app_nil. intros (_ & ? & _). done. }
  rewrite !when_app_nil, (validateMips_nil _ _ _ 0 0) by lia.
  destruct (intToU32Strict (Z.of_nat (length (MipMaps e)))) as [v|err].
  - destruct Hconv as [-> Hle]. split.
    + intros (Hp & _ & _ & Hc & Hcc & _ & Hall & Hsorted & _). unbool.
      repeat split; try done; try lia.
    + intros (Hp & _ & Hlen & Hc & Hcc & Hall & Hsorted).
      repeat split; try done; unbool; try done; try lia.
  - split; [intros (_ & _ & ? & _); done|]. intros (_ & _ & ? & _). lia.
Qed.

(** X10. What [ValidateEntry] accepts.  It returns nil exactly for an
    entry with a non-empty path, a format of at most 255, both count fields
    equal to the number of mips, every mip with non-zero dimensions,
    reserved fields 0 and 3 and the entry's format, and data offsets that
    never decrease along the mip list.  The index passed in plays no part
    in the decision; a nil entry is refused. *)
Theorem ValidateEntry_accepts (e : TextureEntry) (i : Z) :
  (ValidateEntry (Some e) i = None ↔ validEntry e) ∧
  ValidateEntry None i ≠ None.
Proof. split; [apply ValidateEntry_None|done]. Qed.

Lemma validateEntries_nil textures : ∀ i,
  validateEntries i textures = [] ↔ Forall validEntry textures.
Proof.
  induction textures as [|e rest IH]; intros i; [by split|].
  cbn [validateEntries]. rewrite Forall_cons, <- (IH (i + 1)), <- (ValidateEntry_None e i).
  destruct (ValidateEntry (Some e) i); simpl; [split; [done|by intros [? _]]|].
  split; [done|by intros [_ ?]].
Qed.

Lemma ValidateFile_None f :
  ValidateFile (Some f) = None ↔
    (Magic f = "" ∨ Magic f = FileMagic) ∧
    (Version f = 0 ∨ Version f = SupportedVersion) ∧
    Z.of_nat (length (Textures f)) <= MaxUint32 ∧
    Forall validEntry (Textures f).
Proof.
  cbn [ValidateFile]. rewrite joinIssues_None. unfold fileIssues.
  rewrite !when_app_nil, validateEntries_nil, !andb_false_iff.
  unbool. intuition lia.
Qed.

(** X11. A file the validator accepts can be written and read back.  If
    [ValidateFile] returns nil for a file whose fields hold values of their
    Go types and whose paths hold no zero byte, then [Write] succeeds on it
    and [Read] on the output returns the file (with the magic and version
    filled in) and leaves nothing unread.  The validator does not look for
    zero bytes in a path, so that condition is not implied by it. *)
Theorem Validated_file_round_trips (f : File) :
  ValidateFile (Some f) = None →
  Forall typedEntry (Textures f) →
  Forall (λ e, x00 ∉ list_byte_of_string (PAAFile e)) (Textures f) →
  ∃ out, Write (Some f) [] = (None, out) ∧ Read out = Ok (withDefaults f, []).
Proof.
  intros (Hmagic & Hversion & Hlen & Hvalid)%ValidateFile_None Htyped Hpaths.
  assert (effectiveMagic f = FileMagic) as Hm.
  { unfold effectiveMagic. destruct (decide (Magic f = "")); [done|]. by destruct Hmagic. }
  assert (effectiveVersion f = SupportedVersion) as Hv.
  { unfold effectiveVersion. destruct (Z.eqb_spec (Version f) 0); [done|].
    by destruct Hversion. }
  exists (fileBytes f). split.
  - rewrite Write_closed_form, Hm, Hv.
    rewrite decide_False by (intros Hne; by apply Hne).
    rewrite decide_False by (intros Hne; by apply Hne).
    destruct (Z.ltb_spec MaxUint32 (Z.of_nat (length (Textures f)))); [lia|].
    unfold fileBytes, headerBytes. by rewrite Hm, Hv.
  - rewrite <- (app_nil_r (fileBytes f)). apply parses_Read; try done.
    apply Forall_forall. intros e He. split.
    + rewrite Forall_forall in Hvalid. by destruct (Hvalid e He) as (_ & _ & _ & _ & ? & _).
    + rewrite Forall_forall in Hpaths. by apply Hpaths.
Qed.

Lemma Validated_file_round_trips_witness :
  ∃ out, Write (Some sampleFile) [] = (None, out) ∧
         Read out = Ok (withDefaults sampleFile, []).
Proof.
  apply (Validated_file_round_trips sampleFile).
  - vm_compute. reflexivity.
  - repeat constructor; vm_compute; done.
  - repeat constructor. vm_compute. intros H.
    repeat (apply elem_of_cons in H as [H|H]; [discriminate H|]).
    by apply elem_of_nil in H.
Defined.

(** X12. What is left to validate after decoding.  In a file returned by
    [Read] the validator never finds a violation of the header (magic,
    version, entry count), of the range of a mip list's length, or of
    mip_count_copy against the number of mips: the decoder has already
    enforced those.  Whatever it reports for a decoded file is one of the
    other checks. *)
Theorem ValidateFile_after_Read (s : list byte) (f : File) (rest : list byte) (x : issue) :
  Read s = Ok (f, rest) →
  x ∈ reported (ValidateFile (Some f)) →
  excludedByDecoder x = false.
Proof.
  intros (Hmagic & Hversion & Hlen & Htyped & Hreadable)%Read_Ok_typed.
  cbn [ValidateFile]. rewrite reported_joinIssues, fileIssues_spec.
  intros [Hm1 Hm2|Hv1 Hv2|Hcount|i e y Hlook Hviol]; try done; try lia.
  assert (Z.of_nat (length (MipMaps e)) <= MaxUint32 ∧
          MipMapCountCopy e = Z.of_nat (length (MipMaps e))) as [Hmips Hcopy].
  { rewrite Forall_forall in Htyped, Hreadable.
    apply list_elem_of_lookup_2 in Hlook.
    destruct (Hreadable e Hlook) as [Hc _].
    destruct (Htyped e Hlook) as (_ & _ & _ & _ & _ & _ & _ & _ & Hcc & _).
    split; [|done]. unfold isU32, MaxUint32 in *. lia. }
  destruct Hviol as [| |Hbig| |Hne| |j m z _ Hmip]; try done; try lia.
  - exfalso. apply Hne. unfold mipLenOf.
    destruct (Z.ltb_spec MaxUint32 (Z.of_nat (length (MipMaps e)))); [lia|done].
  - by destruct Hmip.
Qed.

Lemma ValidateFile_after_Read_witness :
  excludedByDecoder (IssueMipCountLen 0 9 1) = false.
Proof.
  apply (ValidateFile_after_Read
           (fileBytes (newFile [withMipMapCount 9 sampleEntry]))
           (newFile [withMipMapCount 9 sampleEntry]) []).
  - vm_compute. reflexivity.
  - vm_compute. left.
Defined.
End validator_properties.


(** ** Classifier: the rule table and the extension *)

Section classifier_properties.
Context `{Host}.
Local Arguments String.append !_ _ / : simpl nomatch.

Lemma guessRules_value s rules v ok :
  guessRules s rules = (v, ok) →
  (ok = true ∧ ∃ r, r ∈ rules ∧ v = value r) ∨ (ok = false ∧ v = SuffixDiffuseSRGB).
Proof.
  induction rules as [|r rest IH]; simpl.
  - intros [= <- <-]. by right.
  - destruct (containsTokenBoundary s (token r)).
    + intros [= <- <-]. left. split; [done|]. exists r. split; [left|done].
    + intros [[Hok (r' & Hin & Hv)]|Hno]%IH; [|by right].
      left. split; [done|]. exists r'. split; [by right|done].
Qed.

(** X13. The classes the classifier can return.  Whatever the path, the
    class is one of 0, 1, 2, 3, 7, 8, 9, 11, 12 and 13 (the classes 4, 5, 6
    and 10 are never guessed), and a path that is not recognized gets the
    class 0. *)
Theorem GuessSuffixTypeFromPath_values (path : string) :
  (GuessSuffixTypeFromPath path).1 ∈ guessedValues ∧
  ((GuessSuffixTypeFromPath path).2 = false → (GuessSuffixTypeFromPath path).1 = 0).
Proof.
  unfold GuessSuffixTypeFromPath.
  destruct (guessRules _ suffixGuessRules) as [v ok] eqn:Hg.
  apply guessRules_value in Hg as [[-> (r & Hin & ->)]|[-> ->]]; simpl.
  - split; [|done]. revert r Hin. apply Forall_forall.
    unfold suffixGuessRules, guessedValues.
    repeat (constructor; [vm_compute; set_solver|]). constructor.
  - split; [|done]. unfold guessedValues. set_solver.
Qed.

(** X14. No rule of the table is dead, and the order of the table matters
    only as its comment says ("longest first where overlap exists"): a
    stem that is exactly a rule's token is classified by that rule. *)
Theorem suffixGuessRules_every_rule_reachable :
  Forall (λ r, guessRules (token r) suffixGuessRules = (value r, true)) suffixGuessRules.
Proof.
  unfold suffixGuessRules at 2.
  repeat (constructor; [vm_compute; reflexivity|]). constructor.
Qed.

Lemma LastIndexByte_absent c s : hasByte c s = false → LastIndexByte s c = None.
Proof.
  induction s as [|d s IH]; simpl; [done|].
  intros [Hd Hs]%orb_false_iff. by rewrite IH, Hd.
Qed.

Lemma LastIndexByte_last c ext : ∀ a,
  hasByte c ext = false →
  LastIndexByte (a +:+ String c ext) c = Some (String.length a).
Proof.
  intros a Hext. induction a as [|d a IH]; simpl.
  - rewrite LastIndexByte_absent by done. by rewrite bool_decide_eq_true_2.
  - by rewrite IH.
Qed.

Lemma sliceTo_app a t : sliceTo (String.length a) (a +:+ t) = a.
Proof. induction a as [|d a IH]; simpl; [by destruct t|]. by rewrite IH. Qed.

Lemma stripExt_last_dot a ext :
  hasByte "."%char ext = false →
  stripExt (a +:+ String "."%char ext) = stemOf a ext.
Proof.
  intros Hext. unfold stripExt, stemOf. rewrite LastIndexByte_last by done.
  destruct a as [|d a]; simpl; [done|].
  f_equal. apply sliceTo_app.
Qed.

(** X15. The extension is whatever follows the last dot of the path,
    directory separators included: for a path already in lower case whose
    last dot is preceded by a non-empty [a], the class is decided by [a]
    alone, whatever follows the dot.  A dot at the very start of the path
    does not begin an extension: then the whole path is the stem. *)
Theorem GuessSuffixTypeFromPath_after_last_dot (a ext : string) :
  hasByte "."%char ext = false →
  ToLower (a +:+ String "."%char ext) = a +:+ String "."%char ext →
  GuessSuffixTypeFromPath (a +:+ String "."%char ext)
    = guessRules (stemOf a ext) suffixGuessRules.
Proof.
  intros Hext Hlow. unfold GuessSuffixTypeFromPath.
  by rewrite Hlow, stripExt_last_dot.
Qed.
End classifier_properties.

(** On the concrete host: a token in the file name is not seen when a
    directory of the path holds the last dot. *)
Lemma GuessSuffixTypeFromPath_after_last_dot_witness :
  @GuessSuffixTypeFromPath sampleHost "dir.v2/tree_co" = (0, false).
Proof.
  apply (@GuessSuffixTypeFromPath_after_last_dot sampleHost "dir" "v2/tree_co");
    reflexivity.
Defined.


(** ** Builder: one entry *)

Section entry_properties.
Context `{Host} `{Paa}.

Lemma paxTypeToU8_codes t code : paxTypeToU8 t = Ok code → code ∈ paxCodes.
Proof.
  unfold paxTypeToU8, paxCodes.
  repeat (destruct (decide _); [intros [= <-]; set_solver|]). done.
Qed.

Lemma int64ToU32Strict_Ok v u : int64ToU32Strict v = Ok u → u = v ∧ isU32 v.
Proof.
  unfold int64ToU32Strict, isU32, MaxUint32.
  destruct (Z.ltb_spec v 0); [done|].
  destruct (Z.ltb_spec 4294967295 v); [done|]. simpl.
  intros [= <-]. rewrite Z.mod_small by lia. lia.
Qed.

Lemma buildEntry_Ok b path e :
  buildEntry b path = Ok e →
  ToLower (Ext path) = ".paa" ∧
  ∃ size meta code,
    osOpen path = None ∧ statSize path = Ok size ∧
    DecodeMetadataHeaders path = Ok meta ∧
    paxTypeToU8 (Type_ meta) = Ok code ∧ isU32 size ∧
    Z.of_nat (length (MipHeaders meta)) <= MaxUint32 ∧
    e = {| PAAFile := normalizePath b path;
           MipMaps := (λ mip, mkMipMap (MipWidth mip) (MipHeight mip) 0 code 3
                                       (MipOffset mip)) <$> MipHeaders meta;
           ColorPaletteCount := 1; PalettePtr := 0;
           AverageColorF :=
             (let '(c0, c1, c2, c3) :=
                if HasAverageColor meta then MetaAverageColor meta else zeroByte4 in
              (float32Div255 c2, float32Div255 c1, float32Div255 c0, float32Div255 c3));
           AverageColor :=
             if HasAverageColor meta then MetaAverageColor meta else zeroByte4;
           MaxColor := if HasMaxColor meta then MetaMaxColor meta else (xff, xff, xff, xff);
           ClampFlags := 0; TransparentColor := 4294967295;
           HasMaxCtagg := HasMaxColor meta;
           IsAlpha := HasGALF meta && negb (Z.land (GALF meta) 1 =? 0);
           IsTransparent := HasGALF meta && negb (Z.land (GALF meta) 2 =? 0);
           IsAlphaNonOpaque :=
             HasGALF meta && (negb (Z.land (GALF meta) 1 =? 0) &&
               (byteZ (if HasAverageColor meta then MetaAverageColor meta
                       else zeroByte4).2 <? 128));
           MipMapCount := Z.of_nat (length (MipHeaders meta));
           PaxFormat := Type_ meta `mod` 4294967296;
           LittleEndian := true; IsPAA := EqualFold ".paa" ".paa";
           PaxSuffixType := resolveSuffixType b (normalizePath b path);
           MipMapCountCopy := Z.of_nat (length (MipHeaders meta));
           PaxFileSize := size |}.
Proof.
  unfold buildEntry.
  destruct (decide (ToLower (Ext path) = ".pac")) as [|_]; [done|].
  destruct (decide (ToLower (Ext path) ≠ ".paa")) as [|Hext%dec_stable]; [done|].
  rewrite Hext.
  destruct (osOpen path) eqn:Hopen; [done|].
  destruct (statSize path) as [size|] eqn:Hsize; [|done].
  destruct (DecodeMetadataHeaders path) as [meta|] eqn:Hmeta; [|done].
  destruct (paxTypeToU8 (Type_ meta)) as [code|] eqn:Hcode; [|done].
  destruct (int64ToU32Strict size) as [u|] eqn:Hu; [|done].
  apply int64ToU32Strict_Ok in Hu as [-> Hsz].
  unfold assignMipmaps. rewrite length_fmap.
  pose proof (intToU32Strict_length (MipHeaders meta)) as Hconv.
  destruct (intToU32Strict _) as [cnt|]; [|done]. destruct Hconv as [-> Hlen].
  intros [= <-]. split; [done|]. exists size, meta, code.
  repeat (split; [done|]).
  unfold assignFlagHeaders, assignColorHeaders.
  destruct (HasAverageColor meta), (MetaAverageColor meta) as [[[a0 a1] a2] a3],
    (HasMaxColor meta), (HasGALF meta); reflexivity.
Qed.

Lemma buildEntry_builtShape (b : Builder) (path : string) (e : TextureEntry) :
  buildEntry b path = Ok e →
  builtShape e ∧ ToLower (Ext path) = ".paa" ∧ PAAFile e = normalizePath b path.
Proof.
  intros (Hext & size & meta & code & _ & _ & _ & Hcode & Hsize & Hlen & ->)%buildEntry_Ok.
  split; [|done]. split; simpl; try done.
  - by rewrite length_fmap.
  - split; [done|]. unfold isU32. change (2 ^ 32) with 4294967296.
    apply Z.mod_pos_bound. lia.
  - exists code. split; [by eapply paxTypeToU8_codes|].
    apply Forall_fmap, Forall_forall. by intros m _.
  - intros Hf. apply andb_true_iff in Hf as [Hg Hf].
    apply andb_true_iff in Hf as [Ha _]. by rewrite Hg, Ha.
  - by intros ->.
Qed.

(** X16. The shape of a built entry.  Whatever the source file holds, an
    entry [buildEntry] returns has palette count 1, palette pointer 0,
    clamp flags 0, transparent colour 0xFFFFFFFF and the little-endian
    flag set; both count fields are the number of its mips; every mip has
    reserved fields 0 and 3 and one and the same format code out of 1, 3,
    4, ..., 10; the alpha-non-opaque flag is set only with the alpha flag;
    without a max-colour tag the max colour is opaque white; and its path
    is [normalizePath] of the input, which has extension ".paa" in any
    case of letters. *)
Theorem buildEntry_shape (b : Builder) (path : string) (e : TextureEntry) :
  buildEntry b path = Ok e →
  builtShape e ∧ ToLower (Ext path) = ".paa" ∧ PAAFile e = normalizePath b path.
Proof. apply buildEntry_builtShape. Qed.
End entry_properties.

Lemma buildEntry_shape_witness :
  match @buildEntry sampleHost samplePaa sampleBuilder "/Work/a_nohq.PAA" with
  | Ok e => builtShape e
  | Err _ => False
  end.
Proof.
  destruct (@buildEntry sampleHost samplePaa sampleBuilder "/Work/a_nohq.PAA")
    as [e|err] eqn:He.
  - exact (proj1 (@buildEntry_shape sampleHost samplePaa sampleBuilder _ e He)).
  - vm_compute in He. discriminate He.
Defined.

Section entry_validation.
Context `{Host} `{Paa}.

(** X17. A built entry under the validator.  For an entry [buildEntry]
    returns, [ValidateEntry] can only report an empty path, a format above
    255, a mip with a zero dimension, a mip format other than the entry
    format, or a decreasing data offset; the count fields and the reserved
    fields of the mips are right by construction.  (The entry format is the
    paa type value itself while the mip format is its code between 1 and
    10, so the two format checks do depend on the paa constants.) *)
Theorem buildEntry_then_ValidateEntry (b : Builder) (path : string)
    (e : TextureEntry) (i : Z) (x : issue) :
  buildEntry b path = Ok e →
  x ∈ reported (ValidateEntry (Some e) i) →
  possibleAfterBuild x = true.
Proof.
  intros [[_ _ _ (Hc & Hcc & Hlen) _ (code & _ & Hmips) _ _] _]%buildEntry_builtShape.
  cbn [ValidateEntry]. rewrite reported_joinIssues, entryIssues_spec.
  assert (mipLenOf e = Z.of_nat (length (MipMaps e))) as HmipLen.
  { unfold mipLenOf.
    destruct (Z.ltb_spec MaxUint32 (Z.of_nat (length (MipMaps e)))); [lia|done]. }
  intros [| |Hbig|Hne|Hne|Hne|j m z Hlook Hmip].
  - done.
  - done.
  - lia.
  - exfalso. apply Hne. by rewrite HmipLen.
  - exfalso. apply Hne. by rewrite HmipLen.
  - exfalso. apply Hne. by rewrite Hc, Hcc.
  - apply list_elem_of_lookup_2 in Hlook. rewrite Forall_forall in Hmips.
    destruct (Hmips m Hlook) as (Hz & Ht & _).
    destruct Hmip as [| | | |]; done.
Qed.

(** X18. The extension is checked before the file is touched: an input
    whose extension is not ".paa" in any case of letters is refused with
    [ErrPACUnsupported] for ".pac" and [ErrUnsupportedInputFormat]
    otherwise, whatever is on disk (the result does not depend on the
    file-system functions). *)
Theorem buildEntry_wrong_extension (b : Builder) (path : string) :
  ToLower (Ext path) ≠ ".paa" →
  buildEntry b path =
    Err (WithStr (if decide (ToLower (Ext path) = ".pac")
                  then ErrPACUnsupported else ErrUnsupportedInputFormat) path).
Proof.
  intros Hext. unfold buildEntry.
  destruct (decide (ToLower (Ext path) = ".pac")); [done|].
  by rewrite decide_True.
Qed.
End entry_validation.

Lemma buildEntry_then_ValidateEntry_witness :
  match @buildEntry sampleHost samplePaa sampleBuilder "/Work/a_nohq.PAA" with
  | Ok e => possibleAfterBuild (IssuePaxFormatRange 0 65281) = true
  | Err _ => False
  end.
Proof.
  destruct (@buildEntry sampleHost samplePaa sampleBuilder "/Work/a_nohq.PAA")
    as [e|err] eqn:He.
  - apply (@buildEntry_then_ValidateEntry sampleHost samplePaa sampleBuilder _ e 0 _ He).
    vm_compute in He. injection He as <-. vm_compute. left.
  - vm_compute in He. discriminate He.
Defined.

Lemma buildEntry_wrong_extension_witness :
  @buildEntry sampleHost samplePaa sampleBuilder "/Work/c.txt"
    = Err (WithStr ErrUnsupportedInputFormat "/Work/c.txt").
Proof.
  apply (@buildEntry_wrong_extension sampleHost samplePaa sampleBuilder "/Work/c.txt").
  vm_compute. discriminate.
Defined.


(** ** Builder: the outcome of [Build] *)

Section build_properties.
Context `{Host} `{Paa}.

Lemma buildEntry_prepare b path : buildEntry (prepare b) path = buildEntry b path.
Proof. by apply buildEntry_ext. Qed.

Lemma builtEntry_prepare b path : builtEntry (prepare b) path = builtEntry b path.
Proof. unfold builtEntry. by rewrite buildEntry_prepare. Qed.

Lemma buildIssueOf_prepare b path : buildIssueOf (prepare b) path = buildIssueOf b path.
Proof. unfold buildIssueOf. by rewrite buildEntry_prepare. Qed.

Lemma prepare_Permutation b : inputs (prepare b) ≡ₚ inputs b.
Proof.
  unfold prepare. simpl. destruct (inputsSorted b); simpl; [done|].
  apply sortStrings_Permutation.
Qed.

Lemma buildSerial_skip b ins : ∀ textures iss,
  SkipInvalid (opts b) = true →
  buildSerial b ins textures iss
    = (iss ++ omap (buildIssueOf b) ins,
       Ok (newFile (textures ++ omap (builtEntry b) ins))).
Proof.
  induction ins as [|p rest IH]; intros textures iss Hskip; simpl.
  - by rewrite !app_nil_r.
  - unfold buildIssueOf, builtEntry. destruct (buildEntry b p) as [e|err].
    + rewrite IH by done. by rewrite <- app_assoc.
    + rewrite Hskip, IH by done. by rewrite <- app_assoc.
Qed.

Lemma buildSerial_strict_ok b ins : ∀ textures iss,
  Forall (λ q, is_Some (builtEntry b q)) ins →
  buildSerial b ins textures iss
    = (iss, Ok (newFile (textures ++ omap (builtEntry b) ins))).
Proof.
  induction ins as [|p rest IH]; intros textures iss Hall; simpl.
  - by rewrite app_nil_r.
  - apply Forall_cons in Hall as [[e He] Hrest]. unfold builtEntry in *.
    destruct (buildEntry b p) as [e'|err]; [|done].
    rewrite IH by done. by rewrite <- app_assoc.
Qed.

Lemma buildSerial_strict_fail b pre p post err : ∀ textures iss,
  SkipInvalid (opts b) = false →
  Forall (λ q, is_Some (builtEntry b q)) pre →
  buildEntry b p = Err err →
  buildSerial b (pre ++ p :: post) textures iss = (iss, Err (WrapPath "build" p err)).
Proof.
  induction pre as [|q pre IH]; intros textures iss Hstrict Hall Hp; simpl.
  - by rewrite Hp, Hstrict.
  - apply Forall_cons in Hall as [[e He] Hrest]. unfold builtEntry in He.
    destruct (buildEntry b q) as [e'|]; [|done]. by apply IH.
Qed.

Lemma omap_lengths b ins :
  (length (omap (builtEntry b) ins) + length (omap (buildIssueOf b) ins))%nat
    = length ins.
Proof.
  induction ins as [|p rest IH]; [done|]. cbn [omap list_omap].
  destruct (builtEntry b p) eqn:He, (buildIssueOf b p) eqn:Hi;
    unfold builtEntry, buildIssueOf in He, Hi;
    destruct (buildEntry b p); try discriminate; cbn [length]; lia.
Qed.

(** X19. The lenient build.  With [SkipInvalid] set, [Build] never
    returns an error: it returns the entries of the inputs that can be
    built, in order, and records one issue for each of the others, in
    order, with the error [buildEntry] gave; every input is accounted for
    by exactly one of the two. *)
Theorem Build_skip_invalid (b : Builder) (out : Builder * result File) :
  Build b out →
  SkipInvalid (opts b) = true →
  out.2 = Ok (newFile (omap (builtEntry b) (inputs out.1))) ∧
  issues out.1 = omap (buildIssueOf b) (inputs out.1) ∧
  inputs out.1 ≡ₚ inputs b ∧
  (length (omap (builtEntry b) (inputs out.1)) + length (issues out.1))%nat
    = length (inputs b).
Proof.
  intros ->%Build_is_serial Hskip. unfold BuildSerial. cbv zeta.
  rewrite buildSerial_skip by done. cbn [fst snd withIssues inputs issues app].
  rewrite (list_omap_ext (builtEntry (prepare b)) (builtEntry b)
             (inputs (prepare b)) (inputs (prepare b)))
    by (apply Forall_Forall2_diag, Forall_forall; intros; apply builtEntry_prepare).
  rewrite (list_omap_ext (buildIssueOf (prepare b)) (buildIssueOf b)
             (inputs (prepare b)) (inputs (prepare b)))
    by (apply Forall_Forall2_diag, Forall_forall; intros; apply buildIssueOf_prepare).
  split; [done|]. split; [done|]. split; [apply prepare_Permutation|].
  rewrite omap_lengths. apply Permutation_length, prepare_Permutation.
Qed.

(** X20. The strict build.  With [SkipInvalid] off, [Build] records no
    issue; it returns the entries of all inputs when every input can be
    built, and otherwise the error of the first input (in the order of the
    builder's inputs after the build, which is the sorted order) that
    cannot, wrapped with that input's path. *)
Theorem Build_strict (b : Builder) (out : Builder * result File) :
  Build b out →
  SkipInvalid (opts b) = false →
  issues out.1 = [] ∧
  (Forall (λ q, is_Some (builtEntry b q)) (inputs out.1) →
   out.2 = Ok (newFile (omap (builtEntry b) (inputs out.1)))) ∧
  (∀ pre p post err,
     inputs out.1 = pre ++ p :: post →
     Forall (λ q, is_Some (builtEntry b q)) pre →
     buildEntry b p = Err err →
     out.2 = Err (WrapPath "build" p err)).
Proof.
  intros ->%Build_is_serial Hstrict. unfold BuildSerial. cbv zeta.
  cbn [fst snd withIssues inputs issues].
  assert (∀ l, Forall (λ q, is_Some (builtEntry b q)) l →
               Forall (λ q, is_Some (builtEntry (prepare b) q)) l) as Hall.
  { intros l Hl. eapply Forall_impl; [exact Hl|].
    intros q. by rewrite builtEntry_prepare. }
  assert (∀ l, (∃ pre p post err, l = pre ++ p :: post ∧
                  Forall (λ q, is_Some (builtEntry (prepare b) q)) pre ∧
                  buildEntry (prepare b) p = Err err)
             ∨ Forall (λ q, is_Some (builtEntry (prepare b) q)) l) as Hcases.
  { induction l as [|q l IH]; [by right|].
    destruct (buildEntry (prepare b) q) as [e|err] eqn:Hq.
    - destruct IH as [(pre & p & post & err & -> & Hpre & Hp)|Hl].
      + left. exists (q :: pre), p, post, err. split; [done|]. split; [|done].
        constructor; [|done]. unfold builtEntry. by rewrite Hq.
      + right. constructor; [|done]. unfold builtEntry. by rewrite Hq.
    - left. by exists [], q, l, err. }
  split; [|split].
  - destruct (Hcases (inputs (prepare b)))
      as [(pre & p & post & err & -> & Hpre & Hp)|Hl].
    + by rewrite (buildSerial_strict_fail _ _ _ _ err).
    + by rewrite buildSerial_strict_ok.
  - intros Hok. by rewrite buildSerial_strict_ok by by apply Hall.
  - intros pre p post err -> Hpre Hp.
    rewrite (buildSerial_strict_fail _ _ _ _ err); [done|done|by apply Hall|].
    by rewrite buildEntry_prepare.
Qed.

(** X21. A second [Build] changes nothing: called again on the builder a
    [Build] left behind, [Build] leaves the same builder and returns the
    same result (the issues of the earlier call are dropped first, not
    accumulated, and the inputs are not sorted again). *)
Theorem Build_idempotent (b : Builder) (out out' : Builder * result File) :
  Build b out → Build out.1 out' → out' = out.
Proof.
  intros ->%Build_is_serial ->%Build_is_serial.
  unfold BuildSerial. cbv zeta. cbn [fst].
  assert (prepare (withIssues (prepare b)
            (buildSerial (prepare b) (inputs (prepare b)) [] []).1) = prepare b) as ->.
  { unfold prepare, withIssues. by cbn. }
  done.
Qed.
End build_properties.

Lemma Build_sample :
  @Build sampleHost samplePaa sampleBuilder (@BuildSerial sampleHost samplePaa sampleBuilder).
Proof.
  apply (@Build_serial sampleHost samplePaa _ 1);
    [vm_compute; discriminate|vm_compute; reflexivity|lia].
Qed.

Lemma Build_strict_sample :
  @Build sampleHost samplePaa strictBuilder (@BuildSerial sampleHost samplePaa strictBuilder).
Proof.
  apply (@Build_serial sampleHost samplePaa _ 1);
    [vm_compute; discriminate|vm_compute; reflexivity|lia].
Qed.

Lemma Build_skip_invalid_witness :
  issues (@BuildSerial sampleHost samplePaa sampleBuilder).1
    = omap (@buildIssueOf sampleHost samplePaa sampleBuilder)
           (inputs (@BuildSerial sampleHost samplePaa sampleBuilder).1).
Proof.
  exact (proj1 (proj2 (@Build_skip_invalid sampleHost samplePaa sampleBuilder _
                         Build_sample eq_refl))).
Defined.

Lemma Build_strict_witness :
  (@BuildSerial sampleHost samplePaa strictBuilder).2
    = Err (WrapPath "build" "/Work/c.txt"
             (WithStr ErrUnsupportedInputFormat "/Work/c.txt")).
Proof.
  apply (proj2 (proj2 (@Build_strict sampleHost samplePaa strictBuilder _
                         Build_strict_sample eq_refl))
           ["/Work/Data/B_CO.paa"; "/Work/a_nohq.PAA"] "/Work/c.txt" []).
  - vm_compute. reflexivity.
  - repeat constructor; vm_compute; eexists; reflexivity.
  - vm_compute. reflexivity.
Defined.

Lemma Build_idempotent_witness :
  @BuildSerial sampleHost samplePaa (@BuildSerial sampleHost samplePaa sampleBuilder).1
    = @BuildSerial sampleHost samplePaa sampleBuilder.
Proof.
  apply (@Build_idempotent sampleHost samplePaa sampleBuilder).
  - exact Build_sample.
  - apply (@Build_serial sampleHost samplePaa _ 1);
      [vm_compute; discriminate|vm_compute; reflexivity|lia].
Defined.


(** ** Builder: appending, overrides, workers and the pool *)

Section builder_properties.
Context `{Host} `{Paa}.

Lemma AppendMany_accepted pre : ∀ b,
  Forall (λ p, TrimSpace p ≠ EmptyString) pre →
  AppendMany b pre = (appendAll b pre, None) ∧
  ∀ rest, AppendMany b (pre ++ rest) = AppendMany (appendAll b pre) rest.
Proof.
  induction pre as [|p pre IH]; intros b Hall; [done|].
  apply Forall_cons in Hall as [Hp Hpre]. cbn [AppendMany app appendAll foldl].
  pose proof (Append_accepted b p Hp) as (_ & _ & _ & Hnone & _).
  destruct (Append b p) as [b' err] eqn:Hb. simpl in Hnone. subst err.
  cbn [fst]. apply (IH b' Hpre).
Qed.

(** X22. [AppendMany] stops at the first path [Append] refuses.  The paths
    before it have been appended and stay appended, the refused path and
    those after it are not; the error is [ErrEmptyInputPath].  When no
    path is refused, all are appended and nil is returned. *)
Theorem AppendMany_stops_at_first_blank (b : Builder) (pre : list string) :
  Forall (λ p, TrimSpace p ≠ EmptyString) pre →
  AppendMany b pre = (appendAll b pre, None) ∧
  inputs (appendAll b pre) = inputs b ++ pre ∧
  ∀ bad post, TrimSpace bad = EmptyString →
    AppendMany b (pre ++ bad :: post) = (appendAll b pre, Some ErrEmptyInputPath).
Proof.
  intros Hall. destruct (AppendMany_accepted pre b Hall) as [Hok Hrest].
  split; [done|]. split.
  - destruct (appendAll_spec pre b) as (-> & _). f_equal. unfold accepted.
    clear Hok Hrest. induction pre as [|p pre IH]; [done|].
    apply Forall_cons in Hall as [Hp Hpre].
    rewrite filter_cons_True by done. by rewrite IH.
  - intros bad post Hbad. rewrite Hrest. cbn [AppendMany].
    by rewrite Append_refused.
Qed.

(** X23. An override is looked up under the lowercased path.  For a
    builder that stores lowercase paths (every builder made by
    [NewBuilder]) and a [ToLower] that leaves its own results unchanged, an
    override stored under a key that is not in lower case is never used:
    adding it to the table changes the class of no path. *)
Theorem resolveSuffixType_ignores_mixed_case_key (b : Builder) (m : gmap string Z)
    (key : string) (v : Z) (rel : string) :
  (∀ s, ToLower (ToLower s) = ToLower s) →
  LowercasePaths (opts b) = true →
  ToLower key ≠ key →
  resolveSuffixType (withOverrides (<[key := v]> m) b) rel
    = resolveSuffixType (withOverrides m b) rel.
Proof.
  intros Hidem Hlow Hkey. unfold resolveSuffixType, withOverrides. cbn. rewrite Hlow.
  rewrite lookup_insert_ne; [done|].
  intros ->. apply Hkey. apply Hidem.
Qed.

(** X24. The worker count is between 1 and the number of inputs (1 when
    there is none), so the clamp [if workers > len(b.inputs)] in [Build]
    never changes it. *)
Theorem resolveBuildWorkers_bounds (requested fileCount w : Z) :
  1 <= GOMAXPROCS < 2 ^ 63 →
  resolveBuildWorkers requested fileCount = Some w →
  1 <= w <= Z.max 1 fileCount ∧
  (1 < w → (if fileCount <? w then fileCount else w) = w).
Proof.
  intros Hprocs. unfold resolveBuildWorkers.
  destruct (Z.leb_spec fileCount 1) as [Hfc|Hfc]; [intros [= <-]; lia|].
  intros Hw.
  assert (1 <= w <= fileCount) as Hb.
  { destruct (decide (requested = WorkersAuto)).
    - unfold autoBuildWorkers in Hw.
      assert (GOMAXPROCS ÷ 4 < 2 ^ 61).
      { rewrite Z.quot_div_nonneg by lia. apply Z.div_lt_upper_bound; lia. }
      destruct (floorPow2_spec (Z.min (Z.max (GOMAXPROCS ÷ 4) 2) fileCount))
        as (k & Hk & Hk0 & Hle & _); [lia|].
      rewrite Hk in Hw. injection Hw as <-.
      pose proof (Z.pow_pos_nonneg 2 k). lia.
    - destruct (Z.leb_spec requested 1); injection Hw as <-; lia. }
  split; [lia|]. intros _. destruct (Z.ltb_spec fileCount w); lia.
Qed.

(** X25. [floorPow2] on the whole range of [int].  Below 2^62 it returns
    the largest power of two not above its argument (1 for an argument of
    at most 1).  From 2^62 on its loop never leaves: [p << 1] overflows to
    the least [int] and then stays at 0, which is never above the
    argument, so no number of iterations is enough. *)
Theorem floorPow2_contract (v : Z) :
  v < 2 ^ 63 →
  (v < 2 ^ 62 →
   ∃ k, 0 <= k ∧ floorPow2 v = Some (2 ^ k) ∧
        (v <= 1 → k = 0) ∧ (2 <= v → 2 ^ k <= v < 2 ^ (k + 1))) ∧
  (2 ^ 62 <= v → ∀ fuel, floorPow2_loop fuel 1 v = None).
Proof.
  intros Hint. split.
  - intros Hsmall. destruct (Z.leb_spec v 1) as [Hle|Hgt].
    + exists 0. split; [done|]. split; [|split; [done|lia]].
      unfold floorPow2. by destruct (Z.leb_spec v 1); [|lia].
    + destruct (floorPow2_spec v) as (k & Hk & Hk0 & Hb); [lia|].
      exists k. split; [done|]. split; [done|]. split; [lia|done].
  - intros Hbig fuel. apply (floorPow2_loop_diverges v fuel 0); lia.
Qed.

Lemma sum_list_idle k : sum_list (workerWeight <$> replicate k Idle) = k.
Proof. induction k as [|k IH]; [done|]. simpl in *. by f_equal. Qed.

Lemma pool_nsteps_measure b m p p' :
  nsteps (pool_step b) m p p' →
  (m + poolMeasure (length (inputs b)) p' ≤ poolMeasure (length (inputs b)) p)%nat.
Proof.
  induction 1 as [p|m p q p' Hstep _ IH]; [lia|].
  apply pool_step_decreases in Hstep. lia.
Qed.

(** X26. The worker pool under every schedule.  Whatever the interleaving
    of the dispatcher and the [k] workers over [n] inputs, a run takes at
    most 3n + k + 1 steps, and a state it reaches is either complete (the
    channel closed and every worker gone, so [wg.Wait] returns) or has a
    next step: the pool neither runs forever nor gets stuck. *)
Theorem pool_terminates_without_deadlock (b : Builder) (k m : nat) (p : pool) :
  nsteps (pool_step b) m (pool_init (length (inputs b)) k) p →
  (m ≤ 3 * length (inputs b) + k + 1)%nat ∧
  (pool_done p ∨ ∃ p', pool_step b p p').
Proof.
  intros Hrun. split.
  - apply pool_nsteps_measure in Hrun.
    assert (poolMeasure (length (inputs b)) (pool_init (length (inputs b)) k)
            = (3 * length (inputs b) + k + 1)%nat) as Hinit.
    { unfold poolMeasure, pool_init. cbn [sent jobs closed workers_ length].
      rewrite sum_list_idle. lia. }
    lia.
  - assert (pool_inv b k p) as Hinv.
    { eapply pool_inv_run; [apply pool_inv_init|]. by eapply rtc_nsteps_2. }
    assert (Decision (pool_done p)) as [Hdone|Hnot].
    { unfold pool_done. apply _. }
    + by left.
    + right. by eapply pool_progress.
Qed.
End builder_properties.

Lemma AppendMany_stops_at_first_blank_witness :
  @AppendMany sampleHost (NewBuilder sampleOptions) (["/Work/a.paa"] ++ "  " :: ["/Work/b.paa"])
    = (@appendAll sampleHost (NewBuilder sampleOptions) ["/Work/a.paa"],
       Some ErrEmptyInputPath).
Proof.
  apply (@AppendMany_stops_at_first_blank sampleHost (NewBuilder sampleOptions)
           ["/Work/a.paa"]).
  - repeat constructor. vm_compute. discriminate.
  - reflexivity.
Defined.

Lemma resolveSuffixType_ignores_mixed_case_key_witness :
  @resolveSuffixType sampleHost
     (withOverrides (<["A_CO.paa" := 3]> ∅) (NewBuilder sampleOptions)) "a_co.paa"
  = @resolveSuffixType sampleHost (withOverrides ∅ (NewBuilder sampleOptions)) "a_co.paa".
Proof.
  apply (@resolveSuffixType_ignores_mixed_case_key sampleHost).
  - exact lowerString_idem.
  - reflexivity.
  - vm_compute. discriminate.
Defined.

Lemma resolveBuildWorkers_bounds_witness :
  1 <= 4 <= Z.max 1 9 ∧ (1 < 4 → (if 9 <? 4 then 9 else 4) = 4).
Proof.
  apply (@resolveBuildWorkers_bounds sampleHost WorkersAuto 9 4).
  - exact sampleHost_GOMAXPROCS.
  - vm_compute. reflexivity.
Defined.

Lemma floorPow2_contract_witness :
  ∃ k, 0 <= k ∧ floorPow2 12 = Some (2 ^ k) ∧
       (12 <= 1 → k = 0) ∧ (2 <= 12 → 2 ^ k <= 12 < 2 ^ (k + 1)).
Proof. apply (proj1 (floorPow2_contract 12 ltac:(lia))). lia. Defined.

Lemma pool_terminates_without_deadlock_witness :
  (0 ≤ 3 * length (inputs sampleBuilder) + 2 + 1)%nat ∧
  (pool_done (pool_init (length (inputs sampleBuilder)) 2) ∨
   ∃ p', @pool_step sampleHost samplePaa sampleBuilder
           (pool_init (length (inputs sampleBuilder)) 2) p').
Proof.
  apply (@pool_terminates_without_deadlock sampleHost samplePaa sampleBuilder 2 0).
  apply nsteps_O.
Defined.


(** ** Files on disk *)

Section file_properties.
Context `{Os}.

(** X29. Writing a file and reading it back.  Under the conditions of X1,
    when [os.Create] accepts the path, [WriteFile] returns nil, the file at
    the path then holds the encoding, every other file is as before, and
    [ReadFile] on the path returns the file written (with the magic and
    version filled in). *)
Theorem WriteFile_then_ReadFile (disk : gmap string (list byte)) (path : string) (f : File) :
  osCreate path = None →
  Forall typedEntry (Textures f) →
  Forall readableEntry (Textures f) →
  Magic f = "" ∨ Magic f = FileMagic →
  (Version f = 0 ∨ Version f = SupportedVersion) →
  Z.of_nat (length (Textures f)) <= MaxUint32 →
  WriteFile disk path (Some f) = (<[path := fileBytes f]> disk, None) ∧
  ReadFile (<[path := fileBytes f]> disk) path = Ok (withDefaults f).
Proof.
  intros Hcreate Htyped Hreadable Hmagic Hversion Hlen.
  assert (effectiveMagic f = FileMagic) as Hm.
  { unfold effectiveMagic. destruct (decide (Magic f = "")); [done|]. by destruct Hmagic. }
  assert (effectiveVersion f = SupportedVersion) as Hv.
  { unfold effectiveVersion. destruct (Z.eqb_spec (Version f) 0); [done|].
    by destruct Hversion. }
  assert (Write (Some f) [] = (None, fileBytes f)) as Hwrite.
  { rewrite Write_closed_form, Hm, Hv.
    rewrite decide_False by (intros Hne; by apply Hne).
    rewrite decide_False by (intros Hne; by apply Hne).
    destruct (Z.ltb_spec MaxUint32 (Z.of_nat (length (Textures f)))); [lia|].
    unfold fileBytes, headerBytes. by rewrite Hm, Hv. }
  split.
  - unfold WriteFile. by rewrite Hcreate, Hwrite.
  - unfold ReadFile. rewrite lookup_insert_eq.
    rewrite <- (app_nil_r (fileBytes f)). by rewrite (parses_Read f).
Qed.

Lemma Read_header_prefix f n :
  (n ≤ 8)%nat → ∃ err, Read (take n (headerBytes f)) = Err err.
Proof.
  intros Hn.
  destruct (Read (take n (headerBytes f))) as [[g rest]|err] eqn:Hr; [|by eexists].
  exfalso. apply Read_Ok in Hr as (Hm & _ & _ & c & Hc & Hlen%Forall2_length).
  apply (f_equal length) in Hc. rewrite length_app, length_take in Hc.
  unfold fileBytes in Hlen. rewrite !length_app in Hlen.
  pose proof (Read_Ok_magic_length g Hm) as Hh.
  cbn [length PutUint32] in Hlen. lia.
Qed.

(** X30. A failed [WriteFile] is not undone.  The file is created, and so
    emptied, before anything is checked: when [os.Create] accepts the path
    and [Write] then fails (a nil file, a bad magic, a bad version, too
    many entries), the file at the path holds what [Write] had written up
    to there, at most the eight header bytes, in place of its former
    contents, and a later [ReadFile] on the path fails. *)
Theorem WriteFile_failure_truncates (disk : gmap string (list byte)) (path : string) (f : option File)
    (err : error) (out : list byte) :
  osCreate path = None →
  Write f [] = (Some err, out) →
  WriteFile disk path f = (<[path := out]> disk, Some (WrapPath "write" path err)) ∧
  (length out ≤ 8)%nat ∧
  (f = None → out = []) ∧
  ∃ err', ReadFile (<[path := out]> disk) path = Err (WrapPath "read" path err').
Proof.
  intros Hcreate Hwrite. split; [unfold WriteFile; by rewrite Hcreate, Hwrite|].
  assert (∃ g n, (n ≤ 8)%nat ∧ out = take n (headerBytes g)) as (g & n & Hn & ->).
  { destruct f as [f|].
    2:{ unfold Write, efail in Hwrite. injection Hwrite as _ <-.
        exists (mkFile "" [] 0), 0%nat. split; [lia|done]. }
    rewrite Write_closed_form in Hwrite. exists f.
    destruct (decide (String.length (effectiveMagic f) ≠ 4%nat)) as [|Hm%dec_stable].
    { injection Hwrite as _ <-. exists 0%nat. split; [lia|done]. }
    assert (length (list_byte_of_string (effectiveMagic f)) = 4%nat) as Hlen
      by by rewrite list_byte_of_string_length.
    destruct (decide (effectiveVersion f ≠ SupportedVersion)).
    { injection Hwrite as _ <-. exists 4%nat. split; [lia|]. unfold headerBytes.
      by rewrite <- Hlen, take_app_length. }
    destruct (MaxUint32 <? _); [|done].
    injection Hwrite as _ <-. exists 8%nat. split; [lia|]. cbn [app].
    rewrite take_ge; [done|]. unfold headerBytes. rewrite length_app, Hlen. simpl. lia. }
  split; [rewrite length_take; lia|]. split.
  - intros ->. unfold Write, efail in Hwrite. by injection Hwrite as _ <-.
  - destruct (Read_header_prefix g n Hn) as [err' Herr]. exists err'.
    unfold ReadFile. by rewrite lookup_insert_eq, Herr.
Qed.
End file_properties.

Lemma WriteFile_then_ReadFile_witness :
  @WriteFile sampleOs ∅ "/tmp/texHeaders.bin" (Some sampleFile)
    = (<["/tmp/texHeaders.bin" := fileBytes sampleFile]> ∅, None) ∧
  @ReadFile sampleOs (<["/tmp/texHeaders.bin" := fileBytes sampleFile]> ∅)
    "/tmp/texHeaders.bin" = Ok (withDefaults sampleFile).
Proof.
  apply (@WriteFile_then_ReadFile sampleOs ∅ "/tmp/texHeaders.bin" sampleFile).
  - reflexivity.
  - repeat constructor; vm_compute; done.
  - repeat constructor. vm_compute. intros H.
    repeat (apply elem_of_cons in H as [H|H]; [discriminate H|]).
    by apply elem_of_nil in H.
  - by left.
  - by left.
  - vm_compute. discriminate.
Defined.

Lemma WriteFile_failure_truncates_witness :
  @WriteFile sampleOs (<["/tmp/texHeaders.bin" := fileBytes sampleFile]> ∅)
     "/tmp/texHeaders.bin" (Some (mkFile "" [] 2))
  = (<["/tmp/texHeaders.bin" := list_byte_of_string FileMagic]>
       (<["/tmp/texHeaders.bin" := fileBytes sampleFile]> ∅),
     Some (WrapPath "write" "/tmp/texHeaders.bin" (WithInt ErrUnsupportedVersion 2))).
Proof.
  apply (@WriteFile_failure_truncates sampleOs _ "/tmp/texHeaders.bin"
           (Some (mkFile "" [] 2))); reflexivity.
Defined.


(** ** Builder: the file that was built *)

Section builder_write.
Context `{Host} `{Paa} `{Os}.

Lemma buildSerial_newFile b ins : ∀ textures iss f,
  (buildSerial b ins textures iss).2 = Ok f →
  f = newFile (Textures f) ∧
  (length (Textures f) ≤ length textures + length ins)%nat.
Proof.
  induction ins as [|p rest IH]; intros textures iss f; simpl.
  - intros [= <-]. split; [done|]. simpl. lia.
  - destruct (buildEntry b p) as [e|err].
    + intros [Hf Hlen]%IH. split; [done|]. rewrite length_app in Hlen.
      cbn [length] in *. lia.
    + destruct (SkipInvalid (opts b)); [|done].
      intros [Hf Hlen]%IH. split; [done|]. cbn [length]. lia.
Qed.

Lemma Build_Ok_newFile b out f :
  Build b out → out.2 = Ok f →
  f = newFile (Textures f) ∧ (length (Textures f) ≤ length (inputs b))%nat.
Proof.
  intros ->%Build_is_serial. unfold BuildSerial. cbv zeta. cbn [snd].
  intros [Hf Hlen]%buildSerial_newFile. split; [done|].
  rewrite (Permutation_length (prepare_Permutation b)) in Hlen. simpl in Hlen. lia.
Qed.
End builder_write.


(** ** The encoder on a writer that can refuse *)

Section writer_properties.
Context `{Writer}.

Lemma feed_app calls1 calls2 k :
  feed (calls1 ++ calls2) k =
    match feed calls1 k with
    | (None, k') => feed calls2 k'
    | (Some e, k') => (Some e, k')
    end.
Proof.
  revert k. induction calls1 as [|[frames p] rest IH]; intros k; [done|].
  cbn [app feed]. destruct (sinkWrite p k) as [[e|] k']; [done|]. apply IH.
Qed.

Lemma feed_within fr calls k :
  feed (within fr calls) k =
    match feed calls k with
    | (None, k') => (None, k')
    | (Some e, k') => (Some (framed [fr] e), k')
    end.
Proof.
  revert k. induction calls as [|[frames p] rest IH]; intros k; [done|].
  unfold within. rewrite fmap_cons. cbn [feed fst snd].
  destruct (sinkWrite p k) as [[e|] k']; [done|]. apply IH.
Qed.

Lemma feeds_wbytes p : feeds (Stream.wbytes p) [([], p)].
Proof.
  intros k. unfold Stream.wbytes. cbn [feed].
  by destruct (sinkWrite p k) as [[e|] k'].
Qed.

Lemma feeds_eskip : feeds Stream.eskip [].
Proof. by intros k. Qed.

Lemma feeds_eseq a b x y :
  feeds a x → feeds b y → feeds (Stream.eseq a b) (x ++ y).
Proof.
  intros Ha Hb k. unfold Stream.eseq. rewrite feed_app, Ha.
  destruct (feed x k) as [[e|] k']; [done|]. apply Hb.
Qed.

Lemma feeds_ewrap ctx a x :
  feeds a x → feeds (Stream.ewrap ctx a) (within (InField ctx) x).
Proof.
  intros Ha k. unfold Stream.ewrap. rewrite feed_within, Ha.
  by destruct (feed x k) as [[e|] k'].
Qed.

Lemma feeds_ewrapAt ctx i a x :
  feeds a x → feeds (Stream.ewrapAt ctx i a) (within (InItem ctx i) x).
Proof.
  intros Ha k. unfold Stream.ewrapAt. rewrite feed_within, Ha.
  by destruct (feed x k) as [[e|] k'].
Qed.

Lemma feeds_esteps_nil : feeds (Stream.esteps []) [].
Proof. apply feeds_eskip. Qed.

Lemma feeds_esteps_cons a l x y :
  feeds a x → feeds (Stream.esteps l) y → feeds (Stream.esteps (a :: l)) (x ++ y).
Proof. apply feeds_eseq. Qed.

Lemma feeds_eq a x y : feeds a x → x = y → feeds a y.
Proof. by intros Ha <-. Qed.

Lemma feeds_writeU8 v : feeds (Stream.writeU8 v) [([], [toByte v])].
Proof. apply feeds_wbytes. Qed.

Lemma feeds_writeBool8 v : feeds (Stream.writeBool8 v) [([], [boolByte v])].
Proof. destruct v; apply feeds_wbytes. Qed.

Lemma feeds_writeU16 v : feeds (Stream.writeU16 v) [([], PutUint16 v)].
Proof. apply feeds_wbytes. Qed.

Lemma feeds_writeU32 v : feeds (Stream.writeU32 v) [([], PutUint32 v)].
Proof. apply feeds_wbytes. Qed.

Lemma feeds_writeF32 v : feeds (Stream.writeF32 v) [([], PutUint32 v)].
Proof. apply feeds_wbytes. Qed.

Lemma feeds_writeByte4 c : feeds (Stream.writeByte4 c) [([], byte4Bytes c)].
Proof. destruct c as [[[c0 c1] c2] c3]. apply feeds_wbytes. Qed.

Lemma feeds_writeASCIIZ s :
  feeds (Stream.writeASCIIZ s) [([], list_byte_of_string s); ([], [x00])].
Proof.
  unfold Stream.writeASCIIZ.
  apply (feeds_esteps_cons _ _ [_] [_]); [apply feeds_wbytes|].
  apply (feeds_esteps_cons _ _ [_] []); [apply feeds_writeU8|apply feeds_esteps_nil].
Qed.

Lemma feeds_writeLoop {A} ctx (item : A → Stream.Enc) (g : A → list call) xs :
  (∀ x, feeds (item x) (g x)) →
  ∀ i, feeds (Stream.writeLoop ctx item i xs) (loopCalls ctx g i xs).
Proof.
  intros Hitem. induction xs as [|x xs IH]; intros i; simpl.
  - apply feeds_eskip.
  - apply feeds_eseq; [apply feeds_ewrapAt, Hitem|apply IH].
Qed.

Ltac feeds_field :=
  first [ apply feeds_ewrap | apply feeds_ewrapAt ];
  first [ apply feeds_writeU32 | apply feeds_writeF32 | apply feeds_writeU16
        | apply feeds_writeU8 | apply feeds_writeBool8 | apply feeds_writeByte4
        | apply feeds_writeASCIIZ ].

Lemma feeds_writeMipMap m : feeds (Stream.writeMipMap m) (mipCalls m).
Proof.
  unfold Stream.writeMipMap. eapply feeds_eq.
  - repeat (apply feeds_esteps_cons; [feeds_field|]). apply feeds_esteps_nil.
  - reflexivity.
Qed.

Lemma feeds_writeTextureEntry e : feeds (Stream.writeTextureEntry e) (entryCalls e).
Proof.
  unfold Stream.writeTextureEntry, entryCalls.
  destruct (AverageColorF e) as [[[f0 f1] f2] f3].
  eapply feeds_eq.
  - repeat (apply feeds_esteps_cons;
            [first [ apply feeds_writeLoop, feeds_writeMipMap | feeds_field ]|]).
    apply feeds_esteps_nil.
  - unfold within, field. cbn [fmap list_fmap app fst snd]. reflexivity.
Qed.

(** The encoder in closed form on any writer: the calls of [writePlan] up
    to the first one refused, and then the error of the header check that
    ended the plan. *)
Lemma Stream_Write_plan (f : File) (k : Sink) :
  Stream.Write (Some f) k = feedThen (writePlan f) k.
Proof.
  unfold Stream.Write, writePlan, feedThen.
  fold (effectiveMagic f). fold (effectiveVersion f).
  destruct (decide (String.length (effectiveMagic f) ≠ 4%nat)); [done|].
  unfold Stream.eseq at 1.
  rewrite (feeds_ewrap _ _ _ (feeds_wbytes _)).
  destruct (decide (effectiveVersion f ≠ SupportedVersion)).
  { unfold fileCalls, within, field. cbn [take app fst snd fmap list_fmap].
    by destruct (feed _ k) as [[e|] k']. }
  unfold Stream.esteps. cbn [foldr].
  pose proof (intToU32Strict_length (Textures f)) as Hconv.
  unfold Stream.writeU32FromInt.
  destruct (intToU32Strict _) as [u32|err].
  - destruct Hconv as [-> Hfit].
    destruct (Z.ltb_spec MaxUint32 (Z.of_nat (length (Textures f)))); [lia|].
    cbn [fst snd].
    pose proof (feeds_eseq _ _ _ _
      (feeds_ewrap "write magic" _ _ (feeds_wbytes (list_byte_of_string (effectiveMagic f))))
      (feeds_eseq _ _ _ _
         (feeds_ewrap "write version" _ _ (feeds_writeU32 (effectiveVersion f)))
         (feeds_eseq _ _ _ _
            (feeds_ewrap "write texture count" _ _
               (feeds_writeU32 (Z.of_nat (length (Textures f)))))
            (feeds_eseq _ _ _ _
               (feeds_writeLoop "write texture entry" _ _ (Textures f)
                  feeds_writeTextureEntry 0)
               feeds_eskip))) k) as Hall.
    unfold Stream.eseq at 1 in Hall.
    rewrite (feeds_ewrap _ _ _ (feeds_wbytes _)) in Hall.
    rewrite Hall. clear Hall. unfold fileCalls, within, field.
    cbn [fmap list_fmap app fst snd]. rewrite app_nil_r.
    by destruct (feed _ k) as [[e|] k'].
  - destruct (Z.ltb_spec MaxUint32 (Z.of_nat (length (Textures f)))); [|lia].
    unfold fileCalls, within, field. cbn [take app fst snd fmap list_fmap feed].
    destruct (sinkWrite _ k) as [[e|] k1]; [done|].
    unfold Stream.eseq, Stream.ewrap, Stream.writeU32, Stream.wbytes, Stream.efail.
    by destruct (sinkWrite _ k1) as [[e|] k2].
Qed.
End writer_properties.


Section call_bytes.

Lemma callBytes_app x y : callBytes (x ++ y) = callBytes x ++ callBytes y.
Proof. unfold callBytes. by rewrite fmap_app, concat_app. Qed.

Lemma callBytes_within fr calls : callBytes (within fr calls) = callBytes calls.
Proof.
  unfold callBytes, within. induction calls as [|c calls IH]; [done|].
  rewrite !fmap_cons. cbn [concat snd]. by rewrite IH.
Qed.

Lemma callBytes_loop {A} ctx (item : A → list call) (g : A → list byte) xs :
  (∀ x, callBytes (item x) = g x) →
  ∀ i, callBytes (loopCalls ctx item i xs) = concat (g <$> xs).
Proof.
  intros Hitem. induction xs as [|x xs IH]; intros i; [done|].
  cbn [loopCalls]. rewrite callBytes_app, callBytes_within, Hitem, IH.
  by rewrite fmap_cons.
Qed.

Lemma callBytes_mip m : callBytes (mipCalls m) = mipBytes m.
Proof. reflexivity. Qed.

Lemma callBytes_entry e : callBytes (entryCalls e) = entryBytes e.
Proof.
  unfold entryCalls, entryBytes, entryHead, entryMiddle, float4Bytes.
  destruct (AverageColorF e) as [[[f0 f1] f2] f3].
  rewrite !callBytes_app, (callBytes_loop _ _ mipBytes) by apply callBytes_mip.
  unfold callBytes, field. cbn [fmap list_fmap concat snd].
  rewrite !app_nil_r, <- !app_assoc. reflexivity.
Qed.

Lemma callBytes_file f : callBytes (fileCalls f) = fileBytes f.
Proof.
  unfold fileCalls, fileBytes, headerBytes.
  rewrite callBytes_app, (callBytes_loop _ _ entryBytes) by apply callBytes_entry.
  unfold callBytes, field. cbn [fmap list_fmap concat snd].
  rewrite !app_nil_r, <- !app_assoc. reflexivity.
Qed.

(** On the buffer the encoder of [Stream] is [Write]. *)
Lemma Stream_Write_buffer f w : @Stream.Write bufferWriter f w = Write f w.
Proof. reflexivity. Qed.

Lemma feed_appendFiles path calls : ∀ (disk : gmap string (list byte)) cur,
  disk !! path = Some cur →
  @feed (@fileWriter appendFiles path) calls disk
    = (None, <[path := cur ++ callBytes calls]> disk).
Proof.
  induction calls as [|[frames p] calls IH]; intros disk cur Hcur.
  - cbn [feed]. unfold callBytes. cbn [fmap list_fmap concat].
    by rewrite app_nil_r, (insert_id _ _ _ Hcur).
  - cbn [feed sinkWrite fileWriter fileWrite appendFiles]. rewrite Hcur. cbn [default].
    rewrite (IH _ (cur ++ p)) by apply lookup_insert_eq.
    rewrite insert_insert_eq. unfold callBytes. rewrite fmap_cons. cbn [concat snd].
    by rewrite app_assoc.
Qed.

Lemma feed_bufferWriter calls : ∀ w,
  @feed bufferWriter calls w = (None, w ++ callBytes calls).
Proof.
  induction calls as [|[frames p] calls IH]; intros w.
  - cbn [feed]. unfold callBytes. cbn [fmap list_fmap concat]. by rewrite app_nil_r.
  - cbn [feed sinkWrite bufferWriter]. rewrite IH.
    unfold callBytes. rewrite fmap_cons. cbn [concat snd]. by rewrite app_assoc.
Qed.

(** [WriteFile] is [WriteFileOn] for files whose writes always append. *)
Lemma WriteFileOn_appendFiles `{Os} disk path f :
  @WriteFileOn _ appendFiles disk path f = WriteFile disk path f.
Proof.
  unfold WriteFileOn, WriteFile. destruct (osCreate path); [done|].
  destruct f as [f|]; [|done].
  rewrite <- (Stream_Write_buffer (Some f) []), !Stream_Write_plan.
  unfold feedThen.
  rewrite (feed_appendFiles path _ _ []) by apply lookup_insert_eq.
  rewrite feed_bufferWriter, insert_insert_eq.
  by destruct (writePlan f).2.
Qed.
End call_bytes.

(** ** Builder: writing what was built *)

Section builder_writes.
Context `{Host} `{Paa}.

Lemma Stream_Write_newFile `{Writer} f k :
  f = newFile (Textures f) →
  Z.of_nat (length (Textures f)) <= MaxUint32 →
  Stream.Write (Some f) k = feed (fileCalls f) k.
Proof.
  intros Hf Hlen. rewrite Stream_Write_plan. unfold feedThen, writePlan.
  assert (effectiveMagic f = FileMagic) as -> by by rewrite Hf.
  assert (effectiveVersion f = SupportedVersion) as -> by by rewrite Hf.
  rewrite decide_False by (intros Hne; by apply Hne).
  rewrite decide_False by (intros Hne; by apply Hne).
  destruct (Z.ltb_spec MaxUint32 (Z.of_nat (length (Textures f)))); [lia|].
  cbn [fst snd]. by destruct (feed _ k) as [[e|] k'].
Qed.

(** X27. [Builder.Write] on a writer that can refuse.  With at most
    2^32-1 inputs: when [Build] fails, its error is returned and the
    writer is not called; otherwise the encoding of the built file is
    passed to the writer call by call (one call for each field, two for a
    path), in order, up to the first call the writer refuses, whose error
    is returned under the contexts of that field; nil is returned when no
    call is refused.  The encoder adds no failure of its own on a built
    file, and a refused call leaves a part of the index written. *)
Theorem BuilderWrite_stops_at_first_refusal `{Writer} (b b' : Builder) (k k' : Sink)
    (err : option error) :
  BuilderWrite b k (b', (err, k')) →
  Z.of_nat (length (inputs b)) <= MaxUint32 →
  (∃ e, Build b (b', Err e) ∧ err = Some e ∧ k' = k) ∨
  (∃ f, Build b (b', Ok f) ∧
        (err, k') = feed (fileCalls f) k ∧
        callBytes (fileCalls f) = fileBytes f).
Proof.
  intros Hbw Hlen. remember (b', (err, k')) as res eqn:Hres.
  destruct Hbw as [[b1 r] Hbuild]. cbn [fst snd] in Hres.
  destruct r as [f|e].
  - right. destruct (Build_Ok_newFile _ _ f Hbuild eq_refl) as [Hf Hn].
    rewrite Stream_Write_newFile in Hres by (done || lia).
    injection Hres as <- Hres. exists f. split; [done|].
    split; [done|apply callBytes_file].
  - left. injection Hres as <- <- <-. by exists e.
Qed.

(** X28. [Builder.WriteFile] when writes to the file can fail.  With at
    most 2^32-1 inputs: when [Build] fails, its error is returned and the
    disk is as before (the path is not created); when [os.Create] refuses
    the path, "create <path>" around its error is returned and the disk is
    as before; otherwise the file is emptied and the encoding of the built
    file is written to it call by call up to the first write that fails,
    whose error is returned as "write <path>" around the contexts of the
    field, leaving the part written so far on disk. *)
Theorem BuilderWriteFile_outcome `{Os} `{FileWrites} (b b' : Builder)
    (disk disk' : gmap string (list byte)) (path : string) (err : option error) :
  BuilderWriteFile b disk path (b', (disk', err)) →
  Z.of_nat (length (inputs b)) <= MaxUint32 →
  (∃ e, Build b (b', Err e) ∧ err = Some e ∧ disk' = disk) ∨
  (∃ f, Build b (b', Ok f) ∧
        callBytes (fileCalls f) = fileBytes f ∧
        match osCreate path with
        | Some e => err = Some (WrapPath "create" path e) ∧ disk' = disk
        | None =>
            err = WrapPath "write" path
                    <$> (@feed (fileWriter path) (fileCalls f) (<[path := []]> disk)).1 ∧
            disk' = (@feed (fileWriter path) (fileCalls f) (<[path := []]> disk)).2
        end).
Proof.
  intros Hbw Hlen. remember (b', (disk', err)) as res eqn:Hres.
  destruct Hbw as [[b1 r] Hbuild]. cbn [fst snd] in Hres.
  destruct r as [f|e].
  - right. destruct (Build_Ok_newFile _ _ f Hbuild eq_refl) as [Hf Hn].
    exists f. unfold WriteFileOn in Hres. destruct (osCreate path) as [ce|].
    + injection Hres as <- <- <-. split; [done|]. split; [apply callBytes_file|done].
    + rewrite (@Stream_Write_newFile (fileWriter path)) in Hres by (done || lia).
      destruct (@feed (fileWriter path) (fileCalls f) (<[path:=[]]> disk)) as [[we|] d];
        injection Hres as <- <- <-; (split; [done|]); (split; [apply callBytes_file|done]).
  - left. injection Hres as <- <- <-. by exists e.
Qed.
End builder_writes.

Lemma Build_sample_built :
  @Build sampleHost samplePaa sampleBuilder
    ((@BuildSerial sampleHost samplePaa sampleBuilder).1, Ok sampleBuilt).
Proof. exact Build_sample. Qed.

(** A buffer of 100 bytes under the sample builder: the second mip of the
    first entry does not fit, the encoder returns the refusal of the
    writer under the contexts of that field, and the buffer holds the
    first 100 bytes of the index. *)
Example BuilderWrite_short_buffer :
  @Stream.Write (limitedBuffer 100) (Some sampleBuilt) []
    = (Some (WrapAt "write texture entry" 0
               (WrapAt "write mipmap" 1
                  (Wrap "write width" (ErrExternal "short write")))),
       take 100 (fileBytes sampleBuilt)).
Proof. vm_compute. reflexivity. Qed.

Lemma BuilderWrite_stops_at_first_refusal_witness :
  let r := @Stream.Write (limitedBuffer 100) (Some sampleBuilt) [] in
  (∃ e, @Build sampleHost samplePaa sampleBuilder
          ((@BuildSerial sampleHost samplePaa sampleBuilder).1, Err e) ∧
        r.1 = Some e ∧ r.2 = []) ∨
  (∃ f, @Build sampleHost samplePaa sampleBuilder
          ((@BuildSerial sampleHost samplePaa sampleBuilder).1, Ok f) ∧
        (r.1, r.2) = @feed (limitedBuffer 100) (fileCalls f) [] ∧
        callBytes (fileCalls f) = fileBytes f).
Proof.
  intros r.
  apply (@BuilderWrite_stops_at_first_refusal sampleHost samplePaa (limitedBuffer 100)
           sampleBuilder).
  - pose proof (@BuilderWrite_built sampleHost samplePaa (limitedBuffer 100)
                  sampleBuilder [] _ Build_sample) as Hbw.
    vm_compute in Hbw. vm_compute. exact Hbw.
  - vm_compute. discriminate.
Defined.

Lemma BuilderWriteFile_outcome_witness :
  let path := "/tmp/texHeaders.bin" in
  let r := @WriteFileOn sampleOs (limitedFiles 100) ∅ path (Some sampleBuilt) in
  (∃ e, @Build sampleHost samplePaa sampleBuilder
          ((@BuildSerial sampleHost samplePaa sampleBuilder).1, Err e) ∧
        r.2 = Some e ∧ r.1 = ∅) ∨
  (∃ f, @Build sampleHost samplePaa sampleBuilder
          ((@BuildSerial sampleHost samplePaa sampleBuilder).1, Ok f) ∧
        callBytes (fileCalls f) = fileBytes f ∧
        match @osCreate sampleOs path with
        | Some e => r.2 = Some (WrapPath "create" path e) ∧ r.1 = ∅
        | None =>
            r.2 = WrapPath "write" path
                    <$> (@feed (@fileWriter (limitedFiles 100) path) (fileCalls f)
                           (<[path := []]> ∅)).1 ∧
            r.1 = (@feed (@fileWriter (limitedFiles 100) path) (fileCalls f)
                     (<[path := []]> ∅)).2
        end).
Proof.
  intros path r.
  apply (@BuilderWriteFile_outcome sampleHost samplePaa sampleOs (limitedFiles 100)
           sampleBuilder).
  - pose proof (@BuilderWriteFile_built sampleHost samplePaa sampleOs (limitedFiles 100)
                  sampleBuilder ∅ path _ Build_sample) as Hbw.
    exact Hbw.
  - vm_compute. discriminate.
Defined.
